(** * 0s: a repository file-transfer tool

    A shallow embedding of [0s.go] (package [main]) and a verification of
    its specification.  The program keeps a JSON configuration naming a
    set of repositories, one of which is current, and copies files between
    the working directory and the current repository, which is a local
    directory or an SFTP endpoint.

    Layout of the development:
    - [Path]: Go's [path] / [path/filepath] on a Unix host ([Clean], [Join]);
    - [JSON]: the fragment of [encoding/json] the program relies on;
    - [Sys]: the operating-system and library calls the program makes, as an
      interface over an abstract local world and an abstract network;
    - section [Program]: the functions of [0s.go], written once over [Sys];
    - [Unix]: a concrete instance of [Sys] (a tree of directories and files,
      an SSH server with its own tree);
    - the theorems.

    Strings are byte strings ([string] is a list of [ascii]), as in Go. *)

From Stdlib Require Import ZArith NArith Lia Ascii String Sorting.Sorted.
From stdpp Require Import base option list gmap strings sorting.

Set Default Proof Using "Type".
Set Warnings "-register-all,-abstract-large-number".
Local Open Scope string_scope.
Local Open Scope list_scope.

(** ** Go values *)

(** A Go [error] is represented by its message; [option error] is a
    possibly-nil error. *)
Definition error := string.

(** A Go result pair [(x, err)]. *)
Inductive result (A : Type) : Type :=
| Ok (a : A)
| Err (e : error).
Arguments Ok {A} a.
Arguments Err {A} e.

Definition result_err {A} (r : result A) : option error :=
  match r with Ok _ => None | Err e => Some e end.

(** [os.FileMode]: the permission bits and the directory bit, as a number. *)
Definition FileMode := N.
Definition ModePerm : FileMode := 511%N.  (* 0777 *)

(** [os.FileInfo], restricted to the methods the program calls. *)
Record FileInfo := mkFileInfo {
  fi_Name : string;
  fi_IsDir : bool;
  fi_Mode : FileMode
}.

(** ** path and path/filepath (Unix) *)
Module Path.

(** [strings.Split(s, "/")]. *)
Fixpoint split (s : string) : list string :=
  match s with
  | EmptyString => [EmptyString]
  | String c s' =>
      if Ascii.eqb c "/" then EmptyString :: split s'
      else match split s' with
           | [] => [String c EmptyString]
           | x :: xs => String c x :: xs
           end
  end.

(** [strings.Join(l, "/")]. *)
Fixpoint join (l : list string) : string :=
  match l with
  | [] => ""
  | [x] => x
  | x :: xs => x +:+ "/" +:+ join xs
  end.

Definition IsAbs (p : string) : bool :=
  match p with String c _ => Ascii.eqb c "/" | EmptyString => false end.

(** One step of the lexical clean-up: [stk] holds the elements kept so
    far, innermost first.  Empty and [.] elements are dropped, [..]
    removes the element before it, is dropped at the root, and is kept
    at the start of a relative path. *)
Definition clean_step (rooted : bool) (stk : list string) (c : string)
  : list string :=
  if decide (c = "" ∨ c = ".") then stk
  else if decide (c = "..") then
    match stk with
    | [] => if rooted then [] else [".."]
    | top :: rest => if decide (top = "..") then ".." :: stk else rest
    end
  else c :: stk.

Definition clean_elems (rooted : bool) (l : list string) : list string :=
  rev (fold_left (clean_step rooted) l []).

(** [path.Clean] and, on Unix, [filepath.Clean]. *)
Definition Clean (p : string) : string :=
  if decide (p = "") then "."
  else
    let body := join (clean_elems (IsAbs p) (split p)) in
    if IsAbs p then "/" +:+ body
    else if decide (body = "") then "." else body.

(** [filepath.Join(a, b)] and, for the SFTP client, [path.Join(a, b)]:
    the elements from the first non-empty one on are joined by slashes
    and the result is cleaned. *)
Definition Join (a b : string) : string :=
  if decide (a = "") then
    if decide (b = "") then "" else Clean b
  else Clean (a +:+ "/" +:+ b).

(** [filepath.ToSlash] is the identity where the separator is a slash. *)
Definition ToSlash (p : string) : string := p.

(** [path.Base]. *)
Definition Base (p : string) : string :=
  if decide (p = "") then "."
  else match clean_elems true (split p) with
       | [] => "/"
       | l => default "/" (last l)
       end.

End Path.

(** [s[n:]]: [None] stands for the run-time panic of a slice expression
    whose bound exceeds the length. *)
Fixpoint slice_from (n : nat) (s : string) : option string :=
  match n, s with
  | O, _ => Some s
  | S n', String _ s' => slice_from n' s'
  | S _, EmptyString => None
  end.

(** ** The configuration *)

(** [type Repository struct]: a connection descriptor.  The field [Type]
    is spelled [r_Type] and the others follow suit. *)
Record Repository := mkRepository {
  r_Type : string;
  r_Path : string;
  r_Host : string;
  r_Port : N;               (* uint *)
  r_User : string;
  r_PrivateKey : string;
  r_Password : string
}.

(** [type Config struct].  A Go map is either nil or a finite map;
    [c_Repositories] is [None] for the nil map. *)
Record Config := mkConfig {
  c_Current : string;
  c_Repositories : option (gmap string Repository)
}.

(** The zero values [Repository{}] and [Config{}]. *)
Definition zeroRepository : Repository := mkRepository "" "" "" 0 "" "" "".
Definition zeroConfig : Config := mkConfig "" None.

(** [m[k]] on a map of repositories: the zero value when the key is
    absent or the map is nil, with the [ok] flag of the two-valued form. *)
Definition map_index (m : option (gmap string Repository)) (k : string)
  : Repository * bool :=
  match m ≫= (λ g, g !! k) with
  | Some r => (r, true)
  | None => (zeroRepository, false)
  end.

(** [m[k] = r] on a non-nil map (the program never assigns into a nil map). *)
Definition map_assign (m : option (gmap string Repository)) (k : string)
  (r : Repository) : option (gmap string Repository) :=
  (λ g, <[k := r]> g) <$> m.

Definition set_Current (c : Config) (name : string) : Config :=
  mkConfig name (c_Repositories c).

Definition set_Repositories (c : Config)
  (m : option (gmap string Repository)) : Config :=
  mkConfig (c_Current c) m.

Definition set_Path (r : Repository) (p : string) : Repository :=
  mkRepository (r_Type r) p (r_Host r) (r_Port r) (r_User r)
               (r_PrivateKey r) (r_Password r).

(** ** UTF-8, as encoding/json treats it *)
Module Utf8.

Definition byte (c : ascii) : N := N_of_ascii c.
Definition chr (n : N) : ascii := ascii_of_N n.

Definition between (lo hi : N) (c : ascii) : bool :=
  (lo <=? byte c)%N && (byte c <=? hi)%N.

Definition cont (c : ascii) : bool := between 128 191 c.

(** The length of the well-formed multi-byte sequence at the head of
    [s], or [0] when the head is not the start of one (the accept ranges
    of [utf8.DecodeRune]: no overlong forms, no surrogates, nothing
    above U+10FFFF). *)
Definition rune_len (s : string) : nat :=
  match s with
  | String b0 (String b1 t1) =>
      if between 194 223 b0 then (if cont b1 then 2 else 0)%nat
      else match t1 with
      | String b2 t2 =>
          let second3 :=
            if between 224 224 b0 then between 160 191 b1
            else if between 237 237 b0 then between 128 159 b1
            else between 225 239 b0 && cont b1 in
          if between 224 239 b0 then
            (if second3 && cont b2 then 3 else 0)%nat
          else match t2 with
          | String b3 _ =>
              let second4 :=
                if between 240 240 b0 then between 144 191 b1
                else if between 244 244 b0 then between 128 143 b1
                else between 241 243 b0 && cont b1 in
              (if second4 && cont b2 && cont b3 then 4 else 0)%nat
          | _ => 0%nat
          end
      | _ => 0%nat
      end
  | _ => 0%nat
  end.

(** [utf8.EncodeRune] for a rune that is not a surrogate. *)
Definition encode (r : N) : string :=
  (if r <? 128 then String (chr r) ""
   else if r <? 2048 then
     String (chr (192 + r / 64)) (String (chr (128 + r mod 64)) "")
   else if r <? 65536 then
     String (chr (224 + r / 4096))
       (String (chr (128 + (r / 64) mod 64))
          (String (chr (128 + r mod 64)) ""))
   else
     String (chr (240 + r / 262144))
       (String (chr (128 + (r / 4096) mod 64))
          (String (chr (128 + (r / 64) mod 64))
             (String (chr (128 + r mod 64)) ""))))%N.

(** U+FFFD, the replacement character. *)
Definition replacement : string := encode 65533.

(** Every byte that does not belong to a well-formed sequence becomes
    U+FFFD.  [k] counts the bytes still to be copied of a sequence that
    has been checked. *)
Fixpoint fix_aux (k : nat) (s : string) : string :=
  match s with
  | EmptyString => ""
  | String b s' =>
      match k with
      | S k' => String b (fix_aux k' s')
      | O =>
          if (byte b <? 128)%N then String b (fix_aux 0 s')
          else match rune_len s with
               | S n => String b (fix_aux n s')
               | O => replacement +:+ fix_aux 0 s'
               end
      end
  end.

Definition sanitize (s : string) : string := fix_aux 0 s.

End Utf8.

(** ** encoding/json

    The library is not part of the repository; this is a model of the
    behaviour the program relies on: the syntax check and decoding that
    [json.Unmarshal] performs on a [*Config], and the text
    [json.MarshalIndent(config, "", "  ")] produces.  Error messages are
    abbreviated (the program discards or merely prints them). *)
Module JSON.

(** A JSON text.  An object keeps its members in the order of the
    document; a number keeps its literal. *)
Inductive json : Type :=
| JNull
| JBool (b : bool)
| JNum (lit : string)
| JStr (s : string)
| JArr (l : list json)
| JObj (m : list (string * json)).

(** *** Reading *)

(** The double quote. *)
Definition dquote : ascii := "034"%char.

Definition is_ws (c : ascii) : bool :=
  Ascii.eqb c " " || Ascii.eqb c "009" || Ascii.eqb c "010"
  || Ascii.eqb c "013".

Fixpoint skip_ws (s : string) : string :=
  match s with
  | String c s' => if is_ws c then skip_ws s' else s
  | EmptyString => s
  end.

Fixpoint strip_prefix (p s : string) : option string :=
  match p, s with
  | EmptyString, _ => Some s
  | String a p', String b s' =>
      if Ascii.eqb a b then strip_prefix p' s' else None
  | String _ _, EmptyString => None
  end.

Definition has_prefix (p s : string) : bool :=
  match strip_prefix p s with Some _ => true | None => false end.

Definition is_digit (c : ascii) : bool := Utf8.between 48 57 c.

Definition hex_val (c : ascii) : option N :=
  (if Utf8.between 48 57 c then Some (Utf8.byte c - 48)
   else if Utf8.between 97 102 c then Some (Utf8.byte c - 87)
   else if Utf8.between 65 70 c then Some (Utf8.byte c - 55)
   else None)%N.

(** [getu4]: the rune of a [\uXXXX] escape at the head of [s]. *)
Definition getu4 (s : string) : option (N * string) :=
  match s with
  | String "\" (String "u" (String a (String b (String c (String d t))))) =>
      match hex_val a, hex_val b, hex_val c, hex_val d with
      | Some x, Some y, Some z, Some w =>
          Some (x * 4096 + y * 256 + z * 16 + w, t)%N
      | _, _, _, _ => None
      end
  | _ => None
  end.

Definition is_surrogate (r : N) : bool := (55296 <=? r)%N && (r <? 57344)%N.

(** [utf16.DecodeRune]: the code point of a surrogate pair, if it is one. *)
Definition decode_pair (r1 r2 : N) : option N :=
  if ((55296 <=? r1) && (r1 <? 56320) && (56320 <=? r2) && (r2 <? 57344))%N
  then Some (65536 + (r1 - 55296) * 1024 + (r2 - 56320))%N
  else None.

Definition simple_escape (c : ascii) : option ascii :=
  if Ascii.eqb c dquote then Some dquote
  else if Ascii.eqb c "\" then Some "\"%char
  else if Ascii.eqb c "/" then Some "/"%char
  else if Ascii.eqb c "b" then Some "008"%char
  else if Ascii.eqb c "f" then Some "012"%char
  else if Ascii.eqb c "n" then Some "010"%char
  else if Ascii.eqb c "r" then Some "013"%char
  else if Ascii.eqb c "t" then Some "009"%char
  else None.

(** The body of a string literal, up to and including its closing quote,
    with the escapes decoded; [None] when the literal is malformed (a
    control character, an unknown escape, no closing quote). *)
Fixpoint scan_string (s : string) : option (string * string) :=
  match s with
  | EmptyString => None
  | String c s1 =>
      if Ascii.eqb c dquote then Some ("", s1)
      else if Ascii.eqb c "\" then
        match s1 with
        | String e s2 =>
            match simple_escape e with
            | Some ch =>
                '(body, rest) ← scan_string s2; Some (String ch body, rest)
            | None =>
                match s2 with
                | String a (String b (String x (String y s6))) =>
                    if Ascii.eqb e "u" then
                      match getu4 s with
                      | None => None
                      | Some (r, _) =>
                          let single :=
                            '(body, rest) ← scan_string s6;
                            Some ((if is_surrogate r then Utf8.replacement
                                   else Utf8.encode r) +:+ body, rest) in
                          match s6 with
                          | String p (String q (String h1 (String h2
                              (String h3 (String h4 s12))))) =>
                              match getu4 s6 ≫= (λ '(r2, _), decode_pair r r2) with
                              | Some dec =>
                                  '(body, rest) ← scan_string s12;
                                  Some (Utf8.encode dec +:+ body, rest)
                              | None => single
                              end
                          | _ => single
                          end
                      end
                    else None
                | _ => None
                end
            end
        | EmptyString => None
        end
      else if (Utf8.byte c <? 32)%N then None
      else '(body, rest) ← scan_string s1; Some (String c body, rest)
  end.

Fixpoint scan_digits (s : string) : string * string :=
  match s with
  | String c s' =>
      if is_digit c then let '(d, r) := scan_digits s' in (String c d, r)
      else ("", s)
  | EmptyString => ("", s)
  end.

(** A number literal at the head of [s]. *)
Definition scan_number (s : string) : option (string * string) :=
  let '(sign, s0) :=
    match s with
    | String "-" t => ("-", t)
    | _ => ("", s)
    end in
  int ← match s0 with
        | String "0" t => Some ("0", t)
        | _ => let '(d, t) := scan_digits s0 in
               if decide (d = "") then None else Some (d, t)
        end;
  let '(ipart, s1) := int in
  frac ← match s1 with
         | String "." t =>
             let '(d, t') := scan_digits t in
             if decide (d = "") then None else Some ("." +:+ d, t')
         | _ => Some ("", s1)
         end;
  let '(fpart, s2) := frac in
  exp ← match s2 with
        | String e t =>
            if Ascii.eqb e "e" || Ascii.eqb e "E" then
              let '(sg, t0) :=
                match t with
                | String "+" u => ("+", u)
                | String "-" u => ("-", u)
                | _ => ("", t)
                end in
              let '(d, t') := scan_digits t0 in
              if decide (d = "") then None
              else Some (String e sg +:+ d, t')
            else Some ("", s2)
        | EmptyString => Some ("", s2)
        end;
  let '(epart, s3) := exp in
  Some (sign +:+ ipart +:+ fpart +:+ epart, s3).

(** Containers may nest [maxNestingDepth] deep. *)
Definition maxNestingDepth : nat := 10000.

(** A value at the head of [s] (after white space) and what follows it.
    [fuel] bounds the number of values and members read, [depth] the
    nesting still allowed. *)
Fixpoint parse_value (fuel depth : nat) (s : string)
  : option (json * string) :=
  match fuel with
  | O => None
  | S fuel' =>
      match skip_ws s with
      | EmptyString => None
      | String c rest =>
          if Ascii.eqb c "{" then
            match depth with
            | O => None
            | S d =>
                match skip_ws rest with
                | String "}" r => Some (JObj [], r)
                | r => parse_members fuel' d r []
                end
            end
          else if Ascii.eqb c "[" then
            match depth with
            | O => None
            | S d =>
                match skip_ws rest with
                | String "]" r => Some (JArr [], r)
                | r => parse_elements fuel' d r []
                end
            end
          else if Ascii.eqb c dquote then
            '(str, r) ← scan_string rest;
            Some (JStr (Utf8.sanitize str), r)
          else if Ascii.eqb c "-" || is_digit c then
            '(lit, r) ← scan_number (String c rest); Some (JNum lit, r)
          else
            match strip_prefix "true" (String c rest),
                  strip_prefix "false" (String c rest),
                  strip_prefix "null" (String c rest) with
            | Some r, _, _ => Some (JBool true, r)
            | _, Some r, _ => Some (JBool false, r)
            | _, _, Some r => Some (JNull, r)
            | _, _, _ => None
            end
      end
  end
with parse_members (fuel depth : nat) (s : string)
       (acc : list (string * json)) : option (json * string) :=
  match fuel with
  | O => None
  | S fuel' =>
      match skip_ws s with
      | String "034" r0 =>
          '(k, r1) ← scan_string r0;
          match skip_ws r1 with
          | String ":" r2 =>
              '(v, r3) ← parse_value fuel' depth r2;
              match skip_ws r3 with
              | String "," r4 =>
                  parse_members fuel' depth r4 ((Utf8.sanitize k, v) :: acc)
              | String "}" r4 =>
                  Some (JObj (rev ((Utf8.sanitize k, v) :: acc)), r4)
              | _ => None
              end
          | _ => None
          end
      | _ => None
      end
  end
with parse_elements (fuel depth : nat) (s : string) (acc : list json)
       : option (json * string) :=
  match fuel with
  | O => None
  | S fuel' =>
      '(v, r1) ← parse_value fuel' depth s;
      match skip_ws r1 with
      | String "," r2 => parse_elements fuel' depth r2 (v :: acc)
      | String "]" r2 => Some (JArr (rev (v :: acc)), r2)
      | _ => None
      end
  end.

(** The whole input is one value, with white space around it at most. *)
Definition parse (data : string) : option json :=
  '(j, rest) ← parse_value (2 + String.length data) maxNestingDepth data;
  if decide (skip_ws rest = "") then Some j else None.

(** *** Decoding into a [Config] *)

(** [foldName], as far as it decides whether a key names a field whose
    name is ASCII: letters are upper-cased; the Kelvin sign (U+212A) and
    the long s (U+017F) fold to [K] and [S]. *)
Fixpoint fold_aux (skip : nat) (s : string) : string :=
  match s with
  | EmptyString => ""
  | String b s' =>
      match skip with
      | S k => fold_aux k s'
      | O =>
          if Utf8.between 97 122 b then
            String (Utf8.chr (Utf8.byte b - 32)) (fold_aux 0 s')
          else if has_prefix (String "226" (String "132" (String "170" ""))) s
          then String "K" (fold_aux 2 s')
          else if has_prefix (String "197" (String "191" "")) s
          then String "S" (fold_aux 1 s')
          else String b (fold_aux 0 s')
      end
  end.

Definition foldName (s : string) : string := fold_aux 0 s.

(** The field a key selects: the one with exactly that name, or else the
    one with that name up to folding. *)
Definition field_of {F : Type} (fields : list (string * F)) (key : string)
  : option F :=
  match list_find (λ f, f.1 = key) fields with
  | Some (_, f) => Some f.2
  | None =>
      match list_find (λ f, foldName f.1 = foldName key) fields with
      | Some (_, f) => Some f.2
      | None => None
      end
  end.

Inductive ConfigField := FCurrent | FRepositories.
Inductive RepositoryField :=
  FType | FPath | FHost | FPort | FUser | FPrivateKey | FPassword.

(** The struct tags of [Config] and [Repository]. *)
Definition config_fields : list (string * ConfigField) :=
  [("current", FCurrent); ("repositories", FRepositories)].

Definition repository_fields : list (string * RepositoryField) :=
  [("type", FType); ("path", FPath); ("host", FHost); ("port", FPort);
   ("user", FUser); ("private_key", FPrivateKey); ("password", FPassword)].

Definition kind_of (j : json) : string :=
  match j with
  | JNull => "null"
  | JBool _ => "bool"
  | JNum lit => "number " +:+ lit
  | JStr _ => "string"
  | JArr _ => "array"
  | JObj _ => "object"
  end.

(** [UnmarshalTypeError]. *)
Definition type_error (j : json) (ty : string) : error :=
  "json: cannot unmarshal " +:+ kind_of j +:+ " into Go value of type " +:+ ty.

(** The decoder keeps the first error and goes on. *)
Definition first_error (a b : option error) : option error :=
  match a with Some _ => a | None => b end.

Definition decode_string (j : json) (old : string) : string * option error :=
  match j with
  | JStr s => (s, None)
  | JNull => (old, None)
  | _ => (old, Some (type_error j "string"))
  end.

Fixpoint digits_value (acc : N) (s : string) : option N :=
  match s with
  | EmptyString => Some acc
  | String c s' =>
      if is_digit c then digits_value (acc * 10 + (Utf8.byte c - 48))%N s'
      else None
  end.

(** [strconv.ParseUint(lit, 10, 64)]. *)
Definition parse_uint (lit : string) : option N :=
  match digits_value 0 lit with
  | Some n => if (n <? 2 ^ 64)%N then Some n else None
  | None => None
  end.

Definition decode_uint (j : json) (old : N) : N * option error :=
  match j with
  | JNum lit =>
      match parse_uint lit with
      | Some n => (n, None)
      | None => (old, Some (type_error j "uint"))
      end
  | JNull => (old, None)
  | _ => (old, Some (type_error j "uint"))
  end.

Definition decode_repository_member (st : Repository * option error)
  (kv : string * json) : Repository * option error :=
  let '(r, e) := st in
  let '(k, v) := kv in
  let str (get : Repository → string) (set : string → Repository) :=
    let '(x, e') := decode_string v (get r) in (set x, first_error e e') in
  match field_of repository_fields k with
  | Some FType =>
      str r_Type (λ x, mkRepository x (r_Path r) (r_Host r) (r_Port r)
                         (r_User r) (r_PrivateKey r) (r_Password r))
  | Some FPath => str r_Path (set_Path r)
  | Some FHost =>
      str r_Host (λ x, mkRepository (r_Type r) (r_Path r) x (r_Port r)
                         (r_User r) (r_PrivateKey r) (r_Password r))
  | Some FPort =>
      let '(x, e') := decode_uint v (r_Port r) in
      (mkRepository (r_Type r) (r_Path r) (r_Host r) x
                    (r_User r) (r_PrivateKey r) (r_Password r),
       first_error e e')
  | Some FUser =>
      str r_User (λ x, mkRepository (r_Type r) (r_Path r) (r_Host r)
                         (r_Port r) x (r_PrivateKey r) (r_Password r))
  | Some FPrivateKey =>
      str r_PrivateKey (λ x, mkRepository (r_Type r) (r_Path r) (r_Host r)
                               (r_Port r) (r_User r) x (r_Password r))
  | Some FPassword =>
      str r_Password (λ x, mkRepository (r_Type r) (r_Path r) (r_Host r)
                             (r_Port r) (r_User r) (r_PrivateKey r) x)
  | None => (r, e)
  end.

Definition decode_repository (j : json) (old : Repository)
  : Repository * option error :=
  match j with
  | JObj m => fold_left decode_repository_member m (old, None)
  | JNull => (old, None)
  | _ => (old, Some (type_error j "main.Repository"))
  end.

(** A member of the object decoded into the map: the element is decoded
    into a fresh zero value and stored under the key. *)
Definition decode_map_member
  (st : gmap string Repository * option error) (kv : string * json)
  : gmap string Repository * option error :=
  let '(g, e) := st in
  let '(r, e') := decode_repository kv.2 zeroRepository in
  (<[kv.1 := r]> g, first_error e e').

Definition decode_repositories (j : json)
  (old : option (gmap string Repository))
  : option (gmap string Repository) * option error :=
  match j with
  | JObj m =>
      let '(g, e) := fold_left decode_map_member m (default ∅ old, None) in
      (Some g, e)
  | JNull => (None, None)
  | _ => (old, Some (type_error j "map[string]main.Repository"))
  end.

Definition decode_config_member (st : Config * option error)
  (kv : string * json) : Config * option error :=
  let '(c, e) := st in
  match field_of config_fields kv.1 with
  | Some FCurrent =>
      let '(x, e') := decode_string kv.2 (c_Current c) in
      (set_Current c x, first_error e e')
  | Some FRepositories =>
      let '(m, e') := decode_repositories kv.2 (c_Repositories c) in
      (set_Repositories c m, first_error e e')
  | None => (c, e)
  end.

Definition decode_config (j : json) (old : Config) : Config * option error :=
  match j with
  | JObj m => fold_left decode_config_member m (old, None)
  | JNull => (old, None)
  | _ => (old, Some (type_error j "main.Config"))
  end.

(** [json.Unmarshal(data, &config)]: the value [config] holds afterwards
    and the error returned.  Input that is not one well-formed JSON
    value is refused before anything is stored. *)
Definition Unmarshal (data : string) (config : Config)
  : Config * option error :=
  match parse data with
  | None => (config, Some "invalid character or unexpected end of JSON input")
  | Some j => decode_config j config
  end.

(** *** Writing *)

Definition hex_digit (n : N) : ascii :=
  Utf8.chr (if (n <? 10)%N then 48 + n else 87 + n)%N.

(** The escape of an ASCII byte that is not written as it is: a control
    character, a quote, a backslash, or one of [<], [>], [&]. *)
Definition escape_byte (b : ascii) : string :=
  if Ascii.eqb b dquote || Ascii.eqb b "\" then String "\" (String b "")
  else if Ascii.eqb b "008" then "\b"
  else if Ascii.eqb b "012" then "\f"
  else if Ascii.eqb b "010" then "\n"
  else if Ascii.eqb b "013" then "\r"
  else if Ascii.eqb b "009" then "\t"
  else "\u00" +:+ String (hex_digit (Utf8.byte b / 16))
                    (String (hex_digit (Utf8.byte b mod 16)) "").

Definition html_safe (b : ascii) : bool :=
  (32 <=? Utf8.byte b)%N
  && negb (Ascii.eqb b dquote || Ascii.eqb b "\" || Ascii.eqb b "<"
           || Ascii.eqb b ">" || Ascii.eqb b "&").

Inductive quote_mode := Plain | Copy (k : nat) | Skip (k : nat).

(** The body of a quoted string.  Bytes outside well-formed UTF-8 are
    written as [\ufffd], the line and paragraph separators U+2028 and
    U+2029 as escapes. *)
Fixpoint quote_aux (m : quote_mode) (s : string) : string :=
  match s with
  | EmptyString => ""
  | String b s' =>
      match m with
      | Copy (S k) => String b (quote_aux (Copy k) s')
      | Skip (S k) => quote_aux (Skip k) s'
      | _ =>
          if (Utf8.byte b <? 128)%N then
            (if html_safe b then String b "" else escape_byte b)
            +:+ quote_aux Plain s'
          else if has_prefix (String "226" (String "128" (String "168" ""))) s
          then "\u2028" +:+ quote_aux (Skip 2) s'
          else if has_prefix (String "226" (String "128" (String "169" ""))) s
          then "\u2029" +:+ quote_aux (Skip 2) s'
          else match Utf8.rune_len s with
               | S n => String b (quote_aux (Copy n) s')
               | O => "\ufffd" +:+ quote_aux Plain s'
               end
      end
  end.

Definition quote (s : string) : string :=
  String dquote (quote_aux Plain s) +:+ String dquote "".

Fixpoint digits_of (fuel : nat) (n : N) (acc : string) : string :=
  match fuel with
  | O => acc
  | S fuel' =>
      let acc' := String (Utf8.chr (48 + n mod 10)) acc in
      if (n <? 10)%N then acc' else digits_of fuel' (n / 10) acc'
  end.

(** A [uint] in decimal. *)
Definition decimal (n : N) : string := digits_of (N.to_nat (N.size n) + 1) n "".

Definition newline : string := String "010" "".

Fixpoint indent (level : nat) : string :=
  match level with
  | O => ""
  | S l => "  " +:+ indent l
  end.

Fixpoint join_with (sep : string) (l : list string) : string :=
  match l with
  | [] => ""
  | [x] => x
  | x :: xs => x +:+ sep +:+ join_with sep xs
  end.

(** An object at nesting [level], from its members (quoted key, value
    text): one member per line, two spaces per level; an object without
    members is written as a pair of braces. *)
Definition object (level : nat) (members : list (string * string)) : string :=
  match members with
  | [] => "{}"
  | _ =>
      "{" +:+ newline +:+ indent (S level)
      +:+ join_with ("," +:+ newline +:+ indent (S level))
            ((λ kv, kv.1 +:+ ": " +:+ kv.2) <$> members)
      +:+ newline +:+ indent level +:+ "}"
  end.

Definition omitempty (key : string) (value : string) : list (string * string) :=
  if decide (value = "") then [] else [(quote key, quote value)].

(** The members of a [Repository], in the order of the struct's fields;
    all but [type] are left out when empty. *)
Definition repository_members (r : Repository) : list (string * string) :=
  [(quote "type", quote (r_Type r))]
  ++ omitempty "path" (r_Path r)
  ++ omitempty "host" (r_Host r)
  ++ (if decide (r_Port r = 0%N) then []
      else [(quote "port", decimal (r_Port r))])
  ++ omitempty "user" (r_User r)
  ++ omitempty "private_key" (r_PrivateKey r)
  ++ omitempty "password" (r_Password r).

(** The order in which the keys of a map are written: by their bytes. *)
Definition key_le (a b : string * Repository) : Prop :=
  String.leb a.1 b.1 = true.

#[export] Instance key_le_dec a b : Decision (key_le a b).
Proof. unfold key_le. apply _. Defined.

Definition sorted_entries (g : gmap string Repository)
  : list (string * Repository) :=
  merge_sort key_le (map_to_list g).

Definition marshal_repositories (level : nat)
  (m : option (gmap string Repository)) : string :=
  match m with
  | None => "null"
  | Some g =>
      object level
        ((λ kr, (quote kr.1, object (S level) (repository_members kr.2)))
           <$> sorted_entries g)
  end.

Definition marshal_config (c : Config) : string :=
  object 0 [(quote "current", quote (c_Current c));
            (quote "repositories", marshal_repositories 1 (c_Repositories c))].

(** [json.MarshalIndent(config, "", "  ")]; a [*Config] has no value the
    encoder refuses, so the error is always nil. *)
Definition MarshalIndent (config : Config) : result string :=
  Ok (marshal_config config).

End JSON.


(** ** The world outside the program

    What the program asks of the operating system and of the SSH and SFTP
    libraries.  [Local] is the state of the machine the program runs on
    (its file system and working directory), [Net] that of the network
    and of the hosts behind it.  A call that only inspects the local
    machine is a function of [Local]; the others return the new state. *)
Class Sys := {
  Local : Type;
  Net : Type;
  File : Type;           (* *os.File *)
  Auth : Type;           (* goph.Auth *)
  Client : Type;         (* *goph.Client *)
  SftpClient : Type;     (* *sftp.Client *)
  RemoteFile : Type;     (* *sftp.File *)
  (* the local machine *)
  sys_Stat : string → Local → result FileInfo;
  sys_ReadDir : string → Local → result (list FileInfo);
  sys_Getwd : Local → result string;
  sys_Open : string → Local → result File;
  sys_ReadAll : File → Local → result string;
  sys_Key : string → string → Local → result Auth;
  sys_MkdirAll : string → FileMode → Local → option error * Local;
  sys_Create : string → Local → result File * Local;
  sys_Copy : File → File → Local → option error * Local;
  sys_WriteFile : string → string → FileMode → Local → option error * Local;
  (* SSH and SFTP *)
  sys_Password : string → Auth;
  sys_NewConn : string → string → N → Auth → Net → result Client * Net;
  sys_NewSftp : Client → Net → result SftpClient * Net;
  sys_SftpReadDir : SftpClient → string → Net → result (list FileInfo) * Net;
  sys_SftpStat : SftpClient → string → Net → result FileInfo * Net;
  sys_SftpLstat : SftpClient → string → Net → result FileInfo * Net;
  sys_SftpOpen : SftpClient → string → Net → result RemoteFile * Net;
  sys_Download : File → RemoteFile → Local → Net → option error * Local * Net;
  sys_Upload : Client → string → string → Local → Net → option error * Net
}.

(** The calls, as they are recorded in the trace of a run. *)
Inductive Call :=
| CallStat (name : string)
| CallReadDir (dirname : string)
| CallGetwd
| CallOpen (name : string)
| CallReadAll
| CallKey (prvFile : string)
| CallMkdirAll (path : string)
| CallCreate (name : string)
| CallCopy
| CallWriteFile (filename : string)
| CallNewConn
| CallNewSftp
| CallSftpReadDir (p : string)
| CallSftpStat (p : string)
| CallSftpLstat (p : string)
| CallSftpOpen (p : string)
| CallDownload
| CallUpload (localPath remotePath : string)
| CallClose.

(** A call that was made and the error it returned, if any. *)
Record Event := mkEvent { ev_call : Call; ev_err : option error }.

Definition failed (ev : Event) : Prop := is_Some (ev_err ev).

(** How a computation ends: with a value, by [os.Exit], by a run-time
    panic, or not within the bound on the depth of its recursion. *)
Inductive Res (A : Type) : Type :=
| Ret (a : A)
| Exit (code : Z)
| Panic (msg : string)
| Diverge.
Arguments Ret {A} a.
Arguments Exit {A} code.
Arguments Panic {A} msg.
Arguments Diverge {A}.

Section Program.
Context `{Sys}.

(** The state a run threads through: the two halves of the world, the
    calls made so far and the text written to standard output, both
    oldest first. *)
Record State := mkState {
  st_local : Local;
  st_net : Net;
  st_trace : list Event;
  st_out : list string
}.

Definition M (A : Type) : Type := State → Res A * State.

Definition ret {A} (a : A) : M A := λ s, (Ret a, s).

Definition bind {A B} (m : M A) (k : A → M B) : M B :=
  λ s, match m s with
       | (Ret a, s') => k a s'
       | (Exit c, s') => (Exit c, s')
       | (Panic msg, s') => (Panic msg, s')
       | (Diverge, s') => (Diverge, s')
       end.

(** [os.Exit(code)]. *)
Definition os_Exit {A} (code : Z) : M A := λ s, (Exit code, s).

Definition panic {A} (msg : string) : M A := λ s, (Panic msg, s).

Definition diverge {A} : M A := λ s, (Diverge, s).

Definition log (c : Call) (e : option error) (s : State) : State :=
  mkState (st_local s) (st_net s) (st_trace s ++ [mkEvent c e]) (st_out s).

Definition with_local (s : State) (l : Local) : State :=
  mkState l (st_net s) (st_trace s) (st_out s).

Definition with_net (s : State) (n : Net) : State :=
  mkState (st_local s) n (st_trace s) (st_out s).

Definition local_query {A} (c : Call) (f : Local → result A) : M (result A) :=
  λ s, let r := f (st_local s) in (Ret r, log c (result_err r) s).

Definition local_call {A} (c : Call) (f : Local → result A * Local)
  : M (result A) :=
  λ s, let '(r, l) := f (st_local s) in
       (Ret r, log c (result_err r) (with_local s l)).

Definition local_effect (c : Call) (f : Local → option error * Local)
  : M (option error) :=
  λ s, let '(e, l) := f (st_local s) in (Ret e, log c e (with_local s l)).

Definition net_call {A} (c : Call) (f : Net → result A * Net) : M (result A) :=
  λ s, let '(r, n) := f (st_net s) in
       (Ret r, log c (result_err r) (with_net s n)).

(** A [Close], whose error the program never looks at. *)
Definition Close : M unit := λ s, (Ret tt, log CallClose None s).

(** [fmt.Print] of a finished text. *)
Definition Print (text : string) : M unit :=
  λ s, (Ret tt, mkState (st_local s) (st_net s) (st_trace s) (st_out s ++ [text])).

End Program.

Notation "x <- m ;; k" := (bind m (λ x, k))
  (at level 90, m at level 60, right associativity,
   format "x  <-  m ;;  '/' k").
Notation "m ;;; k" := (bind m (λ _, k))
  (at level 90, right associativity, format "m ;;;  '/' k").

(** ** The program *)
Section Functions.
Context `{Sys}.

(** *** Library calls, recorded *)

Definition os_Stat (name : string) : M (result FileInfo) :=
  local_query (CallStat name) (sys_Stat name).

Definition ioutil_ReadDir (dirname : string) : M (result (list FileInfo)) :=
  local_query (CallReadDir dirname) (sys_ReadDir dirname).

Definition os_Getwd : M (result string) := local_query CallGetwd sys_Getwd.

Definition os_Open (name : string) : M (result File) :=
  local_query (CallOpen name) (sys_Open name).

Definition ioutil_ReadAll (f : File) : M (result string) :=
  local_query CallReadAll (sys_ReadAll f).

Definition goph_Key (prvFile passphrase : string) : M (result Auth) :=
  local_query (CallKey prvFile) (sys_Key prvFile passphrase).

Definition os_MkdirAll (path : string) (perm : FileMode) : M (option error) :=
  local_effect (CallMkdirAll path) (sys_MkdirAll path perm).

Definition os_Create (name : string) : M (result File) :=
  local_call (CallCreate name) (sys_Create name).

(** [io.Copy(dst, src)] between two local files. *)
Definition io_Copy (dst src : File) : M (option error) :=
  local_effect CallCopy (sys_Copy dst src).

Definition ioutil_WriteFile (filename data : string) (perm : FileMode)
  : M (option error) :=
  local_effect (CallWriteFile filename) (sys_WriteFile filename data perm).

Definition goph_NewConn (user addr : string) (port : N) (auth : Auth)
  : M (result Client) :=
  net_call CallNewConn (sys_NewConn user addr port auth).

Definition client_NewSftp (client : Client) : M (result SftpClient) :=
  net_call CallNewSftp (sys_NewSftp client).

Definition sftp_ReadDir (sftp : SftpClient) (p : string)
  : M (result (list FileInfo)) :=
  net_call (CallSftpReadDir p) (sys_SftpReadDir sftp p).

Definition sftp_Stat (sftp : SftpClient) (p : string) : M (result FileInfo) :=
  net_call (CallSftpStat p) (sys_SftpStat sftp p).

Definition sftp_Lstat (sftp : SftpClient) (p : string) : M (result FileInfo) :=
  net_call (CallSftpLstat p) (sys_SftpLstat sftp p).

Definition sftp_Open (sftp : SftpClient) (p : string) : M (result RemoteFile) :=
  net_call (CallSftpOpen p) (sys_SftpOpen sftp p).

(** [io.Copy(localFile, remoteFile)]. *)
Definition io_Copy_remote (dst : File) (src : RemoteFile) : M (option error) :=
  λ s, let '(e, l, n) := sys_Download dst src (st_local s) (st_net s) in
       (Ret e, log CallDownload e (with_net (with_local s l) n)).

Definition client_Upload (client : Client) (localPath remotePath : string)
  : M (option error) :=
  λ s, let '(e, n) := sys_Upload client localPath remotePath
                        (st_local s) (st_net s) in
       (Ret e, log (CallUpload localPath remotePath) e (with_net s n)).

(** [filepath.Abs]. *)
Definition filepath_Abs (p : string) : M (result string) :=
  if Path.IsAbs p then ret (Ok (Path.Clean p))
  else
    r <- os_Getwd;;
    match r with
    | Err e => ret (Err e)
    | Ok wd => ret (Ok (Path.Join wd p))
    end.

(** [fmt.Println(a)] and [fmt.Println(a, b)]. *)
Definition Println (a : string) : M unit := Print (a +:+ JSON.newline).

Definition Println2 (a b : string) : M unit :=
  Print (a +:+ " " +:+ b +:+ JSON.newline).

Fixpoint for_each {A} (l : list A) (body : A → M unit) : M unit :=
  match l with
  | [] => ret tt
  | x :: rest => body x;;; for_each rest body
  end.

(** *** Configuration *)

Definition configPath : string := "config/config.json".

Definition loadConfig : M (result Config) :=
  r <- os_Open configPath;;
  match r with
  | Err e => ret (Err e)
  | Ok configFile =>
      r <- ioutil_ReadAll configFile;;
      match r with
      | Err e => Close;;; ret (Err e)
      | Ok byteValue =>
          (* the error of Unmarshal is dropped *)
          let config := (JSON.Unmarshal byteValue zeroConfig).1 in
          Close;;; ret (Ok config)
      end
  end.

Definition saveConfig (config : Config) : M (option error) :=
  match JSON.MarshalIndent config with
  | Err e => ret (Some e)
  | Ok byteValue =>
      err <- ioutil_WriteFile configPath byteValue 420%N;;   (* 0644 *)
      match err with
      | Some e => ret (Some e)
      | None => ret None
      end
  end.

(** The order in which a map is ranged over is not specified; the order
    of [map_to_list] stands for it. *)
Definition listRepositories (config : Config) : M unit :=
  Println "Available repositories:";;;
  for_each (map_to_list (default ∅ (c_Repositories config)))
    (λ '(name, repo),
       if decide (name = c_Current config) then
         Print (" * " +:+ name +:+ " (" +:+ r_Type repo +:+ ", "
                +:+ r_Path repo +:+ ")" +:+ JSON.newline)
       else
         Print ("   " +:+ name +:+ " (" +:+ r_Type repo +:+ ", "
                +:+ r_Path repo +:+ ")" +:+ JSON.newline)).

(** The functions that change the configuration return it as it stands
    when they return. *)
Definition setRepository (config : Config) (name : string) : M Config :=
  (if (map_index (c_Repositories config) name).2 then ret tt
   else
     Print ("Repository '" +:+ name +:+ "' not found." +:+ JSON.newline);;;
     os_Exit 1);;;
  let config := set_Current config name in
  err <- saveConfig config;;
  match err with
  | Some e => Println2 "Error saving configuration:" e;;; os_Exit 1
  | None =>
      Print ("Current repository set to '" +:+ name +:+ "'." +:+ JSON.newline);;;
      ret config
  end.

Definition printUsage : M unit :=
  Println "Usage: 0s <command>";;;
  Println "Commands:";;;
  Println "  list       - List all available repositories";;;
  Println "  set <repo> - Set the current repository";;;
  Println "  show       - Show files in the current repository";;;
  Println "  cd <dir>   - Change the current directory for the repository";;;
  Println "  get <name> - Get a file or folder from the current repository";;;
  Println "  put <name> - Put a file or folder in the current repository".

Definition getSSHClient (repo : Repository) : M (result Client) :=
  r <- (if decide (r_Password repo ≠ "") then
          ret (Ok (sys_Password (r_Password repo)))
        else goph_Key (r_PrivateKey repo) "");;
  match r with
  | Err e => ret (Err e)
  | Ok auth =>
      r <- goph_NewConn (r_User repo) (r_Host repo) (r_Port repo) auth;;
      match r with
      | Err e => ret (Err e)
      | Ok client => ret (Ok client)
      end
  end.

Definition print_entry (file : FileInfo) : M unit :=
  if fi_IsDir file then Print (fi_Name file +:+ "/" +:+ JSON.newline)
  else Println (fi_Name file).

Definition is_local (ty : string) : bool :=
  bool_decide (ty = "local" ∨ ty = "network").

Definition showRepository (config : Config) : M unit :=
  let repo := (map_index (c_Repositories config) (c_Current config)).1 in
  if is_local (r_Type repo) then
    r <- ioutil_ReadDir (r_Path repo);;
    match r with
    | Err e => Println2 "Error reading repository:" e;;; os_Exit 1
    | Ok files => for_each files print_entry
    end
  else if decide (r_Type repo = "ssh") then
    r <- getSSHClient repo;;
    match r with
    | Err e => Println2 "Error connecting to SSH server:" e;;; os_Exit 1
    | Ok client =>
        r <- client_NewSftp client;;
        match r with
        | Err e => Println2 "Error creating SFTP client:" e;;; os_Exit 1
        | Ok sftp =>
            r <- sftp_ReadDir sftp (r_Path repo);;
            match r with
            | Err e => Println2 "Error reading remote directory:" e;;; os_Exit 1
            | Ok files => for_each files print_entry;;; Close;;; Close
            end
        end
    end
  else
    Print ("Repository type '" +:+ r_Type repo +:+ "' not implemented yet."
           +:+ JSON.newline).

(** *** Local recursive copy *)

(** The loop over the entries of a directory; [copy] is the recursive
    call. *)
Fixpoint copy_entries (copy : string → string → M (option error))
  (src dest : string) (files : list FileInfo) : M (option error) :=
  match files with
  | [] => ret None
  | file :: rest =>
      let srcPath := Path.Join src (fi_Name file) in
      let destPath := Path.Join dest (fi_Name file) in
      err <- copy srcPath destPath;;
      match err with
      | Some e => ret (Some e)
      | None => copy_entries copy src dest rest
      end
  end.

(** [copy(src, dest)]; [fuel] bounds the depth of the recursion. *)
Fixpoint copy (fuel : nat) (src dest : string) : M (option error) :=
  match fuel with
  | O => diverge
  | S fuel' =>
      r <- os_Stat src;;
      match r with
      | Err e => ret (Some e)
      | Ok srcInfo =>
          if fi_IsDir srcInfo then
            err <- os_MkdirAll dest (fi_Mode srcInfo);;
            match err with
            | Some e => ret (Some e)
            | None =>
                r <- ioutil_ReadDir src;;
                match r with
                | Err e => ret (Some e)
                | Ok files => copy_entries (copy fuel') src dest files
                end
            end
          else
            r <- os_Open src;;
            match r with
            | Err e => ret (Some e)
            | Ok srcFile =>
                r <- os_Create dest;;
                match r with
                | Err e => Close;;; ret (Some e)
                | Ok destFile =>
                    err <- io_Copy destFile srcFile;;
                    match err with
                    | Some e => Close;;; Close;;; ret (Some e)
                    | None => Close;;; Close;;; ret None
                    end
                end
            end
      end
  end.

(** *** Download over SFTP *)

Definition downloadFile (sftp : SftpClient) (remotePath localPath : string)
  : M (option error) :=
  r <- sftp_Open sftp remotePath;;
  match r with
  | Err e => ret (Some ("could not open remote file: " +:+ e))
  | Ok remoteFile =>
      r <- os_Create localPath;;
      match r with
      | Err e => Close;;; ret (Some ("could not create local file: " +:+ e))
      | Ok localFile =>
          err <- io_Copy_remote localFile remoteFile;;
          match err with
          | Some e =>
              Close;;; Close;;;
              ret (Some ("could not copy file contents: " +:+ e))
          | None =>
              Print ("Downloaded file '" +:+ remotePath +:+ "'" +:+ JSON.newline);;;
              Close;;; Close;;; ret None
          end
      end
  end.

(** The walker of [sftp.Walk] (package kr/fs): the entry it stands on,
    the entries still to visit (next one first) and whether the entry it
    stands on is to be descended into. *)
Record item := mkItem {
  it_path : string;
  it_info : option FileInfo;
  it_err : option error
}.

Record Walker := mkWalker {
  w_cur : item;
  w_stack : list item;
  w_descend : bool
}.

(** [sftp.Walk(root)]. *)
Definition sftp_Walk (sftp : SftpClient) (root : string) : M Walker :=
  r <- sftp_Lstat sftp root;;
  let first :=
    match r with
    | Ok info => mkItem root (Some info) None
    | Err e => mkItem root None (Some e)
    end in
  ret (mkWalker (mkItem "" None None) [first] false).

Definition nil_dereference : string :=
  "runtime error: invalid memory address or nil pointer dereference".

(** [walker.Step()]: the walker after the step and whether there is an
    entry to look at. *)
Definition walker_Step (sftp : SftpClient) (w : Walker) : M (bool * Walker) :=
  let cur := w_cur w in
  w1 <- (if w_descend w && bool_decide (it_err cur = None) then
           match it_info cur with
           | None => panic nil_dereference
           | Some info =>
               if fi_IsDir info then
                 r <- sftp_ReadDir sftp (it_path cur);;
                 match r with
                 | Err e =>
                     let cur' := mkItem (it_path cur) (it_info cur) (Some e) in
                     ret (mkWalker cur' (cur' :: w_stack w) (w_descend w))
                 | Ok list =>
                     let children :=
                       (λ fi, mkItem (Path.Join (it_path cur) (fi_Name fi))
                                     (Some fi) None) <$> list in
                     ret (mkWalker cur (children ++ w_stack w) (w_descend w))
                 end
               else ret w
           end
         else ret w);;
  match w_stack w1 with
  | [] => ret (false, w1)
  | top :: rest => ret (true, mkWalker top rest true)
  end.

(** The loop of [downloadDirectory]; [fuel] bounds the number of steps
    of the walker. *)
Fixpoint download_walk (fuel : nat) (sftp : SftpClient)
  (remotePath localPath : string) (walker : Walker) : M (option error) :=
  match fuel with
  | O => diverge
  | S fuel' =>
      step <- walker_Step sftp walker;;
      let walker := step.2 in
      if negb step.1 then ret None
      else
        match it_err (w_cur walker) with
        | Some e => ret (Some ("error walking remote directory: " +:+ e))
        | None =>
            match slice_from (String.length remotePath)
                             (it_path (w_cur walker)) with
            | None => panic "runtime error: slice bounds out of range"
            | Some relPath =>
                if decide (relPath = "") then
                  download_walk fuel' sftp remotePath localPath walker
                else
                  let localItemPath := Path.Join localPath relPath in
                  let remoteItemPath := it_path (w_cur walker) in
                  match it_info (w_cur walker) with
                  | None => panic nil_dereference
                  | Some info =>
                      if fi_IsDir info then
                        err <- os_MkdirAll localItemPath ModePerm;;
                        match err with
                        | Some e =>
                            ret (Some ("could not create local subdirectory: "
                                       +:+ e))
                        | None =>
                            Print ("Created directory '" +:+ localItemPath
                                   +:+ "'" +:+ JSON.newline);;;
                            download_walk fuel' sftp remotePath localPath walker
                        end
                      else
                        err <- downloadFile sftp remoteItemPath localItemPath;;
                        match err with
                        | Some e => ret (Some e)
                        | None =>
                            download_walk fuel' sftp remotePath localPath walker
                        end
                  end
            end
        end
  end.

Definition downloadDirectory (fuel : nat) (sftp : SftpClient)
  (remotePath localPath : string) : M (option error) :=
  err <- os_MkdirAll localPath ModePerm;;
  match err with
  | Some e => ret (Some ("could not create local directory: " +:+ e))
  | None =>
      Print ("Created directory '" +:+ localPath +:+ "'" +:+ JSON.newline);;;
      walker <- sftp_Walk sftp remotePath;;
      download_walk fuel sftp remotePath localPath walker
  end.

(** *** The commands *)

Definition getRepository (fuel : nat) (config : Config) (name : string)
  : M unit :=
  let repo := (map_index (c_Repositories config) (c_Current config)).1 in
  if is_local (r_Type repo) then
    let srcPath := Path.Join (r_Path repo) name in
    r <- os_Getwd;;
    match r with
    | Err e => Println2 "Error getting current directory:" e;;; os_Exit 1
    | Ok destPath =>
        let destPath := Path.Join destPath name in
        err <- copy fuel srcPath destPath;;
        match err with
        | Some e => Println2 "Error getting file or folder:" e;;; os_Exit 1
        | None => ret tt
        end
    end
  else if decide (r_Type repo = "ssh") then
    r <- getSSHClient repo;;
    match r with
    | Err e => Println2 "Error connecting to SSH server:" e;;; os_Exit 1
    | Ok client =>
        r <- client_NewSftp client;;
        match r with
        | Err e => Println2 "Error creating SFTP client:" e;;; os_Exit 1
        | Ok sftp =>
            let remotePath := Path.ToSlash (Path.Join (r_Path repo) name) in
            r <- os_Getwd;;
            match r with
            | Err e => Println2 "Error getting current directory:" e;;; os_Exit 1
            | Ok localPath =>
                let localPath := Path.Join localPath name in
                r <- sftp_Stat sftp remotePath;;
                match r with
                | Err e =>
                    Print ("Error getting remote file info: " +:+ e
                           +:+ JSON.newline);;;
                    os_Exit 1
                | Ok remoteStat =>
                    err <- (if fi_IsDir remoteStat then
                              downloadDirectory fuel sftp remotePath localPath
                            else downloadFile sftp remotePath localPath);;
                    match err with
                    | Some e =>
                        Print ("Error during 'get' operation: " +:+ e
                               +:+ JSON.newline);;;
                        os_Exit 1
                    | None => Close;;; Close
                    end
                end
            end
        end
    end
  else
    Print ("Repository type '" +:+ r_Type repo
           +:+ "' not implemented yet for 'get'." +:+ JSON.newline).

Definition putRepository (fuel : nat) (config : Config) (name : string)
  : M unit :=
  let repo := (map_index (c_Repositories config) (c_Current config)).1 in
  if is_local (r_Type repo) then
    r <- filepath_Abs name;;
    match r with
    | Err e => Println2 "Error getting absolute path:" e;;; os_Exit 1
    | Ok srcPath =>
        let destPath := Path.Join (r_Path repo) name in
        err <- copy fuel srcPath destPath;;
        match err with
        | Some e => Println2 "Error putting file or folder:" e;;; os_Exit 1
        | None => ret tt
        end
    end
  else if decide (r_Type repo = "ssh") then
    r <- getSSHClient repo;;
    match r with
    | Err e => Println2 "Error connecting to SSH server:" e;;; os_Exit 1
    | Ok client =>
        r <- filepath_Abs name;;
        match r with
        | Err e => Println2 "Error getting absolute path:" e;;; os_Exit 1
        | Ok localPath =>
            let remotePath := Path.ToSlash (Path.Join (r_Path repo) name) in
            err <- client_Upload client localPath remotePath;;
            match err with
            | Some e => Println2 "Error uploading file:" e;;; os_Exit 1
            | None => Close
            end
        end
    end
  else
    Print ("Repository type '" +:+ r_Type repo
           +:+ "' not implemented yet for 'put'." +:+ JSON.newline).

(** The part of [changeDirectory] before the configuration is written:
    the repository with its new path, or [None] from the branch that
    returns at once. *)
Definition resolve_directory (repo : Repository) (newDir : string)
  : M (option Repository) :=
  if is_local (r_Type repo) then
    let newPath := Path.Join (r_Path repo) newDir in
    r <- os_Stat newPath;;
    match r with
    | Err e =>
        Print ("Error accessing path '" +:+ newPath +:+ "': " +:+ e
               +:+ JSON.newline);;;
        os_Exit 1
    | Ok info =>
        if negb (fi_IsDir info) then
          Print ("Error: '" +:+ newPath +:+ "' is not a directory."
                 +:+ JSON.newline);;;
          os_Exit 1
        else ret (Some (set_Path repo newPath))
    end
  else if decide (r_Type repo = "ssh") then
    let repo := if decide (r_Path repo = "") then set_Path repo "." else repo in
    r <- getSSHClient repo;;
    match r with
    | Err e => Println2 "Error connecting to SSH server:" e;;; os_Exit 1
    | Ok client =>
        r <- client_NewSftp client;;
        match r with
        | Err e => Println2 "Error creating SFTP client:" e;;; os_Exit 1
        | Ok sftp =>
            let newPath := Path.ToSlash (Path.Join (r_Path repo) newDir) in
            r <- sftp_Stat sftp newPath;;
            match r with
            | Err e =>
                Print ("Error accessing remote path '" +:+ newPath +:+ "': "
                       +:+ e +:+ JSON.newline);;;
                os_Exit 1
            | Ok info =>
                if negb (fi_IsDir info) then
                  Print ("Error: remote path '" +:+ newPath
                         +:+ "' is not a directory." +:+ JSON.newline);;;
                  os_Exit 1
                else ret (Some (set_Path repo newPath))
            end
        end
    end
  else
    Print ("Repository type '" +:+ r_Type repo
           +:+ "' not implemented yet for 'cd'." +:+ JSON.newline);;;
    ret None.

Definition changeDirectory (config : Config) (newDir : string) : M Config :=
  let repo := (map_index (c_Repositories config) (c_Current config)).1 in
  r <- resolve_directory repo newDir;;
  match r with
  | None => ret config
  | Some repo =>
      let config :=
        set_Repositories config
          (map_assign (c_Repositories config) (c_Current config) repo) in
      err <- saveConfig config;;
      match err with
      | Some e => Println2 "Error saving configuration:" e;;; os_Exit 1
      | None =>
          Print ("Changed directory to '" +:+ r_Path repo +:+ "'"
                 +:+ JSON.newline);;;
          (* the deferred Close calls of the ssh branch run on return *)
          (if decide (r_Type repo = "ssh") then Close;;; Close else ret tt);;;
          ret config
      end
  end.

(** [main], for the arguments [os.Args[1:]]. *)
Definition main (fuel : nat) (args : list string) : M unit :=
  r <- loadConfig;;
  match r with
  | Err e => Println2 "Error loading configuration:" e;;; os_Exit 1
  | Ok config =>
      match args with
      | [] => printUsage;;; os_Exit 1
      | command :: rest =>
          if decide (command = "list") then listRepositories config
          else if decide (command = "set") then
            match rest with
            | [] => Println "Please specify a repository to set.";;; os_Exit 1
            | name :: _ => setRepository config name;;; ret tt
            end
          else if decide (command = "show") then showRepository config
          else if decide (command = "get") then
            match rest with
            | [] => Println "Please specify a file or folder to get.";;; os_Exit 1
            | name :: _ => getRepository fuel config name
            end
          else if decide (command = "put") then
            match rest with
            | [] => Println "Please specify a file or folder to put.";;; os_Exit 1
            | name :: _ => putRepository fuel config name
            end
          else if decide (command = "cd") then
            match rest with
            | [] => Println "Please specify a directory to change to.";;; os_Exit 1
            | newDir :: _ => changeDirectory config newDir;;; ret tt
            end
          else printUsage
      end
  end.

(** The exit status of the process: 0 when [main] returns, the argument
    of [os.Exit], 2 after a panic. *)
Definition exit_status {A} (r : Res A) : option Z :=
  match r with
  | Ret _ => Some 0%Z
  | Exit code => Some code
  | Panic _ => Some 2%Z
  | Diverge => None
  end.

End Functions.

(** ** A Unix machine and an SSH server

    A concrete [Sys]: a file system is a finite map from absolute paths
    (lists of names, the root being the empty list) to directories and
    regular files.  There are no symbolic links, and no call fails for
    lack of permission or space: a call fails only for the shape of the
    tree (a missing entry, a file where a directory is needed or the
    other way round). *)
Module Unix.

Inductive node :=
| Dir
| Reg (data : string).

#[export] Instance node_eq_dec : EqDecision node.
Proof. solve_decision. Defined.

Abbreviation tree := (gmap (list string) node).

Definition is_dir (t : tree) (p : list string) : bool :=
  match t !! p with
  | Some Dir => true
  | _ => false
  end.

(** The directory above; the root is its own parent. *)
Definition parent (p : list string) : list string := removelast p.

Definition step (cur : list string) (e : string) : list string :=
  if decide (e = "" ∨ e = ".") then cur
  else if decide (e = "..") then parent cur
  else cur ++ [e].

(** Path resolution from [cur]: every element is looked up in a
    directory, so what has been reached must be one before the next
    element is taken. *)
Fixpoint walk (t : tree) (cur : list string) (elems : list string)
  : option (list string) :=
  match elems with
  | [] => Some cur
  | e :: rest => if is_dir t cur then walk t (step cur e) rest else None
  end.

Record fs := mkFs {
  files : tree;
  cwd : list string
}.

Definition start (f : fs) (p : string) : list string :=
  if Path.IsAbs p then [] else cwd f.

(** Where a path leads, whether or not there is an entry there. *)
Definition resolve (f : fs) (p : string) : option (list string) :=
  if decide (p = "") then None else walk (files f) (start f p) (Path.split p).

Definition ENOENT : error := "no such file or directory".
Definition ENOTDIR : error := "not a directory".
Definition EISDIR : error := "is a directory".

Definition ModeDir : FileMode := (2 ^ 31)%N.

Definition info_of (name : string) (n : node) : FileInfo :=
  match n with
  | Dir => mkFileInfo name true (ModeDir + 493)%N   (* drwxr-xr-x *)
  | Reg _ => mkFileInfo name false 420%N            (* -rw-r--r-- *)
  end.

Definition Stat (p : string) (f : fs) : result FileInfo :=
  match resolve f p ≫= (λ q, files f !! q) with
  | Some n => Ok (info_of (Path.Base p) n)
  | None => Err ENOENT
  end.

(** The name under which [k] is an entry of the directory [q]. *)
Fixpoint child_of (q k : list string) : option string :=
  match q, k with
  | [], [n] => Some n
  | a :: q', b :: k' => if decide (a = b) then child_of q' k' else None
  | _, _ => None
  end.

Definition name_le (a b : string * node) : Prop := String.leb a.1 b.1 = true.

#[export] Instance name_le_dec a b : Decision (name_le a b).
Proof. unfold name_le. apply _. Defined.

(** The entries of the directory [q], sorted by name. *)
Definition entries (t : tree) (q : list string) : list (string * node) :=
  merge_sort name_le
    (omap (λ kn, (λ n, (n, kn.2)) <$> child_of q kn.1) (map_to_list t)).

Definition ReadDir (p : string) (f : fs) : result (list FileInfo) :=
  match resolve f p with
  | Some q =>
      match files f !! q with
      | Some Dir => Ok ((λ e, info_of e.1 e.2) <$> entries (files f) q)
      | Some (Reg _) => Err ENOTDIR
      | None => Err ENOENT
      end
  | None => Err ENOENT
  end.

Definition Getwd (f : fs) : result string := Ok ("/" +:+ Path.join (cwd f)).

(** An open file is known by the place of its entry. *)
Definition Open (p : string) (f : fs) : result (list string) :=
  match resolve f p with
  | Some q =>
      match files f !! q with
      | Some _ => Ok q
      | None => Err ENOENT
      end
  | None => Err ENOENT
  end.

Definition ReadAll (h : list string) (f : fs) : result string :=
  match files f !! h with
  | Some (Reg data) => Ok data
  | Some Dir => Err EISDIR
  | None => Err ENOENT
  end.

(** [os.MkdirAll]: the directories on the way that are missing are made,
    one after the other; those made stay when a later one cannot be. *)
Fixpoint mkdir_walk (t : tree) (cur : list string) (elems : list string)
  : option error * tree :=
  match elems with
  | [] => (None, t)
  | e :: rest =>
      if negb (is_dir t cur) then (Some ENOTDIR, t)
      else if decide (e = "" ∨ e = "." ∨ e = "..") then
        mkdir_walk t (step cur e) rest
      else
        match t !! (cur ++ [e]) with
        | None => mkdir_walk (<[cur ++ [e] := Dir]> t) (cur ++ [e]) rest
        | Some Dir => mkdir_walk t (cur ++ [e]) rest
        | Some (Reg _) => (Some ENOTDIR, t)
        end
  end.

Definition MkdirAll (p : string) (perm : FileMode) (f : fs)
  : option error * fs :=
  if decide (p = "") then (Some ENOENT, f)
  else
    let '(e, t) := mkdir_walk (files f) (start f p) (Path.split p) in
    (e, mkFs t (cwd f)).

(** The text of a file after [data] is written at its start. *)
Definition overwrite (old data : string) : string :=
  data +:+ String.substring (String.length data)
             (String.length old - String.length data) old.

(** [os.Create]: the file is made, or emptied if it is there. *)
Definition Create (p : string) (f : fs) : result (list string) * fs :=
  match resolve f p with
  | Some q =>
      match files f !! q with
      | Some Dir => (Err EISDIR, f)
      | _ => (Ok q, mkFs (<[q := Reg ""]> (files f)) (cwd f))
      end
  | None => (Err ENOENT, f)
  end.

Definition write_at (q : list string) (data : string) (t : tree)
  : option error * tree :=
  match t !! q with
  | Some (Reg old) => (None, <[q := Reg (overwrite old data)]> t)
  | Some Dir => (Some EISDIR, t)
  | None => (Some ENOENT, t)
  end.

(** [io.Copy(dst, src)]: all of [src] is written to [dst]. *)
Definition Copy (dst src : list string) (f : fs) : option error * fs :=
  match ReadAll src f with
  | Ok data =>
      let '(e, t) := write_at dst data (files f) in (e, mkFs t (cwd f))
  | Err e => (Some e, f)
  end.

Definition WriteFile (p data : string) (perm : FileMode) (f : fs)
  : option error * fs :=
  match Create p f with
  | (Ok q, f') =>
      let '(e, t) := write_at q data (files f') in (e, mkFs t (cwd f'))
  | (Err e, f') => (Some e, f')
  end.

(** *** The SSH server *)

Inductive auth :=
| AuthPassword (pass : string)
| AuthKey (key : string).

(** A host that runs an SSH server with one account: whom it admits and
    the files it serves; relative paths start at [cwd] of [sv_fs], the
    home directory. *)
Record server := mkServer {
  sv_host : string;
  sv_port : N;
  sv_user : string;
  sv_password : string;
  sv_key : string;
  sv_fs : fs
}.

Definition net := list server.

(** [goph.Key(prvFile, passphrase)]: the key is read from the file. *)
Definition Key (prvFile passphrase : string) (f : fs) : result auth :=
  match Open prvFile f with
  | Ok h =>
      match ReadAll h f with
      | Ok key => Ok (AuthKey key)
      | Err e => Err e
      end
  | Err e => Err e
  end.

Definition admits (sv : server) (user : string) (a : auth) : bool :=
  bool_decide (user = sv_user sv)
  && match a with
     | AuthPassword p => bool_decide (p = sv_password sv)
     | AuthKey k => bool_decide (k = sv_key sv)
     end.

(** A client is known by the position of its server. *)
Definition NewConn (user addr : string) (port : N) (a : auth) (n : net)
  : result nat * net :=
  match list_find (λ sv, sv_host sv = addr ∧ sv_port sv = port) n with
  | Some (i, sv) =>
      if admits sv user a then (Ok i, n)
      else (Err "ssh: handshake failed: unable to authenticate", n)
  | None => (Err "dial tcp: connection refused", n)
  end.

Definition on_server {A} (i : nat) (q : fs → result A) (n : net)
  : result A * net :=
  match n !! i with
  | Some sv => (q (sv_fs sv), n)
  | None => (Err "connection lost", n)
  end.

Definition NewSftp (i : nat) (n : net) : result nat * net :=
  on_server i (λ _, Ok i) n.

Definition SftpOpen (i : nat) (p : string) (n : net)
  : result (nat * list string) * net :=
  on_server i (λ f, match Open p f with
                    | Ok h => Ok (i, h)
                    | Err e => Err e
                    end) n.

(** [io.Copy(localFile, remoteFile)]. *)
Definition Download (dst : list string) (src : nat * list string)
  (f : fs) (n : net) : option error * fs * net :=
  match n !! src.1 with
  | Some sv =>
      match ReadAll src.2 (sv_fs sv) with
      | Ok data =>
          let '(e, t) := write_at dst data (files f) in (e, mkFs t (cwd f), n)
      | Err e => (Some e, f, n)
      end
  | None => (Some "connection lost", f, n)
  end.

(** [client.Upload]: the local file is opened, the remote one created,
    and the bytes are copied. *)
Definition Upload (i : nat) (localPath remotePath : string) (f : fs) (n : net)
  : option error * net :=
  match Open localPath f with
  | Err e => (Some e, n)
  | Ok h =>
      match n !! i with
      | None => (Some "connection lost", n)
      | Some sv =>
          match Create remotePath (sv_fs sv) with
          | (Err e, _) => (Some e, n)
          | (Ok q, rf) =>
              let put (g : fs) := <[i := mkServer (sv_host sv) (sv_port sv)
                                          (sv_user sv) (sv_password sv)
                                          (sv_key sv) g]> n in
              match ReadAll h f with
              | Err e => (Some e, put rf)
              | Ok data =>
                  let '(e, t) := write_at q data (files rf) in
                  (e, put (mkFs t (cwd rf)))
              end
          end
      end
  end.

#[export] Instance unix : Sys := {|
  Local := fs;
  Net := net;
  File := list string;
  Auth := auth;
  Client := nat;
  SftpClient := nat;
  RemoteFile := nat * list string;
  sys_Stat := Stat;
  sys_ReadDir := ReadDir;
  sys_Getwd := Getwd;
  sys_Open := Open;
  sys_ReadAll := ReadAll;
  sys_Key := Key;
  sys_MkdirAll := MkdirAll;
  sys_Create := Create;
  sys_Copy := Copy;
  sys_WriteFile := WriteFile;
  sys_Password := AuthPassword;
  sys_NewConn := NewConn;
  sys_NewSftp := NewSftp;
  sys_SftpReadDir := λ i p, on_server i (ReadDir p);
  sys_SftpStat := λ i p, on_server i (Stat p);
  sys_SftpLstat := λ i p, on_server i (Stat p);
  sys_SftpOpen := SftpOpen;
  sys_Download := Download;
  sys_Upload := Upload
|}.

(** The state in which a run starts. *)
Definition boot (f : fs) (n : net) : State := mkState f n [] [].

End Unix.

(** * Properties *)

(** ** Runs over any operating system *)
Section Commands.
Context `{Sys}.

(** The state after [text] has been written to standard output. *)
Definition printed (s : State) (text : string) : State :=
  mkState (st_local s) (st_net s) (st_trace s) (st_out s ++ [text]).

(** A trace in which no call failed. *)
Definition quiet (evs : list Event) : Prop :=
  Forall (λ ev, ev_err ev = None) evs.

(** A trace of [Close] calls. *)
Definition only_closes (evs : list Event) : Prop :=
  Forall (λ ev, ev = mkEvent CallClose None) evs.

(** The bytes [saveConfig] hands to [ioutil.WriteFile]. *)
Definition saved_bytes (config : Config) : string := JSON.marshal_config config.

(** The state after [saveConfig config] was run in [s]. *)
Definition saved (s : State) (config : Config) : State :=
  let w := sys_WriteFile configPath (saved_bytes config) 420%N (st_local s) in
  log (CallWriteFile configPath) w.1 (with_local s w.2).

Lemma saveConfig_run config s :
  saveConfig config s =
    (Ret (sys_WriteFile configPath (saved_bytes config) 420%N (st_local s)).1,
     saved s config).
Proof.
  unfold saveConfig, saved, saved_bytes, ioutil_WriteFile, local_effect, bind.
  simpl. destruct (sys_WriteFile _ _ _ _) as [[e|] l]; reflexivity.
Qed.

Lemma map_index_absent m k :
  (map_index m k).2 = false → (map_index m k).1 = zeroRepository.
Proof. unfold map_index. destruct (m ≫= _); simpl; congruence. Qed.

(** C9 (as amended): when [config.Current] is not a key of
    [config.Repositories], the look-up yields the zero [Repository],
    whose type is the empty string; [show], [get], [put] and [cd] then
    print their not-implemented message for that type and return (exit
    status 0) without a single call to the system: no file is touched. *)
Theorem unknown_current_is_not_implemented
  (config : Config) (fuel : nat) (name : string) (s : State) :
  (map_index (c_Repositories config) (c_Current config)).2 = false →
  showRepository config s
    = (Ret tt, printed s ("Repository type '' not implemented yet."
                          +:+ JSON.newline))
  ∧ getRepository fuel config name s
    = (Ret tt, printed s ("Repository type '' not implemented yet for 'get'."
                          +:+ JSON.newline))
  ∧ putRepository fuel config name s
    = (Ret tt, printed s ("Repository type '' not implemented yet for 'put'."
                          +:+ JSON.newline))
  ∧ changeDirectory config name s
    = (Ret config, printed s ("Repository type '' not implemented yet for 'cd'."
                              +:+ JSON.newline)).
Proof.
  intros Habsent. apply map_index_absent in Habsent.
  unfold showRepository, getRepository, putRepository, changeDirectory,
    resolve_directory.
  rewrite Habsent. repeat split; reflexivity.
Qed.

(** The two ways [setRepository] runs. *)
Lemma setRepository_run (config : Config) (name : string) (s : State) :
  setRepository config name s =
    match c_Repositories config ≫= (λ g, g !! name) with
    | Some _ =>
        let config' := set_Current config name in
        match (sys_WriteFile configPath (saved_bytes config') 420%N
                 (st_local s)).1 with
        | None =>
            (Ret config',
             printed (saved s config')
               ("Current repository set to '" +:+ name +:+ "'."
                +:+ JSON.newline))
        | Some e =>
            (Exit 1,
             printed (saved s config')
               ("Error saving configuration: " +:+ e +:+ JSON.newline))
        end
    | None =>
        (Exit 1, printed s ("Repository '" +:+ name +:+ "' not found."
                            +:+ JSON.newline))
    end.
Proof.
  unfold setRepository, map_index.
  destruct (c_Repositories config ≫= _) as [r|]; [|reflexivity]. simpl.
  unfold bind at 1. simpl. unfold bind at 1. rewrite saveConfig_run.
  destruct (sys_WriteFile _ _ _ _) as [[e|] l]; reflexivity.
Qed.

(** C5: [set N] for a name [N] that is a key of [config.Repositories]
    makes [N] current and hands the configuration, so changed, to
    [ioutil.WriteFile] (the command fails with status 1 only if that
    write fails); for a name that is not a key, nothing is written, no
    call is made at all, and the process exits with status 1. *)
Theorem set_selects_or_refuses (config : Config) (name : string) (s : State) :
  (is_Some (c_Repositories config ≫= (λ g, g !! name)) →
     let config' := set_Current config name in
     c_Current config' = name
     ∧ setRepository config name s =
         match (sys_WriteFile configPath (saved_bytes config') 420%N
                  (st_local s)).1 with
         | None =>
             (Ret config',
              printed (saved s config')
                ("Current repository set to '" +:+ name +:+ "'."
                 +:+ JSON.newline))
         | Some e =>
             (Exit 1,
              printed (saved s config')
                ("Error saving configuration: " +:+ e +:+ JSON.newline))
         end)
  ∧ (c_Repositories config ≫= (λ g, g !! name) = None →
     setRepository config name s =
       (Exit 1, printed s ("Repository '" +:+ name +:+ "' not found."
                           +:+ JSON.newline))).
Proof.
  rewrite setRepository_run. split.
  - intros [r Hr]. rewrite Hr. split; reflexivity.
  - intros ->. reflexivity.
Qed.

(** *** cd *)

(** The path [cd] asks about and then stores: the argument joined to
    the path of the repository (for an ssh repository without a path, to
    the dot). *)
Definition cd_target (repo : Repository) (newDir : string) : string :=
  if decide (r_Type repo = "ssh") then
    Path.ToSlash
      (Path.Join (if decide (r_Path repo = "") then "." else r_Path repo)
                 newDir)
  else Path.Join (r_Path repo) newDir.

(** The repository an ssh [cd] connects with. *)
Definition cd_repository (repo : Repository) : Repository :=
  if decide (r_Path repo = "") then set_Path repo "." else repo.

(** The configuration [cd] stores when the target is accepted. *)
Definition cd_config (config : Config) (newDir : string) : Config :=
  let repo := (map_index (c_Repositories config) (c_Current config)).1 in
  set_Repositories config
    (map_assign (c_Repositories config) (c_Current config)
       (set_Path repo (cd_target repo newDir))).

(** The end of [changeDirectory], from the state [s1] in which the target
    was accepted. *)
Definition cd_finish (config : Config) (newDir : string) (s1 : State)
  : Res Config * State :=
  let repo := (map_index (c_Repositories config) (c_Current config)).1 in
  let config' := cd_config config newDir in
  match (sys_WriteFile configPath (saved_bytes config') 420%N
           (st_local s1)).1 with
  | Some e =>
      (Exit 1,
       printed (saved s1 config')
         ("Error saving configuration: " +:+ e +:+ JSON.newline))
  | None =>
      let s2 := printed (saved s1 config')
                  ("Changed directory to '" +:+ cd_target repo newDir +:+ "'"
                   +:+ JSON.newline) in
      (Ret config',
       if decide (r_Type repo = "ssh")
       then log CallClose None (log CallClose None s2) else s2)
  end.

Lemma set_Path_twice repo p q : set_Path (set_Path repo p) q = set_Path repo q.
Proof. reflexivity. Qed.

Lemma changeDirectory_accepted config newDir s s1 repo' :
  let repo := (map_index (c_Repositories config) (c_Current config)).1 in
  resolve_directory repo newDir s
    = (Ret (Some (set_Path repo' (cd_target repo newDir))), s1) →
  set_Path repo' (cd_target repo newDir) = set_Path repo (cd_target repo newDir) →
  changeDirectory config newDir s = cd_finish config newDir s1.
Proof.
  intros repo Hres Heq. unfold changeDirectory, cd_finish, cd_config.
  fold repo. unfold bind at 1. rewrite Hres, Heq.
  unfold bind at 1. rewrite saveConfig_run.
  destruct (sys_WriteFile _ _ _ _) as [[e|] l] eqn:Hw; simpl; [reflexivity|].
  destruct (decide (r_Type repo = "ssh")); reflexivity.
Qed.


Lemma resolve_directory_local repo newDir s :
  is_local (r_Type repo) = true →
  resolve_directory repo newDir s =
    let target := cd_target repo newDir in
    let r := sys_Stat target (st_local s) in
    let s1 := log (CallStat target) (result_err r) s in
    match r with
    | Err e =>
        (Exit 1, printed s1 ("Error accessing path '" +:+ target +:+ "': "
                             +:+ e +:+ JSON.newline))
    | Ok info =>
        if fi_IsDir info then (Ret (Some (set_Path repo target)), s1)
        else (Exit 1, printed s1 ("Error: '" +:+ target
                                  +:+ "' is not a directory." +:+ JSON.newline))
    end.
Proof.
  intros Hloc. unfold resolve_directory, cd_target. rewrite Hloc.
  assert (r_Type repo ≠ "ssh") as Hne.
  { intros E. rewrite E in Hloc. discriminate. }
  destruct (decide (r_Type repo = "ssh")); [done|].
  unfold bind, os_Stat, local_query. simpl.
  destruct (sys_Stat _ _) as [info|e]; [|reflexivity].
  destruct (fi_IsDir info); reflexivity.
Qed.

(** Nothing was done to the local machine between [s] and [s'], and no
    write of the configuration file was asked for. *)
Definition untouched (s s' : State) : Prop :=
  st_local s' = st_local s
  ∧ ∀ ev, ev ∈ st_trace s' → ev_call ev = CallWriteFile configPath →
          ev ∈ st_trace s.

Ltac untouched_tac :=
  unfold untouched; simpl; split; [reflexivity|];
  let ev := fresh "ev" in
  let Hin := fresh "Hin" in
  intros ev Hin ?;
  rewrite ?elem_of_app, ?list_elem_of_singleton in Hin;
  intuition (subst; try discriminate; auto).

Lemma getSSHClient_untouched repo s r s' :
  getSSHClient repo s = (r, s') → untouched s s' ∧ ∃ x, r = Ret x.
Proof.
  unfold getSSHClient, bind, goph_Key, goph_NewConn, local_query, net_call, ret.
  destruct (decide (r_Password repo ≠ "")) as [Hp|Hp].
  - destruct (sys_NewConn _ _ _ _ _) as [[c|e] n]; intros [= <- <-];
      (split; [untouched_tac|eauto]).
  - destruct (sys_Key _ _ _) as [a|e]; simpl.
    + destruct (sys_NewConn _ _ _ _ _) as [[c|e] n]; intros [= <- <-];
        (split; [untouched_tac|eauto]).
    + intros [= <- <-]; (split; [untouched_tac|eauto]).
Qed.

Lemma resolve_directory_ssh repo newDir s :
  r_Type repo = "ssh" →
  resolve_directory repo newDir s =
    let target := cd_target repo newDir in
    match getSSHClient (cd_repository repo) s with
    | (Ret (Ok client), s0) =>
        match sys_NewSftp client (st_net s0) with
        | (Ok sftp, n1) =>
            let s1 := log CallNewSftp None (with_net s0 n1) in
            let r := sys_SftpStat sftp target (st_net s1) in
            let s2 := log (CallSftpStat target) (result_err r.1)
                        (with_net s1 r.2) in
            match r.1 with
            | Err e =>
                (Exit 1,
                 printed s2 ("Error accessing remote path '" +:+ target
                             +:+ "': " +:+ e +:+ JSON.newline))
            | Ok info =>
                if fi_IsDir info
                then (Ret (Some (set_Path (cd_repository repo) target)), s2)
                else (Exit 1,
                      printed s2 ("Error: remote path '" +:+ target
                                  +:+ "' is not a directory." +:+ JSON.newline))
            end
        | (Err e, n1) =>
            (Exit 1,
             printed (log CallNewSftp (Some e) (with_net s0 n1))
               ("Error creating SFTP client: " +:+ e +:+ JSON.newline))
        end
    | (Ret (Err e), s0) =>
        (Exit 1, printed s0 ("Error connecting to SSH server: " +:+ e
                             +:+ JSON.newline))
    | (Exit c, s0) => (Exit c, s0)
    | (Panic m, s0) => (Panic m, s0)
    | (Diverge, s0) => (Diverge, s0)
    end.
Proof.
  intros Hssh. unfold resolve_directory, cd_target, cd_repository.
  rewrite Hssh. simpl.
  destruct (decide (r_Path repo = "")) as [Hp|Hp]; simpl; unfold bind at 1;
  destruct (getSSHClient _ s) as [[[client|e]| | |] s0]; try reflexivity.
  all: unfold bind, client_NewSftp, sftp_Stat, net_call; simpl.
  all: destruct (sys_NewSftp _ _) as [[sftp|e] n1]; [|reflexivity]; simpl.
  all: destruct (sys_SftpStat _ _ _) as [[info|e] n2]; [|reflexivity]; simpl.
  all: destruct (fi_IsDir info); reflexivity.
Qed.

Lemma is_local_not_ssh ty : is_local ty = true → ty ≠ "ssh".
Proof. intros Hloc ->. discriminate. Qed.

(** Every way [changeDirectory] can end. *)
Lemma changeDirectory_cases config newDir s r s' :
  changeDirectory config newDir s = (r, s') →
  let repo := (map_index (c_Repositories config) (c_Current config)).1 in
  (is_local (r_Type repo) = false ∧ r_Type repo ≠ "ssh"
   ∧ r = Ret config ∧ untouched s s')
  ∨ ((is_local (r_Type repo) = true ∨ r_Type repo = "ssh")
     ∧ ((∃ s1, untouched s s1 ∧ (r, s') = cd_finish config newDir s1)
        ∨ (r = Exit 1 ∧ untouched s s'))).
Proof.
  intros Hrun repo.
  destruct (is_local (r_Type repo)) eqn:Hloc.
  - right. split; [by left|].
    pose proof (resolve_directory_local repo newDir s Hloc) as Hres.
    simpl in Hres.
    destruct (sys_Stat _ _) as [info|e] eqn:Hstat.
    + destruct (fi_IsDir info) eqn:Hdir.
      * left. eexists. split; [|rewrite <- Hrun;
          apply (changeDirectory_accepted _ _ _ _ repo); [exact Hres|done]].
        untouched_tac.
      * right. unfold changeDirectory in Hrun. fold repo in Hrun.
        unfold bind at 1 in Hrun. rewrite Hres in Hrun.
        injection Hrun as <- <-. split; [done|untouched_tac].
    + right. unfold changeDirectory in Hrun. fold repo in Hrun.
      unfold bind at 1 in Hrun. rewrite Hres in Hrun.
      injection Hrun as <- <-. split; [done|untouched_tac].
  - destruct (decide (r_Type repo = "ssh")) as [Hssh|Hssh].
    + right. split; [by right|].
      pose proof (resolve_directory_ssh repo newDir s Hssh) as Hres.
      simpl in Hres.
      destruct (getSSHClient _ s) as [rc s0] eqn:Hconn.
      destruct (getSSHClient_untouched _ _ _ _ Hconn) as [[Hl0 Ht0] [x ->]].
      assert (∀ s2, untouched s0 s2 → untouched s s2) as Htrans.
      { intros s2 [Hl2 Ht2]. split; [congruence|]. intros; auto. }
      destruct x as [client|e].
      * destruct (sys_NewSftp _ _) as [[sftp|e] n1] eqn:Hsftp.
        -- destruct (sys_SftpStat _ _ _) as [[info|e] n2] eqn:Hst; simpl in Hres.
           ++ destruct (fi_IsDir info) eqn:Hdir.
              ** left. eexists. split; [|rewrite <- Hrun;
                   apply (changeDirectory_accepted _ _ _ _ (cd_repository repo));
                   [exact Hres|]].
                 { apply Htrans. untouched_tac. }
                 unfold cd_repository. destruct (decide _); reflexivity.
              ** right. unfold changeDirectory in Hrun. fold repo in Hrun.
                 unfold bind at 1 in Hrun. rewrite Hres in Hrun.
                 injection Hrun as <- <-. split; [done|].
                 apply Htrans. untouched_tac.
           ++ right. unfold changeDirectory in Hrun. fold repo in Hrun.
              unfold bind at 1 in Hrun. rewrite Hres in Hrun.
              injection Hrun as <- <-. split; [done|].
              apply Htrans. untouched_tac.
        -- right. unfold changeDirectory in Hrun. fold repo in Hrun.
           unfold bind at 1 in Hrun. rewrite Hres in Hrun.
           injection Hrun as <- <-. split; [done|].
           apply Htrans. untouched_tac.
      * right. unfold changeDirectory in Hrun. fold repo in Hrun.
        unfold bind at 1 in Hrun. rewrite Hres in Hrun.
        injection Hrun as <- <-. split; [done|].
        apply Htrans. untouched_tac.
    + left. unfold changeDirectory, resolve_directory in Hrun. fold repo in Hrun.
      rewrite Hloc in Hrun. destruct (decide (r_Type repo = "ssh")); [done|].
      injection Hrun as <- <-. do 3 (split; [done|]). untouched_tac.
Qed.

Lemma typed_repository_present m k :
  r_Type (map_index m k).1 ≠ "" → ∃ g r, m = Some g ∧ g !! k = Some r
                                        ∧ (map_index m k).1 = r.
Proof.
  unfold map_index. destruct m as [g|]; simpl; [|done].
  destruct (g !! k) as [r|] eqn:Hk; simpl; [eauto|done].
Qed.

Lemma cd_config_path config newDir :
  let repo := (map_index (c_Repositories config) (c_Current config)).1 in
  r_Type repo ≠ "" →
  (map_index (c_Repositories (cd_config config newDir)) (c_Current config)).1
    = set_Path repo (cd_target repo newDir).
Proof.
  intros repo Hty.
  destruct (typed_repository_present _ _ Hty) as (g & r & Hg & Hk & Hr).
  unfold cd_config. fold repo. rewrite Hg. unfold map_index. simpl.
  by rewrite lookup_insert_eq.
Qed.

Lemma local_or_ssh_typed ty : is_local ty = true ∨ ty = "ssh" → ty ≠ "".
Proof. intros [Hl| ->] E; [rewrite E in Hl|]; discriminate. Qed.


(** What [cd_config] leaves alone. *)
Lemma cd_config_frame config newDir :
  let repo := (map_index (c_Repositories config) (c_Current config)).1 in
  let config' := cd_config config newDir in
  r_Type repo ≠ "" →
  c_Current config' = c_Current config
  ∧ (∀ k, k ≠ c_Current config →
       map_index (c_Repositories config') k = map_index (c_Repositories config) k)
  ∧ (map_index (c_Repositories config') (c_Current config)).2
      = (map_index (c_Repositories config) (c_Current config)).2
  ∧ (is_Some (c_Repositories config') ↔ is_Some (c_Repositories config)).
Proof.
  intros repo config' Hty.
  destruct (typed_repository_present _ _ Hty) as (g & r & Hg & Hk & Hr).
  unfold config', cd_config. fold repo. rewrite Hg. simpl.
  split; [done|]. split; [|split].
  - intros k Hne. unfold map_index. simpl. by rewrite lookup_insert_ne.
  - unfold map_index. simpl. by rewrite lookup_insert_eq, Hk.
  - split; eauto.
Qed.

(** C10: a [set N] that succeeds returns, and hands to
    [ioutil.WriteFile], a configuration that differs from the one it
    was given in [Current] only.  A [cd] that succeeds returns the
    configuration it was given (nothing being written), or one that it
    has handed to [ioutil.WriteFile] and that differs in the path of the
    entry [Current] names only: [Current], the set of keys, every other
    entry and every other field of that entry are as before. *)
Theorem persisted_config_frame
  (config : Config) (name newDir : string) (s s' : State) (config' : Config) :
  (setRepository config name s = (Ret config', s') →
     c_Repositories config' = c_Repositories config
     ∧ c_Current config' = name
     ∧ st_local s' = st_local (saved s config'))
  ∧ (changeDirectory config newDir s = (Ret config', s') →
     let old := map_index (c_Repositories config) (c_Current config) in
     let new := map_index (c_Repositories config') (c_Current config) in
     c_Current config' = c_Current config
     ∧ (∀ k, k ≠ c_Current config →
          map_index (c_Repositories config') k
            = map_index (c_Repositories config) k)
     ∧ new.2 = old.2
     ∧ (is_Some (c_Repositories config') ↔ is_Some (c_Repositories config))
     ∧ r_Type new.1 = r_Type old.1
     ∧ r_Host new.1 = r_Host old.1
     ∧ r_Port new.1 = r_Port old.1
     ∧ r_User new.1 = r_User old.1
     ∧ r_PrivateKey new.1 = r_PrivateKey old.1
     ∧ r_Password new.1 = r_Password old.1
     ∧ ((config' = config ∧ untouched s s')
        ∨ ∃ s1, untouched s s1 ∧ st_local s' = st_local (saved s1 config'))).
Proof.
  split.
  - intros Hrun.
    rewrite setRepository_run in Hrun.
    destruct (c_Repositories config ≫= (λ g, g !! name)) as [r|] eqn:Hk;
      [|discriminate].
    cbv zeta in Hrun. destruct (sys_WriteFile _ _ _ _).1; [discriminate|].
    injection Hrun as <- <-. done.
  - intros Hrun old new.
    destruct (changeDirectory_cases _ _ _ _ _ Hrun)
      as [(Hl & Hs & [= ->] & Hu)|(Hty & [(s1 & Hu & Hfin)|[[=] _]])].
    { subst old new. repeat split; eauto; tauto. }
    apply local_or_ssh_typed in Hty.
    assert (config' = cd_config config newDir
            ∧ st_local s' = st_local (saved s1 config')) as [-> Hl].
    { unfold cd_finish in Hfin.
      destruct (sys_WriteFile _ _ _ _).1; [discriminate|].
      injection Hfin as -> ->. split; [done|].
      destruct (decide _); reflexivity. }
    destruct (cd_config_frame config newDir Hty) as (Hc & Hk & Hp & Hn).
    pose proof (cd_config_path config newDir Hty) as Hpath.
    subst old new. rewrite Hpath.
    repeat split; eauto; tauto.
Qed.

(** *** How errors travel *)

(** [new] ends in the call that failed with [e], followed by nothing but
    the closing of the files that were open. *)
Fixpoint fails_with (e : error) (new : list Event) : Prop :=
  match new with
  | [] => False
  | ev :: rest =>
      (ev_err ev = None ∧ fails_with e rest)
      ∨ (ev_err ev = Some e ∧ only_closes rest)
  end.

(** What the calls [new] made by a function that returns an error say
    about its result. *)
Definition verdict (r : Res (option error)) (new : list Event) : Prop :=
  match r with
  | Ret None | Diverge => quiet new
  | Ret (Some e) => fails_with e new
  | Exit _ | Panic _ => False
  end.

Definition fail_fast (s : State) (out : Res (option error) * State) : Prop :=
  ∃ new, st_trace out.2 = st_trace s ++ new ∧ verdict out.1 new.

Lemma quiet_app a b : quiet (a ++ b) ↔ quiet a ∧ quiet b.
Proof. apply Forall_app. Qed.

Lemma fails_with_app e a b : quiet a → fails_with e b → fails_with e (a ++ b).
Proof.
  induction 1 as [|ev a Hev Ha IH]; simpl; [done|]. intros Hb. left. auto.
Qed.

Lemma verdict_app r a b : quiet a → verdict r b → verdict r (a ++ b).
Proof.
  intros Ha. destruct r as [[e|]| | |]; simpl; try done.
  - by apply fails_with_app.
  - intros Hb. by apply quiet_app.
  - intros Hb. by apply quiet_app.
Qed.

Lemma fail_fast_after s s1 out pre :
  st_trace s1 = st_trace s ++ pre → quiet pre →
  fail_fast s1 out → fail_fast s out.
Proof.
  intros Htr Hq (new & Hnew & Hv). exists (pre ++ new). split.
  - by rewrite Hnew, Htr, app_assoc.
  - by apply verdict_app.
Qed.

Lemma only_closes_quiet l : only_closes l → quiet l.
Proof. intros Hl. eapply Forall_impl; [exact Hl|]. by intros ev ->. Qed.

(** The failing call is where [fails_with] says, and it is the only one. *)
Lemma fails_with_split e new pre ev post :
  fails_with e new → new = pre ++ ev :: post → failed ev →
  ev_err ev = Some e ∧ quiet pre ∧ only_closes post.
Proof.
  revert pre. induction new as [|x new IH]; intros pre Hf Heq [e' He'].
  { by destruct pre. }
  destruct pre as [|y pre]; simpl in Heq; injection Heq as -> ->.
  - destruct Hf as [[Hq _]|[Hx Hcl]]; [congruence|]. repeat split; try done.
    constructor.
  - destruct Hf as [[Hq Hrest]|[Hx Hcl]].
    + destruct (IH pre Hrest eq_refl) as (? & ? & ?); [by eexists|].
      repeat split; try done. by constructor.
    + apply only_closes_quiet in Hcl. apply quiet_app in Hcl as [_ Hcl].
      inversion Hcl; congruence.
Qed.

Lemma fails_with_not_quiet e new : fails_with e new → ¬ quiet new.
Proof.
  induction new as [|x new IH]; simpl; [done|].
  intros [[_ Hf]|[Hx _]] Hq; inversion Hq; subst; [by apply IH|congruence].
Qed.

(** Leaves of a symbolic run: the trace is the old one and explicit new
    events, and the verdict is read off them. *)
Ltac trace_leaf :=
  eexists; split;
  [ cbn; rewrite <- ?app_assoc; cbn;
    first [reflexivity | symmetry; apply app_nil_r]
  | cbn; unfold quiet, only_closes;
    repeat first
      [ done
      | apply Forall_nil
      | apply Forall_cons; split; [reflexivity|]
      | left; split; [reflexivity|]
      | right; split; [reflexivity|] ] ].

Lemma copy_entries_fail_fast rec files :
  (∀ src dest s, fail_fast s (rec src dest s)) →
  ∀ src dest s, fail_fast s (copy_entries rec src dest files s).
Proof.
  intros Hrec. induction files as [|file rest IH]; intros src dest s; simpl.
  - trace_leaf.
  - unfold bind.
    destruct (Hrec (Path.Join src (fi_Name file))
                   (Path.Join dest (fi_Name file)) s) as (new & Htr & Hv).
    destruct (rec _ _ s) as [[[e|]| | |] s1]; simpl in *; try done.
    + by exists new.
    + apply (fail_fast_after s s1 _ new); auto.
    + by exists new.
Qed.

Lemma copy_fail_fast fuel :
  ∀ src dest s, fail_fast s (copy fuel src dest s).
Proof.
  induction fuel as [|fuel IH]; intros src dest s; simpl.
  - trace_leaf.
  - unfold bind, os_Stat, os_MkdirAll, ioutil_ReadDir, os_Open, os_Create,
      io_Copy, local_query, local_call, local_effect, Close, ret. simpl.
    destruct (sys_Stat src _) as [srcInfo|e]; [|trace_leaf]. simpl.
    destruct (fi_IsDir srcInfo).
    + destruct (sys_MkdirAll _ _ _) as [[e|] l1]; simpl; [trace_leaf|].
      destruct (sys_ReadDir _ _) as [files|e]; simpl; [|trace_leaf].
      eapply fail_fast_after;
        [| |apply (copy_entries_fail_fast _ files IH)].
      * simpl. rewrite <- !app_assoc. reflexivity.
      * repeat constructor.
    + destruct (sys_Open _ _) as [srcFile|e]; simpl; [|trace_leaf].
      destruct (sys_Create _ _) as [[destFile|e] l1]; simpl; [|trace_leaf].
      destruct (sys_Copy _ _ _) as [[e|] l2]; simpl; trace_leaf.
Qed.

(** The calls [copy] makes. *)
Definition copy_call (c : Call) : Prop :=
  match c with
  | CallStat _ | CallMkdirAll _ | CallReadDir _ | CallOpen _ | CallCreate _
  | CallCopy | CallClose => True
  | _ => False
  end.

Lemma copy_entries_calls rec files :
  (∀ src dest s, ∃ new, st_trace (rec src dest s).2 = st_trace s ++ new
                        ∧ Forall (λ ev, copy_call (ev_call ev)) new) →
  ∀ src dest s, ∃ new,
    st_trace (copy_entries rec src dest files s).2 = st_trace s ++ new
    ∧ Forall (λ ev, copy_call (ev_call ev)) new.
Proof.
  intros Hrec. induction files as [|file rest IH]; intros src dest s; simpl.
  - exists []. by rewrite app_nil_r.
  - unfold bind.
    destruct (Hrec (Path.Join src (fi_Name file))
                   (Path.Join dest (fi_Name file)) s) as (new & Htr & Hc).
    destruct (rec _ _ s) as [[[e|]| | |] s1]; simpl in *; eauto.
    destruct (IH src dest s1) as (new' & Htr' & Hc').
    exists (new ++ new'). split.
    + by rewrite Htr', Htr, app_assoc.
    + by apply Forall_app.
Qed.

Lemma copy_calls fuel :
  ∀ src dest s, ∃ new,
    st_trace (copy fuel src dest s).2 = st_trace s ++ new
    ∧ Forall (λ ev, copy_call (ev_call ev)) new.
Proof.
  induction fuel as [|fuel IH]; intros src dest s; simpl.
  - exists []. by rewrite app_nil_r.
  - unfold bind, os_Stat, os_MkdirAll, ioutil_ReadDir, os_Open, os_Create,
      io_Copy, local_query, local_call, local_effect, Close, ret. simpl.
    assert (∀ s1 pre (out : Res (option error) * State),
              st_trace s1 = st_trace s ++ pre →
              Forall (λ ev, copy_call (ev_call ev)) pre →
              (∃ new, st_trace out.2 = st_trace s1 ++ new
                      ∧ Forall (λ ev, copy_call (ev_call ev)) new) →
              ∃ new, st_trace out.2 = st_trace s ++ new
                     ∧ Forall (λ ev, copy_call (ev_call ev)) new) as Hafter.
    { intros s1 pre out Htr Hpre (new & Hnew & Hc). exists (pre ++ new).
      split; [by rewrite Hnew, Htr, app_assoc|by apply Forall_app]. }
    destruct (sys_Stat src _) as [srcInfo|e]; simpl;
      [|eexists; split; [reflexivity|repeat constructor]].
    destruct (fi_IsDir srcInfo).
    + destruct (sys_MkdirAll _ _ _) as [[e|] l1]; simpl.
      { eexists; split; [rewrite <- ?app_assoc; reflexivity|repeat constructor]. }
      destruct (sys_ReadDir _ _) as [files|e]; simpl.
      * eapply Hafter; [| |apply (copy_entries_calls _ files IH)].
        -- simpl. rewrite <- !app_assoc. reflexivity.
        -- repeat constructor.
      * eexists; split; [rewrite <- ?app_assoc; reflexivity|repeat constructor].
    + destruct (sys_Open _ _) as [srcFile|e]; simpl.
      2:{ eexists; split; [rewrite <- ?app_assoc; reflexivity|repeat constructor]. }
      destruct (sys_Create _ _) as [[destFile|e] l1]; simpl.
      2:{ eexists; split; [rewrite <- ?app_assoc; reflexivity|repeat constructor]. }
      destruct (sys_Copy _ _ _) as [[e|] l2]; simpl;
        (eexists; split; [rewrite <- ?app_assoc; reflexivity|repeat constructor]).
Qed.

(** C3: in a run of [copy(src, dest)], a call that fails (a stat, an
    open, a create, a directory read, a stream copy, or the making of a
    directory) is the last call but for the closing of the files that
    are open: [copy] returns the error of that very call, no further
    entry is attempted, and nothing is undone, the only calls [copy]
    ever makes being those seven.  When no call fails [copy] returns
    nil, unless the bound on its recursion is reached. *)
Theorem copy_returns_first_error
  (fuel : nat) (src dest : string) (s : State) :
  let out := copy fuel src dest s in
  ∃ new,
    st_trace out.2 = st_trace s ++ new
    ∧ (∀ pre ev post, new = pre ++ ev :: post → failed ev →
         out.1 = Ret (ev_err ev) ∧ quiet pre ∧ only_closes post)
    ∧ (quiet new → out.1 = Ret None ∨ out.1 = Diverge)
    ∧ Forall (λ ev, copy_call (ev_call ev)) new.
Proof.
  intros out.
  destruct (copy_fail_fast fuel src dest s) as (new & Htr & Hv).
  destruct (copy_calls fuel src dest s) as (new' & Htr' & Hc).
  fold out in Htr, Hv, Htr'.
  assert (new' = new) as -> by (rewrite Htr in Htr'; by simplify_list_eq).
  exists new. split; [done|]. split; [|split; [|done]].
  - intros pre ev post Heq Hfail.
    destruct (out.1) as [[e|]| | |] eqn:Hr; simpl in Hv; try done.
    + destruct (fails_with_split e new pre ev post Hv Heq Hfail) as (-> & ? & ?).
      done.
    + subst new. apply quiet_app in Hv as [_ Hv]. inversion Hv; subst.
      destruct Hfail; congruence.
    + subst new. apply quiet_app in Hv as [_ Hv]. inversion Hv; subst.
      destruct Hfail; congruence.
  - intros Hq. destruct (out.1) as [[e|]| | |]; simpl in Hv; try done; auto.
    by apply fails_with_not_quiet in Hv.
Qed.

(** *** Exit status *)

(** What the calls [new] made by a run say about how it ended: a run
    that returns a value which is not an error, that panics or that does
    not end within its bound made no call that failed; [os.Exit] is
    called with 1. *)
Definition ends_well {A} (is_err : A → Prop) (new : list Event) (r : Res A)
  : Prop :=
  match r with
  | Ret a => is_err a ∨ quiet new
  | Exit code => code = 1%Z
  | Panic _ => quiet new
  | Diverge => True
  end.

Definition reports {A} (is_err : A → Prop) (s : State) (out : Res A * State)
  : Prop :=
  ∃ new, st_trace out.2 = st_trace s ++ new ∧ ends_well is_err new out.1.

Definition is_Err {A} (r : result A) : Prop := result_err r ≠ None.



(** Whatever went before, a run that ends in an error or with status 1
    reports. *)
Lemma reports_anyway {A} (is_err : A → Prop) s s1 out pre :
  st_trace s1 = st_trace s ++ pre →
  reports is_err s1 out →
  match out.1 with Ret a => is_err a | Exit _ => True | _ => False end →
  reports is_err s out.
Proof.
  intros Htr (new & Hnew & Hv) Hr. exists (pre ++ new). split.
  - by rewrite Hnew, Htr, app_assoc.
  - destruct out as [[a| | |] s2]; simpl in *; try done. by left.
Qed.

Ltac report_leaf :=
  eexists; split;
  [ cbn; rewrite <- ?app_assoc; cbn;
    first [reflexivity | symmetry; apply app_nil_r]
  | cbn; unfold quiet, is_Err;
    first [ reflexivity
          | solve [right; repeat constructor]
          | solve [left; done]
          | solve [repeat constructor] ] ].

























Lemma local_call_reports {A} c (f : Local → result A * Local) s :
  reports is_Err s (local_call c f s).
Proof. unfold local_call. destruct (f _) as [[a|e] l]; report_leaf. Qed.

Lemma local_effect_reports c f s : reports is_Some s (local_effect c f s).
Proof. unfold local_effect. destruct (f _) as [[e|] l]; report_leaf. Qed.






















Definition commands : list string :=
  ["list"; "set"; "show"; "get"; "put"; "cd"].


(** *** Loading *)

(** [loadConfig] returns the error of the open or of the read, and no
    other: when the bytes read are not JSON, [json.Unmarshal] says so
    and stores nothing, and [loadConfig] returns the zero [Config] with a
    nil error. *)
Lemma loadConfig_outcomes (s : State) :
  (∀ e, sys_Open configPath (st_local s) = Err e →
        (loadConfig s).1 = Ret (Err e))
  ∧ (∀ f e, sys_Open configPath (st_local s) = Ok f →
            sys_ReadAll f (st_local s) = Err e →
            (loadConfig s).1 = Ret (Err e))
  ∧ (∀ f data, sys_Open configPath (st_local s) = Ok f →
               sys_ReadAll f (st_local s) = Ok data →
               (loadConfig s).1 = Ret (Ok (JSON.Unmarshal data zeroConfig).1))
  ∧ (∀ data, JSON.parse data = None →
             is_Some (JSON.Unmarshal data zeroConfig).2
             ∧ (JSON.Unmarshal data zeroConfig).1 = zeroConfig).
Proof.
  unfold loadConfig, bind, os_Open, ioutil_ReadAll, local_query, Close, ret.
  split; [|split; [|split]].
  - intros e He. cbn. by rewrite He.
  - intros f e Hf He. cbn. rewrite Hf. cbn. by rewrite He.
  - intros f data Hf Hd. cbn. rewrite Hf. cbn. by rewrite Hd.
  - intros data Hp. unfold JSON.Unmarshal. rewrite Hp. cbn. eauto.
Qed.

End Commands.

(** ** Loading and saving the configuration *)
Module Canonical.
Import JSON.






(** The bytes [saveConfig] writes for the configuration [loadConfig]
    returns when the file holds [data]. *)
Definition load_then_save (data : string) : string :=
  saved_bytes (Unmarshal data zeroConfig).1.










(** *** A repository *)








(** *** The map of repositories *)





(** *** The configuration *)





#[export] Instance key_le_total : Total key_le.
Proof. intros a b. apply String.leb_total. Qed.


End Canonical.

(** ** Paths on the Unix machine *)
Module PathFacts.
Import Path Unix.

(** A string without a slash. *)
Definition no_slash (s : string) : Prop := split s = [s].

(** The name of an entry: not empty, no slash, neither dot nor dot-dot. *)
Definition name_ok (n : string) : Prop :=
  no_slash n ∧ n ≠ "" ∧ n ≠ "." ∧ n ≠ "..".

Lemma split_not_nil s : split s ≠ [].
Proof.
  destruct s as [|c s]; simpl; [done|].
  destruct (Ascii.eqb c "/"); [done|]. by destruct (split s).
Qed.

Lemma split_app_slash a b :
  split (a +:+ "/" +:+ b) = split a ++ split b.
Proof.
  induction a as [|c a IH]; simpl; [done|].
  destruct (Ascii.eqb c "/"); [by rewrite IH|].
  rewrite IH. pose proof (split_not_nil a). by destruct (split a).
Qed.

Lemma split_elements s : Forall no_slash (split s).
Proof.
  unfold no_slash. induction s as [|c s IH]; simpl; [by repeat constructor|].
  destruct (Ascii.eqb c "/") eqn:Hc; [by constructor|].
  destruct (split s) as [|x xs]; [by repeat constructor; simpl; rewrite Hc|].
  inversion IH as [|?? Hx Hxs]; subst. constructor; [|done].
  simpl. by rewrite Hc, Hx.
Qed.

Lemma no_slash_head c s : no_slash (String c s) → Ascii.eqb c "/" = false.
Proof.
  unfold no_slash. simpl. destruct (Ascii.eqb c "/"); [|done].
  intros Heq. discriminate Heq.
Qed.

Lemma split_join l : l ≠ [] → Forall no_slash l → split (join l) = l.
Proof.
  induction l as [|x l IH]; [done|]. intros _ Hl.
  inversion Hl as [|?? Hx Hrest]; subst.
  destruct l as [|y l]; [done|].
  change (join (x :: y :: l)) with (x +:+ "/" +:+ join (y :: l)).
  rewrite split_app_slash, Hx, IH; done.
Qed.

Lemma app_not_empty a b : a ≠ "" → a +:+ b ≠ "".
Proof. by destruct a. Qed.

Lemma IsAbs_app a b : a ≠ "" → IsAbs (a +:+ b) = IsAbs a.
Proof. by destruct a. Qed.

(** *** The steps of a walk *)

Lemma walk_app t cur l1 l2 :
  walk t cur (l1 ++ l2) = walk t cur l1 ≫= λ mid, walk t mid l2.
Proof.
  revert cur. induction l1 as [|e l1 IH]; intros cur; simpl; [done|].
  destruct (is_dir t cur); [apply IH|done].
Qed.

Lemma parent_snoc p n : parent (p ++ [n]) = p.
Proof. apply removelast_last. Qed.

Lemma step_name cur n : n ≠ "" → n ≠ "." → n ≠ ".." → step cur n = cur ++ [n].
Proof.
  intros. unfold step.
  destruct (decide (n = "" ∨ n = ".")) as [[]|]; [done..|].
  by destruct (decide (n = "..")).
Qed.

(** The elements the clean-up keeps are never empty nor the dot. *)
Definition kept (stk : list string) : Prop :=
  Forall (λ e, e ≠ "" ∧ e ≠ ".") stk.

Lemma clean_step_kept rooted stk e : kept stk → kept (clean_step rooted stk e).
Proof.
  intros Hk. unfold clean_step.
  destruct (decide (e = "" ∨ e = ".")); [done|].
  destruct (decide (e = "..")) as [->|].
  - destruct stk as [|top rest].
    + destruct rooted; by repeat constructor.
    + destruct (decide (top = "..")); [by constructor|by inversion Hk].
  - constructor; [|done]. split; intros ->; tauto.
Qed.

Lemma fold_clean_kept rooted l stk :
  kept stk → kept (fold_left (clean_step rooted) l stk).
Proof.
  revert stk. induction l as [|e l IH]; intros stk Hk; simpl; [done|].
  by apply IH, clean_step_kept.
Qed.

(** The lexical clean-up agrees with the walk it abbreviates: where the
    elements lead, the cleaned elements lead too. *)
Lemma walk_clean_step t rooted base stk cur e :
  (rooted = true → base = []) → kept stk →
  walk t base (rev stk) = Some cur → is_dir t cur = true →
  walk t base (rev (clean_step rooted stk e)) = Some (step cur e).
Proof.
  intros Hroot Hk Hw Hd. unfold clean_step, step.
  destruct (decide (e = "" ∨ e = ".")); [done|].
  destruct (decide (e = "..")) as [->|Hne].
  - destruct stk as [|top rest].
    + simpl in Hw. injection Hw as <-. destruct rooted.
      * by rewrite Hroot.
      * simpl. by rewrite Hd.
    + destruct (decide (top = "..")) as [->|Htop].
      * change (rev (".." :: ".." :: rest)) with (rev (".." :: rest) ++ [".."]).
        rewrite walk_app, Hw. simpl. by rewrite Hd.
      * simpl in Hw. rewrite walk_app in Hw.
        destruct (walk t base (rev rest)) as [mid|]; [|done]. simpl in Hw.
        destruct (is_dir t mid); [|done]. injection Hw as <-.
        inversion Hk as [|?? [H1 H2] _]; subst.
        by rewrite step_name, parent_snoc.
  - change (rev (e :: stk)) with (rev stk ++ [e]).
    rewrite walk_app, Hw. simpl. rewrite Hd.
    unfold step. destruct (decide (e = "" ∨ e = ".")); [done|].
    by destruct (decide (e = "..")).
Qed.

Lemma walk_clean t rooted base l :
  (rooted = true → base = []) →
  ∀ stk cur target,
    kept stk → walk t base (rev stk) = Some cur →
    walk t cur l = Some target →
    walk t base (rev (fold_left (clean_step rooted) l stk)) = Some target.
Proof.
  intros Hroot. induction l as [|e l IH]; intros stk cur target Hk Hw Hl.
  - simpl in *. congruence.
  - simpl in Hl. destruct (is_dir t cur) eqn:Hd; [|done].
    simpl. eapply IH; [by apply clean_step_kept| |exact Hl].
    by apply walk_clean_step.
Qed.

Lemma clean_step_no_slash rooted stk e :
  Forall no_slash stk → no_slash e → Forall no_slash (clean_step rooted stk e).
Proof.
  intros Hs He. unfold clean_step.
  destruct (decide (e = "" ∨ e = ".")); [done|].
  destruct (decide (e = "..")) as [->|].
  - destruct stk as [|top rest].
    + destruct rooted; by repeat constructor.
    + destruct (decide (top = "..")); [by constructor|by inversion Hs].
  - by constructor.
Qed.

Lemma fold_clean_no_slash rooted l stk :
  Forall no_slash stk → Forall no_slash l →
  Forall no_slash (fold_left (clean_step rooted) l stk).
Proof.
  revert stk. induction l as [|e l IH]; intros stk Hs Hl; simpl; [done|].
  inversion Hl; subst. by apply IH; [apply clean_step_no_slash|].
Qed.

Lemma fold_left_snoc {A B} (g : A → B → A) l x a :
  fold_left g (l ++ [x]) a = g (fold_left g l a) x.
Proof. by rewrite fold_left_app. Qed.

Lemma clean_step_name rooted stk n :
  n ≠ "" → n ≠ "." → n ≠ ".." → clean_step rooted stk n = n :: stk.
Proof.
  intros. unfold clean_step.
  destruct (decide (n = "" ∨ n = ".")) as [[]|]; [done..|].
  by destruct (decide (n = "..")).
Qed.

Lemma IsAbs_join x l :
  x ≠ "" → no_slash x → IsAbs (join (x :: l)) = false.
Proof.
  intros Hx Hs. destruct x as [|c x]; [done|].
  apply no_slash_head in Hs. by destruct l.
Qed.

Lemma split_slash s : split ("/" +:+ s) = "" :: split s.
Proof. reflexivity. Qed.

(** Joining a name to a path that leads to a directory leads to the
    entry of that name in it. *)
Lemma resolve_Join f p name q :
  files f !! [] = Some Dir →
  resolve f p = Some q → is_dir (files f) q = true → name_ok name →
  resolve f (Join p name) = Some (q ++ [name]).
Proof.
  intros Hroot Hres Hq (Hslash & Hne & Hdot & Hdotdot).
  unfold resolve in Hres. destruct (decide (p = "")) as [|Hp]; [done|].
  unfold Join. destruct (decide (p = "")); [done|].
  set (P := p +:+ "/" +:+ name).
  assert (P ≠ "") as HP by (by apply app_not_empty).
  assert (IsAbs P = IsAbs p) as Habs by (by apply IsAbs_app).
  assert (split P = split p ++ [name]) as Hsplit.
  { unfold P. by rewrite split_app_slash, Hslash. }
  unfold Clean. destruct (decide (P = "")); [done|].
  unfold clean_elems. rewrite Hsplit, fold_left_snoc, clean_step_name by done.
  set (stk0 := fold_left (clean_step (IsAbs P)) (split p) []).
  assert (kept (name :: stk0)) as Hkept.
  { constructor; [done|]. apply fold_clean_kept. constructor. }
  assert (Forall no_slash (rev (name :: stk0))) as Hns.
  { apply Forall_rev. constructor; [done|].
    apply fold_clean_no_slash; [constructor|apply split_elements]. }
  assert (rev (name :: stk0) ≠ []) as Hnil.
  { simpl. by destruct (rev stk0). }
  pose proof (split_join _ Hnil Hns) as Hsj.
  assert (join (rev (name :: stk0)) ≠ "") as Hbody.
  { intros Hb. rewrite Hb in Hsj. simpl in Hsj.
    destruct (rev stk0) as [|x xs] eqn:Hrev; simpl in Hsj.
    - by injection Hsj.
    - destruct xs; discriminate. }
  assert (walk (files f) (if IsAbs P then [] else cwd f) (rev (name :: stk0))
          = Some (q ++ [name])) as Hwalk.
  { replace (name :: stk0)
      with (fold_left (clean_step (IsAbs P)) (split p ++ [name]) [])
      by (by rewrite fold_left_snoc, clean_step_name).
    assert (IsAbs P = true → (if IsAbs P then [] else cwd f) = []) as Hbase
      by (by intros ->).
    apply (walk_clean _ _ _ _ Hbase [] (if IsAbs P then [] else cwd f));
      [constructor|reflexivity|].
    rewrite walk_app. unfold start in Hres. rewrite Habs, Hres. simpl.
    by rewrite Hq, step_name. }
  unfold resolve, start in *.
  destruct (IsAbs P) eqn:HabsP.
  - destruct (decide _) as [Hempty|_]; [done|].
    rewrite split_slash, Hsj.
    change (IsAbs ("/" +:+ join (rev (name :: stk0)))) with true.
    cbn [walk]. unfold is_dir at 1. by rewrite Hroot.
  - destruct (decide (join _ = "")); [done|].
    destruct (decide _); [done|]. rewrite Hsj.
    destruct (rev (name :: stk0)) as [|x xs] eqn:Hrev; [done|].
    rewrite IsAbs_join; [done| |by inversion Hns].
    apply Forall_rev in Hkept. rewrite Hrev in Hkept.
    inversion Hkept as [|?? [Hx _] _]. done.
Qed.

End PathFacts.

(** ** The file system of the Unix machine *)
Module FsFacts.
Import Path Unix PathFacts.

(** A tree is well formed when its root is a directory and every entry
    lies, under a proper name, in a directory. *)
Definition tree_ok (t : tree) : Prop :=
  t !! [] = Some Dir
  ∧ ∀ p n, is_Some (t !! (p ++ [n])) → t !! p = Some Dir ∧ name_ok n.

(** The tree [t'] holds at and below [e] what [t] holds at and below
    [d], and elsewhere what [t] holds there. *)
Definition mirrors (t t' : tree) (d e : list string) : Prop :=
  (∀ rel, t' !! (e ++ rel) = t !! (d ++ rel))
  ∧ (∀ p, ¬ e `prefix_of` p → t' !! p = t !! p).

(** Nothing lies at or below [e], which can be made: its parent is a
    directory and its last element a proper name. *)
Definition vacant (t : tree) (e : list string) : Prop :=
  (∀ rel, t !! (e ++ rel) = None)
  ∧ ∃ p n, e = p ++ [n] ∧ t !! p = Some Dir ∧ name_ok n.

(** [e] is a directory with nothing in it. *)
Definition empty_dir (t : tree) (e : list string) : Prop :=
  t !! e = Some Dir ∧ ∀ rel, rel ≠ [] → t !! (e ++ rel) = None.

Lemma is_dir_true t p : is_dir t p = true ↔ t !! p = Some Dir.
Proof. unfold is_dir. destruct (t !! p) as [[]|]; split; congruence. Qed.

Lemma tree_ok_parent t p :
  tree_ok t → is_Some (t !! p) → is_dir t (parent p) = true.
Proof.
  intros [Hroot Hok] Hp. induction p as [|n p' _] using rev_ind.
  - by apply is_dir_true.
  - rewrite parent_snoc. apply is_dir_true. by apply (Hok p' n).
Qed.

Lemma walk_mono t t' cur elems q :
  (∀ p, is_dir t p = true → is_dir t' p = true) →
  walk t cur elems = Some q → walk t' cur elems = Some q.
Proof.
  intros Hmono. revert cur. induction elems as [|e elems IH]; intros cur; simpl;
    [done|].
  destruct (is_dir t cur) eqn:Hd; [|done]. rewrite (Hmono _ Hd). apply IH.
Qed.

Lemma resolve_mono f f' p q :
  cwd f' = cwd f →
  (∀ p, is_dir (files f) p = true → is_dir (files f') p = true) →
  resolve f p = Some q → resolve f' p = Some q.
Proof.
  intros Hcwd Hmono. unfold resolve, start. rewrite Hcwd.
  destruct (decide (p = "")); [done|]. by apply walk_mono.
Qed.

Lemma walk_starts_in_dir t cur elems q :
  elems ≠ [] → walk t cur elems = Some q → is_dir t cur = true.
Proof. destruct elems; [done|]. simpl. by destruct (is_dir t cur). Qed.

(** *** The calls *)

Lemma Stat_at f p q nd :
  resolve f p = Some q → files f !! q = Some nd →
  Stat p f = Ok (info_of (Base p) nd).
Proof. intros Hr Hq. unfold Stat. rewrite Hr. simpl. by rewrite Hq. Qed.

Lemma mkdir_walk_there t cur elems e :
  tree_ok t → is_dir t cur = true →
  walk t cur elems = Some e → t !! e = Some Dir →
  mkdir_walk t cur elems = (None, t).
Proof.
  intros Hok. revert cur. induction elems as [|x elems IH]; intros cur Hcur Hw He;
    simpl in *; [done|].
  rewrite Hcur in *. simpl.
  destruct (decide (x = "" ∨ x = "." ∨ x = "..")) as [Hx|Hx].
  - apply IH; [|done..].
    unfold step. destruct (decide (x = "" ∨ x = ".")); [done|].
    destruct (decide (x = "..")); [|tauto].
    apply tree_ok_parent; [done|]. apply is_dir_true in Hcur. eauto.
  - rewrite step_name in Hw by (intros ->; apply Hx; auto).
    destruct elems as [|y elems].
    + simpl in Hw. injection Hw as <-. by rewrite He.
    + assert (is_dir t (cur ++ [x]) = true) as Hd.
      { by apply (walk_starts_in_dir t _ (y :: elems) e). }
      pose proof Hd as Hd'. apply is_dir_true in Hd'. rewrite Hd'. by apply IH.
Qed.

Lemma mkdir_walk_new t cur elems e :
  tree_ok t → is_dir t cur = true →
  walk t cur elems = Some e → t !! e = None →
  mkdir_walk t cur elems = (None, <[e := Dir]> t).
Proof.
  intros Hok. revert cur. induction elems as [|x elems IH]; intros cur Hcur Hw He;
    simpl in *.
  { injection Hw as <-. apply is_dir_true in Hcur. congruence. }
  rewrite Hcur in *. simpl.
  destruct (decide (x = "" ∨ x = "." ∨ x = "..")) as [Hx|Hx].
  - apply IH; [|done..].
    unfold step. destruct (decide (x = "" ∨ x = ".")); [done|].
    destruct (decide (x = "..")); [|tauto].
    apply tree_ok_parent; [done|]. apply is_dir_true in Hcur. eauto.
  - rewrite step_name in Hw by (intros ->; apply Hx; auto).
    destruct elems as [|y elems].
    + simpl in Hw. injection Hw as <-. by rewrite He.
    + assert (is_dir t (cur ++ [x]) = true) as Hd.
      { by apply (walk_starts_in_dir t _ (y :: elems) e). }
      pose proof Hd as Hd'. apply is_dir_true in Hd'. rewrite Hd'. by apply IH.
Qed.

Lemma resolve_starts_in_dir f p q :
  resolve f p = Some q → p ≠ "" ∧ is_dir (files f) (start f p) = true.
Proof.
  unfold resolve. destruct (decide (p = "")); [done|]. intros Hw.
  split; [done|]. eapply walk_starts_in_dir; [apply split_not_nil|done].
Qed.

Lemma MkdirAll_there f p perm e :
  tree_ok (files f) → resolve f p = Some e → files f !! e = Some Dir →
  MkdirAll p perm f = (None, f).
Proof.
  intros Hok Hr He. destruct (resolve_starts_in_dir _ _ _ Hr) as [Hp Hs].
  unfold MkdirAll, resolve in *. destruct (decide (p = "")); [done|].
  rewrite (mkdir_walk_there _ _ _ e); try done. by destruct f.
Qed.

Lemma MkdirAll_new f p perm e :
  tree_ok (files f) → resolve f p = Some e → files f !! e = None →
  MkdirAll p perm f = (None, mkFs (<[e := Dir]> (files f)) (cwd f)).
Proof.
  intros Hok Hr He. destruct (resolve_starts_in_dir _ _ _ Hr) as [Hp Hs].
  unfold MkdirAll, resolve in *. destruct (decide (p = "")); [done|].
  by rewrite (mkdir_walk_new _ _ _ e).
Qed.

Lemma Open_at f p q :
  resolve f p = Some q → is_Some (files f !! q) → Open p f = Ok q.
Proof. intros Hr [nd Hq]. unfold Open. by rewrite Hr, Hq. Qed.

Lemma Create_new f p e :
  resolve f p = Some e → files f !! e = None →
  Create p f = (Ok e, mkFs (<[e := Reg ""]> (files f)) (cwd f)).
Proof. intros Hr He. unfold Create. by rewrite Hr, He. Qed.

Lemma overwrite_empty data : overwrite "" data = data.
Proof.
  unfold overwrite.
  assert (∀ n, substring n 0 "" = "") as Hsub by (by intros []).
  change (String.length "" - String.length data) with 0. rewrite Hsub.
  induction data as [|c data IH]; [done|].
  change (String c (data +:+ "") = String c data). by rewrite IH.
Qed.

Lemma Copy_at f dst src old data :
  files f !! src = Some (Reg data) → files f !! dst = Some (Reg old) →
  Copy dst src f
    = (None, mkFs (<[dst := Reg (overwrite old data)]> (files f)) (cwd f)).
Proof.
  intros Hs Hd. unfold Copy, ReadAll, write_at. by rewrite Hs, Hd.
Qed.

(** *** Reading a directory *)

Lemma child_of_spec q k n : child_of q k = Some n ↔ k = q ++ [n].
Proof.
  revert k. induction q as [|a q IH]; intros k; simpl.
  - destruct k as [|b [|c k]]; split; intros Heq; by simplify_eq.
  - destruct k as [|b k]; [split; intros Heq; by simplify_eq|].
    destruct (decide (a = b)) as [->|Hne].
    + rewrite IH. split; intros Heq; by simplify_eq.
    + split; intros Heq; by simplify_eq.
Qed.

Lemma fi_Name_info_of n nd : fi_Name (info_of n nd) = n.
Proof. by destruct nd. Qed.

Lemma fi_IsDir_info_of n nd :
  fi_IsDir (info_of n nd) = bool_decide (nd = Dir).
Proof. by destruct nd. Qed.

Lemma entries_spec t q n nd :
  (n, nd) ∈ entries t q ↔ t !! (q ++ [n]) = Some nd.
Proof.
  unfold entries. rewrite merge_sort_Permutation, list_elem_of_omap. split.
  - intros ([k nd'] & Hin & Hf). apply elem_of_map_to_list in Hin. simpl in Hf.
    destruct (child_of q k) as [n'|] eqn:Hc; [|done]. simpl in Hf.
    injection Hf as -> ->. apply child_of_spec in Hc. by subst.
  - intros Hl. exists (q ++ [n], nd). split; [by apply elem_of_map_to_list|].
    simpl. by rewrite (proj2 (child_of_spec q _ n) eq_refl).
Qed.

Lemma entries_NoDup t q : NoDup (entries t q).*1.
Proof.
  unfold entries. rewrite merge_sort_Permutation.
  match goal with
  | |- context [omap _ ?l] =>
      assert (NoDup l.*1) as Hnd by apply NoDup_fst_map_to_list;
      revert Hnd; generalize l
  end. intros l.
  induction l as [|[k nd] l IH]; intros Hnd; simpl; [constructor|].
  simpl in Hnd. apply NoDup_cons in Hnd as [Hk Hl].
  destruct (child_of q k) as [n|] eqn:Hc; simpl; [|by apply IH].
  constructor; [|by apply IH].
  intros Hin. apply Hk. apply list_elem_of_fmap in Hin as ([n' nd'] & -> & Hin).
  apply list_elem_of_omap in Hin as ([k' nd''] & Hin' & Hf). simpl in *.
  destruct (child_of q k') as [m|] eqn:Hc'; [|done]. simpl in Hf.
  injection Hf as -> ->. apply child_of_spec in Hc, Hc'. subst.
  apply list_elem_of_fmap. by exists (q ++ [n'], nd').
Qed.

(** What [ReadDir] lists in a directory: each entry once, by its name. *)
Lemma ReadDir_at f p q :
  resolve f p = Some q → files f !! q = Some Dir →
  ∃ infos, ReadDir p f = Ok infos
    ∧ NoDup (fi_Name <$> infos)
    ∧ ∀ n, n ∈ fi_Name <$> infos ↔ is_Some (files f !! (q ++ [n])).
Proof.
  intros Hr Hq. unfold ReadDir. rewrite Hr, Hq. eexists. split; [done|].
  assert (fi_Name <$> ((λ e, info_of e.1 e.2) <$> entries (files f) q)
          = (entries (files f) q).*1) as ->.
  { rewrite <- list_fmap_compose. apply list_fmap_ext.
    intros i [n nd] _. apply fi_Name_info_of. }
  split; [apply entries_NoDup|].
  intros n. rewrite list_elem_of_fmap. split.
  - intros ([n' nd] & -> & Hin). apply entries_spec in Hin. eauto.
  - intros [nd Hn]. exists (n, nd). split; [done|]. by apply entries_spec.
Qed.

(** *** Trees *)

Lemma tree_ok_ancestor t p rel :
  tree_ok t → is_Some (t !! (p ++ rel)) → is_Some (t !! p).
Proof.
  intros Hok. induction rel as [|n rel IH] using rev_ind.
  - by rewrite app_nil_r.
  - rewrite app_assoc. intros Hs. apply IH.
    destruct Hok as [_ Hok]. destruct (Hok _ _ Hs) as [-> _]. eauto.
Qed.

Lemma tree_ok_below_file t d data rel :
  tree_ok t → t !! d = Some (Reg data) → rel ≠ [] → t !! (d ++ rel) = None.
Proof.
  intros Hok Hd. induction rel as [|n rel IH] using rev_ind; [done|].
  intros _. destruct (t !! (d ++ rel ++ [n])) as [nd|] eqn:Hn; [|done].
  rewrite app_assoc in Hn. destruct Hok as [_ Hok].
  destruct (Hok (d ++ rel) n) as [Hp _]; [eauto|].
  destruct rel as [|m rel] using rev_ind.
  - rewrite app_nil_r in Hp. congruence.
  - rewrite IH in Hp; [done|]. by destruct rel.
Qed.

Lemma tree_ok_insert t e p n nd :
  tree_ok t → t !! e = None → e = p ++ [n] → t !! p = Some Dir → name_ok n →
  tree_ok (<[e := nd]> t).
Proof.
  intros [Hroot Hok] He -> Hp Hn. split.
  - rewrite lookup_insert_ne; [done|]. by destruct p.
  - intros p' n' Hs. destruct (decide (p ++ [n] = p' ++ [n'])) as [Heq|Hne].
    + apply app_inj_tail in Heq as [<- <-]. split; [|done].
      rewrite lookup_insert_ne; [done|]. intros Heq. rewrite Heq in He. congruence.
    + rewrite lookup_insert_ne in Hs by done.
      destruct (Hok _ _ Hs) as [Hp' Hn']. split; [|done].
      rewrite lookup_insert_ne; [done|]. intros <-. congruence.
Qed.

(** Neither path is at or below the other. *)
Definition apart (d e : list string) : Prop :=
  ¬ d `prefix_of` e ∧ ¬ e `prefix_of` d.

Lemma apart_below d e r1 r2 : apart d e → apart (d ++ r1) (e ++ r2).
Proof.
  intros [Hde Hed]. split; intros Hp.
  - destruct (prefix_weak_total d e (e ++ r2)); try done.
    + etrans; [|exact Hp]. by apply prefix_app_r.
    + by apply prefix_app_r.
  - destruct (prefix_weak_total d e (d ++ r1)); try done.
    + by apply prefix_app_r.
    + etrans; [|exact Hp]. by apply prefix_app_r.
Qed.

Lemma apart_sym d e : apart d e → apart e d.
Proof. intros []. by split. Qed.

Lemma not_prefix_sibling (e : list string) n n' rel :
  n ≠ n' → ¬ (e ++ [n]) `prefix_of` (e ++ n' :: rel).
Proof.
  intros Hne Hp. apply prefix_app_inv in Hp. destruct Hp as [k Hk].
  simpl in Hk. congruence.
Qed.

Lemma not_prefix_longer (e r : list string) : r ≠ [] → ¬ (e ++ r) `prefix_of` e.
Proof.
  intros Hr Hp. apply prefix_length in Hp. rewrite length_app in Hp.
  destruct r; [done|]. simpl in Hp. lia.
Qed.

(** *** One step of [copy] on the Unix machine *)

Lemma copy_directory_step k src dest (s : State) info :
  Stat src (st_local s) = Ok info → fi_IsDir info = true →
  copy (S k) src dest s =
    let s1 := log (CallStat src) None s in
    let m := MkdirAll dest (fi_Mode info) (st_local s) in
    let s2 := log (CallMkdirAll dest) m.1 (with_local s1 m.2) in
    match m.1 with
    | Some e => (Ret (Some e), s2)
    | None =>
        let r := ReadDir src m.2 in
        let s3 := log (CallReadDir src) (result_err r) s2 in
        match r with
        | Err e => (Ret (Some e), s3)
        | Ok infos => copy_entries (copy k) src dest infos s3
        end
    end.
Proof.
  intros Hstat Hdir. cbn [copy]. unfold bind at 1, os_Stat, local_query.
  change (sys_Stat src (st_local s)) with (Stat src (st_local s)).
  rewrite Hstat. cbn [result_err]. rewrite Hdir.
  unfold bind at 1, os_MkdirAll, local_effect.
  change (sys_MkdirAll dest (fi_Mode info) (st_local (log (CallStat src) None s)))
    with (MkdirAll dest (fi_Mode info) (st_local s)).
  destruct (MkdirAll dest (fi_Mode info) (st_local s)) as [[e|] f1]; [done|].
  cbn [fst snd]. unfold bind at 1, ioutil_ReadDir, local_query.
  change (sys_ReadDir src _) with (ReadDir src f1).
  by destruct (ReadDir src f1).
Qed.

Lemma copy_file_step k src dest (s : State) info d e data :
  Stat src (st_local s) = Ok info → fi_IsDir info = false →
  Open src (st_local s) = Ok d → files (st_local s) !! d = Some (Reg data) →
  resolve (st_local s) dest = Some e → files (st_local s) !! e = None →
  d ≠ e →
  ∃ s', copy (S k) src dest s = (Ret None, s')
    ∧ st_local s' = mkFs (<[e := Reg data]> (files (st_local s)))
                         (cwd (st_local s)).
Proof.
  intros Hstat Hdir Hopen Hd Hres He Hne.
  cbn [copy]. unfold bind at 1, os_Stat, local_query.
  change (sys_Stat src (st_local s)) with (Stat src (st_local s)).
  rewrite Hstat. cbn [result_err]. rewrite Hdir.
  unfold bind at 1, os_Open, local_query.
  change (sys_Open src _) with (Open src (st_local s)). rewrite Hopen.
  unfold bind at 1, os_Create, local_call.
  change (sys_Create dest _) with (Create dest (st_local s)).
  rewrite (Create_new _ _ e) by done.
  unfold bind at 1, io_Copy, local_effect.
  cbn [st_local log with_local].
  change (sys_Copy ?a ?b ?f) with (Copy a b f).
  rewrite (Copy_at _ _ _ "" data).
  - cbn. eexists. split; [reflexivity|]. cbn.
    by rewrite overwrite_empty, insert_insert_eq.
  - cbn. by rewrite lookup_insert_ne.
  - cbn. by rewrite lookup_insert_eq.
Qed.

(** *** The copy of a tree *)

(** What a run of [copy] bounded by [k] achieves: from a source that is
    no deeper than [k] into a destination that is vacant (or, for a
    directory, present and empty), apart from the source. *)
Definition copies (k : nat) : Prop :=
  ∀ (s : State) (src dest : string) (d e : list string),
    let f := st_local s in
    tree_ok (files f) →
    resolve f src = Some d → is_Some (files f !! d) →
    (∀ rel, is_Some (files f !! (d ++ rel)) → length rel < k) →
    resolve f dest = Some e →
    vacant (files f) e ∨ (files f !! d = Some Dir ∧ empty_dir (files f) e) →
    apart d e →
    ∃ s', copy k src dest s = (Ret None, s')
      ∧ cwd (st_local s') = cwd f
      ∧ mirrors (files f) (files (st_local s')) d e
      ∧ tree_ok (files (st_local s')).

Lemma dirs_kept_resolve (f f' : fs) p q :
  cwd f' = cwd f →
  (∀ x, files f !! x = Some Dir → files f' !! x = Some Dir) →
  resolve f p = Some q → resolve f' p = Some q.
Proof.
  intros Hcwd Hkeep. apply resolve_mono; [done|].
  intros x. rewrite !is_dir_true. apply Hkeep.
Qed.

Lemma copy_entries_mirrors k :
  copies k →
  ∀ (infos : list FileInfo) (s : State) (src dest : string)
    (d e : list string) (t1 : tree),
    let f := st_local s in
    tree_ok (files f) →
    resolve f src = Some d → resolve f dest = Some e →
    files f !! d = Some Dir → files f !! e = Some Dir →
    NoDup (fi_Name <$> infos) →
    (∀ n, n ∈ fi_Name <$> infos → is_Some (t1 !! (d ++ [n]))) →
    (∀ n rel, n ∈ fi_Name <$> infos → files f !! (e ++ n :: rel) = None) →
    (∀ rel, files f !! (d ++ rel) = t1 !! (d ++ rel)) →
    (∀ rel, is_Some (t1 !! (d ++ rel)) → length rel < S k) →
    apart d e →
    ∃ s', copy_entries (copy k) src dest infos s = (Ret None, s')
      ∧ cwd (st_local s') = cwd f
      ∧ tree_ok (files (st_local s'))
      ∧ (∀ n rel, n ∈ fi_Name <$> infos →
           files (st_local s') !! (e ++ n :: rel) = t1 !! (d ++ n :: rel))
      ∧ (∀ p, (∀ n, n ∈ fi_Name <$> infos → ¬ (e ++ [n]) `prefix_of` p) →
           files (st_local s') !! p = files f !! p).
Proof.
  intros IH. induction infos as [|info infos IHl];
    intros s src dest d e t1 f Hok Hsrc Hdest Hd He Hnd Hchild Hfresh Hsame Hdepth Hapart.
  { exists s. cbn. split; [done|split; [done|split; [done|split; [|done]]]].
    intros n rel Hin. by apply elem_of_nil in Hin. }
  set (n := fi_Name info).
  cbn [fmap list_fmap] in Hnd. apply NoDup_cons in Hnd as [Hn Hnd].
  assert (is_Some (files f !! (d ++ [n]))) as Hentry.
  { rewrite Hsame. apply Hchild. by left. }
  assert (name_ok n) as Hname.
  { destruct Hok as [_ Hok]. by destruct (Hok _ _ Hentry). }
  destruct Hok as [Hroot Hok']. pose proof (conj Hroot Hok') as Hok.
  (* the recursive call on this entry *)
  destruct (IH s (Join src n) (Join dest n) (d ++ [n]) (e ++ [n])) as
    (s1 & Hrun & Hcwd1 & [Hmir1 Hframe1] & Hok1).
  - done.
  - apply resolve_Join; try done. by apply is_dir_true.
  - done.
  - intros rel Hs. rewrite <- app_assoc in Hs. rewrite Hsame in Hs.
    apply Hdepth in Hs. simpl in Hs. lia.
  - apply resolve_Join; try done. by apply is_dir_true.
  - left. split.
    + intros rel. rewrite <- app_assoc. apply Hfresh. by left.
    + by exists e, n.
  - by apply apart_below.
  - (* the rest of the entries *)
    assert (∀ x, files f !! x = Some Dir → files (st_local s1) !! x = Some Dir)
      as Hkeep.
    { intros x Hx. rewrite Hframe1; [done|]. intros [rel ->].
      rewrite <- app_assoc in Hx. change ([n] ++ rel) with (n :: rel) in Hx.
      rewrite Hfresh in Hx; [done|by left]. }
    destruct (IHl s1 src dest d e t1) as (s2 & Hrun2 & Hcwd2 & Hok2 & Hmir2 & Hframe2).
    + done.
    + by apply (dirs_kept_resolve f).
    + by apply (dirs_kept_resolve f).
    + by apply Hkeep.
    + by apply Hkeep.
    + done.
    + intros m Hm. apply Hchild. by right.
    + intros m rel Hm. rewrite Hframe1; [apply Hfresh; by right|].
      apply not_prefix_sibling. intros Heq. apply Hn. fold n. by rewrite Heq.
    + intros rel. rewrite Hframe1; [apply Hsame|].
      apply apart_sym in Hapart. by apply (apart_below e d [n] rel).
    + done.
    + done.
    + exists s2. split; [|split; [etrans; [exact Hcwd2|exact Hcwd1]|split; [done|split]]].
      * cbn [copy_entries]. unfold bind at 1. fold n. by rewrite Hrun.
      * intros m rel Hm. cbn [fmap list_fmap] in Hm. fold n in Hm.
        apply elem_of_cons in Hm as [->|Hm]; [|by apply Hmir2].
        rewrite Hframe2.
        -- change (e ++ n :: rel) with (e ++ [n] ++ rel).
           rewrite app_assoc, Hmir1, <- app_assoc, Hsame. done.
        -- intros m Hm. apply not_prefix_sibling. intros Heq. apply Hn. fold n.
           by rewrite <- Heq.
      * intros p Hp. rewrite Hframe2.
        -- apply Hframe1. apply Hp. by left.
        -- intros m Hm. apply Hp. by right.
Qed.

Lemma MkdirAll_destination f p perm d e :
  tree_ok (files f) → resolve f p = Some e →
  vacant (files f) e ∨ (files f !! d = Some Dir ∧ empty_dir (files f) e) →
  ∃ f1, MkdirAll p perm f = (None, f1)
    ∧ cwd f1 = cwd f
    ∧ files f1 !! e = Some Dir
    ∧ tree_ok (files f1)
    ∧ (∀ q, q ≠ e → files f1 !! q = files f !! q)
    ∧ (∀ rel, rel ≠ [] → files f1 !! (e ++ rel) = None).
Proof.
  intros Hok Hres [[Hnone (q & n & -> & Hq & Hn)]|[_ [He Hnone]]].
  - pose proof (Hnone []) as He. rewrite app_nil_r in He.
    exists (mkFs (<[q ++ [n] := Dir]> (files f)) (cwd f)).
    split; [by apply MkdirAll_new|]. cbn.
    split; [done|]. split; [by rewrite lookup_insert_eq|].
    split; [by eapply tree_ok_insert|].
    split.
    + intros x Hx. by rewrite lookup_insert_ne.
    + intros rel Hrel. rewrite lookup_insert_ne; [apply Hnone|].
      intros Heq. apply (not_prefix_longer (q ++ [n]) rel Hrel). by rewrite <- Heq.
  - exists f. split; [by eapply MkdirAll_there|]. done.
Qed.

Lemma apart_ne d e rel : apart d e → d ++ rel ≠ e.
Proof. intros [Hde _] <-. apply Hde. by apply prefix_app_r. Qed.

Lemma copies_all k : copies k.
Proof.
  induction k as [|k IH];
    intros s src dest d e f Hok Hsrc [nd Hd] Hdepth Hdest Hdst Hapart.
  { specialize (Hdepth []). rewrite app_nil_r in Hdepth.
    assert (length (@nil string) < 0) by (apply Hdepth; by exists nd). simpl in *. lia. }
  destruct nd as [|data].
  - (* a directory *)
    pose proof (Stat_at f src d Dir Hsrc Hd) as Hstat.
    rewrite (copy_directory_step k src dest s _ Hstat eq_refl). cbv zeta.
    destruct (MkdirAll_destination f dest (fi_Mode (info_of (Base src) Dir)) d e
                Hok Hdest Hdst) as (f1 & Hmk & Hcwd1 & He1 & Hok1 & Hrest1 & Hbelow1).
    fold f. rewrite Hmk. cbn [fst snd].
    assert (∀ rel, files f1 !! (d ++ rel) = files f !! (d ++ rel)) as Hsrc1.
    { intros rel. apply Hrest1. by apply apart_ne. }
    assert (∀ x, files f !! x = Some Dir → files f1 !! x = Some Dir) as Hkeep.
    { intros x Hx. destruct (decide (x = e)) as [->|Hne]; [done|].
      by rewrite Hrest1. }
    assert (files f1 !! d = Some Dir) as Hd1.
    { apply Hkeep. done. }
    pose proof (dirs_kept_resolve f f1 src d Hcwd1 Hkeep Hsrc) as Hrsrc1.
    pose proof (dirs_kept_resolve f f1 dest e Hcwd1 Hkeep Hdest) as Hrdest1.
    destruct (ReadDir_at f1 src d Hrsrc1 Hd1) as (infos & Hread & Hnd & Hnames).
    rewrite Hread. cbn [result_err].
    match goal with |- context [copy_entries _ _ _ _ ?x] => set (s3 := x) end.
    destruct (copy_entries_mirrors k IH infos s3 src dest d e (files f1))
      as (s' & Hrun & Hcwd' & Hok' & Hmir & Hframe); try done.
    + intros n Hn. by apply Hnames.
    + intros n rel Hn. by apply Hbelow1.
    + intros rel Hs. apply Hdepth. by rewrite <- Hsrc1.
    + exists s'. split; [done|]. split; [by rewrite Hcwd'|]. split; [|done].
      split.
      * intros [|n rel].
        -- rewrite !app_nil_r, Hd. rewrite Hframe; [done|].
           intros n _. by apply not_prefix_longer.
        -- destruct (decide (n ∈ fi_Name <$> infos)) as [Hin|Hout].
           ++ by rewrite Hmir, Hsrc1.
           ++ assert (files f1 !! (d ++ n :: rel) = None) as Hnone.
              { apply eq_None_not_Some. intros Hs. apply Hout, Hnames.
                apply (tree_ok_ancestor _ _ rel Hok1). by rewrite <- app_assoc. }
              rewrite <- Hsrc1, Hnone. rewrite Hframe; [by apply Hbelow1|].
              intros m Hm. apply not_prefix_sibling. by intros ->.
      * intros p Hp. rewrite Hframe.
        -- apply Hrest1. by intros ->.
        -- intros n _ Hpre. apply Hp. etrans; [|exact Hpre]. by apply prefix_app_r.
  - (* a file *)
    destruct Hdst as [[Hnone (q & n & Heq & Hq & Hn)]|[Hdir _]]; [|congruence].
    pose proof (Hnone []) as He. rewrite app_nil_r in He.
    destruct (copy_file_step k src dest s (info_of (Base src) (Reg data)) d e data)
      as (s' & Hrun & Hst); try done.
    + by eapply Stat_at.
    + apply Open_at; [done|by eexists].
    + by apply (apart_ne d e []) in Hapart; rewrite app_nil_r in Hapart.
    + exists s'. split; [done|]. rewrite Hst. cbn. split; [done|]. split; [split|].
      * intros [|m rel].
        -- by rewrite !app_nil_r, lookup_insert_eq.
        -- rewrite lookup_insert_ne.
           ++ fold f. rewrite Hnone. symmetry. by eapply tree_ok_below_file.
           ++ intros Heq'. apply (not_prefix_longer e (m :: rel)); [done|].
              by rewrite <- Heq'.
      * intros p Hp. rewrite lookup_insert_ne; [done|]. by intros ->.
      * by eapply tree_ok_insert.
Qed.

(** A tree is finite: its entries are no deeper than some bound. *)
Lemma tree_depth (t : tree) : ∃ k, ∀ p, is_Some (t !! p) → length p < k.
Proof.
  exists (S (max_list (length <$> (map_to_list t).*1))).
  intros p [nd Hp]. apply Nat.lt_succ_r, max_list_elem_of_le.
  apply list_elem_of_fmap. exists p. split; [done|].
  apply list_elem_of_fmap. exists (p, nd). split; [done|].
  by apply elem_of_map_to_list.
Qed.

(** *** Checking a given tree *)

Definition name_okb (n : string) : bool :=
  bool_decide (split n = [n]) && negb (bool_decide (n = ""))
  && negb (bool_decide (n = ".")) && negb (bool_decide (n = "..")).

Definition entry_okb (t : tree) (p : list string) : bool :=
  match p with
  | [] => true
  | _ => is_dir t (removelast p) && name_okb (List.last p "")
  end.

Definition tree_okb (t : tree) : bool :=
  is_dir t [] && forallb (entry_okb t) (map_to_list t).*1.

Definition nothing_below (t : tree) (e : list string) : bool :=
  forallb (λ p, bool_decide (p = e) || negb (bool_decide (e `prefix_of` p)))
          (map_to_list t).*1.

Lemma name_okb_ok n : name_okb n = true → name_ok n.
Proof.
  unfold name_okb, name_ok, no_slash. rewrite !andb_true_iff, !negb_true_iff.
  rewrite !bool_decide_eq_false, bool_decide_eq_true. tauto.
Qed.

Lemma key_listed (t : tree) p : is_Some (t !! p) → p ∈ (map_to_list t).*1.
Proof.
  intros [nd Hp]. apply list_elem_of_fmap. exists (p, nd). split; [done|].
  by apply elem_of_map_to_list.
Qed.

Lemma tree_okb_ok t : tree_okb t = true → tree_ok t.
Proof.
  unfold tree_okb. rewrite andb_true_iff, forallb_forall. intros [Hroot Hall].
  split; [by apply is_dir_true|]. intros p n Hs.
  apply key_listed, list_elem_of_In, Hall in Hs. unfold entry_okb in Hs.
  rewrite removelast_last, last_last in Hs.
  destruct (p ++ [n]) eqn:Heq; [by destruct p|].
  apply andb_true_iff in Hs as [Hp Hn]. split; [by apply is_dir_true|].
  by apply name_okb_ok.
Qed.

Lemma nothing_below_ok t e :
  nothing_below t e = true → ∀ rel, rel ≠ [] → t !! (e ++ rel) = None.
Proof.
  unfold nothing_below. rewrite forallb_forall. intros Hall rel Hrel.
  apply eq_None_not_Some. intros Hs.
  apply key_listed, list_elem_of_In, Hall in Hs.
  apply orb_true_iff in Hs as [Hs|Hs].
  - apply bool_decide_eq_true in Hs. apply (not_prefix_longer e rel Hrel).
    by rewrite Hs.
  - apply negb_true_iff, bool_decide_eq_false in Hs. apply Hs.
    by apply prefix_app_r.
Qed.

(** *** Copying a directory into itself *)

(** [copy] from a directory with a single entry into that very entry
    descends for ever: each level makes the directory that the next
    level reads. *)
Lemma copy_into_only_entry fuel :
  ∀ (s : State) (src dest : string) (d : list string) (n : string),
    let f := st_local s in
    tree_ok (files f) →
    resolve f src = Some d → files f !! d = Some Dir →
    resolve f dest = Some (d ++ [n]) →
    (∀ m, is_Some (files f !! (d ++ [m])) → m = n) →
    vacant (files f) (d ++ [n]) ∨ empty_dir (files f) (d ++ [n]) →
    (copy fuel src dest s).1 ≠ Ret None.
Proof.
  induction fuel as [|k IH]; intros s src dest d n f Hok Hsrc Hd Hdest Honly Hdst.
  { done. }
  pose proof (Stat_at f src d Dir Hsrc Hd) as Hstat.
  rewrite (copy_directory_step k src dest s _ Hstat eq_refl). cbv zeta.
  destruct (MkdirAll_destination f dest (fi_Mode (info_of (Base src) Dir)) d (d ++ [n])
              Hok Hdest) as (f1 & Hmk & Hcwd1 & He1 & Hok1 & Hrest1 & Hbelow1).
  { destruct Hdst as [?|?]; [by left|by right]. }
  fold f. rewrite Hmk. cbn [fst snd].
  assert (∀ x, files f !! x = Some Dir → files f1 !! x = Some Dir) as Hkeep.
  { intros x Hx. destruct (decide (x = d ++ [n])) as [->|Hne]; [done|].
    by rewrite Hrest1. }
  pose proof (Hkeep _ Hd) as Hd1.
  pose proof (dirs_kept_resolve f f1 src d Hcwd1 Hkeep Hsrc) as Hrsrc1.
  pose proof (dirs_kept_resolve f f1 dest _ Hcwd1 Hkeep Hdest) as Hrdest1.
  destruct (ReadDir_at f1 src d Hrsrc1 Hd1) as (infos & Hread & Hnd & Hnames).
  rewrite Hread. cbn [result_err].
  assert (∀ m, m ∈ fi_Name <$> infos → m = n) as Hall.
  { intros m Hm. apply Hnames in Hm.
    destruct (decide (m = n)) as [|Hne]; [done|]. apply Honly.
    rewrite <- Hrest1; [done|]. intros Heq. by apply app_inj_tail in Heq as [_ ?]. }
  assert (n ∈ fi_Name <$> infos) as Hin by (apply Hnames; by rewrite He1).
  destruct infos as [|info infos]; [by apply elem_of_nil in Hin|].
  assert (fi_Name info = n) as Hname by (apply Hall; left).
  cbn [copy_entries]. unfold bind at 1. rewrite Hname.
  match goal with |- context [copy k _ _ ?x] => set (s3 := x) end.
  assert (name_ok n) as Hn.
  { destruct Hok1 as [_ Hok1]. apply (Hok1 d n). by rewrite He1. }
  destruct Hok1 as [Hroot1 Hok1']. pose proof (conj Hroot1 Hok1') as Hok1.
  specialize (IH s3 (Join src n) (Join dest n) (d ++ [n]) n).
  destruct (copy k (Join src n) (Join dest n) s3) as [[[err|]|c|msg|] s4] eqn:Hrun;
    try done.
  exfalso. apply IH; try done.
  - apply resolve_Join; try done. by apply is_dir_true.
  - apply resolve_Join; try done. by apply is_dir_true.
  - intros m [x Hm]. rewrite Hbelow1 in Hm; done.
  - left. split.
    + intros rel. rewrite <- app_assoc. by apply Hbelow1.
    + by exists (d ++ [n]), n.
Qed.

(** A file system with a directory [/r] that holds an empty directory
    [/r/e] and nothing else. *)
Definition nested : fs :=
  mkFs (<[ ["r"; "e"] := Dir ]> (<[ ["r"] := Dir ]> {[ [] := Dir ]})) [].

(** A file system with a directory [/r] of two files and a directory,
    and nothing at [/e]. *)
Definition sample : fs :=
  mkFs (<[ ["r"; "sub"; "b"] := Reg "yo" ]>
       (<[ ["r"; "sub"] := Dir ]>
       (<[ ["r"; "a"] := Reg "hi" ]>
       (<[ ["r"] := Dir ]> {[ [] := Dir ]})))) [].

(** C2, as stated, fails: the destination may lie inside the source.
    In [nested], [/r] is a directory and [/r/e] an empty directory, and
    [copy "/r" "/r/e"] succeeds with no amount of fuel. *)
Lemma copy_into_own_subdirectory :
  files nested !! ["r"] = Some Dir
  ∧ empty_dir (files nested) ["r"; "e"]
  ∧ ¬ ∃ fuel, (copy fuel "/r" "/r/e" (boot nested [])).1 = Ret None.
Proof.
  assert (tree_ok (files nested)) as Hok by (by apply tree_okb_ok).
  assert (empty_dir (files nested) ["r"; "e"]) as Hempty.
  { split; [done|]. by apply nothing_below_ok. }
  split; [done|]. split; [done|]. intros [fuel Hrun]. revert Hrun.
  apply (copy_into_only_entry fuel (boot nested []) "/r" "/r/e" ["r"] "e");
    try done.
  - intros m [nd Hm]. cbn in Hm.
    destruct (decide (m = "e")) as [|Hne]; [done|].
    rewrite !lookup_insert_ne in Hm by congruence. by rewrite lookup_singleton_ne in Hm.
  - by right.
Qed.

(** C2 (amended): on the Unix file system, from a directory [d] into a
    destination [e] that is vacant or an empty directory, and with
    neither of [d] and [e] inside the other, [copy] succeeds once it has
    the fuel for the depth of the tree; afterwards the tree holds at and
    below [e] exactly what it held at and below [d] (the same entries,
    the same bytes in each file) and elsewhere what it held before. *)
Theorem copy_mirrors_directory (s : State) (src dest : string) (d e : list string) :
  let f := st_local s in
  tree_ok (files f) →
  resolve f src = Some d → files f !! d = Some Dir →
  resolve f dest = Some e →
  vacant (files f) e ∨ empty_dir (files f) e →
  apart d e →
  ∃ k : nat, ∀ fuel : nat, (k ≤ fuel)%nat →
    ∃ s', copy fuel src dest s = (Ret None, s')
      ∧ mirrors (files f) (files (st_local s')) d e.
Proof.
  intros f Hok Hsrc Hd Hdest Hdst Hapart.
  destruct (tree_depth (files f)) as [k Hk]. exists k. intros fuel Hle.
  destruct (copies_all fuel s src dest d e) as (s' & Hrun & _ & Hmir & _);
    try done.
  - intros rel Hs. apply Hk in Hs. rewrite length_app in Hs. lia.
  - destruct Hdst as [?|?]; [by left|by right].
  - by exists s'.
Qed.

Lemma copy_mirrors_directory_witness :
  tree_ok (files sample)
  ∧ resolve sample "/r" = Some ["r"]
  ∧ files sample !! ["r"] = Some Dir
  ∧ resolve sample "/e" = Some ["e"]
  ∧ vacant (files sample) ["e"]
  ∧ apart ["r"] ["e"]
  ∧ ∃ k : nat, ∀ fuel : nat, (k ≤ fuel)%nat →
      ∃ s', copy fuel "/r" "/e" (boot sample []) = (Ret None, s')
        ∧ mirrors (files sample) (files (st_local s')) ["r"] ["e"].
Proof.
  assert (tree_ok (files sample)) as Hok
    by (apply tree_okb_ok; vm_compute; reflexivity).
  assert (vacant (files sample) ["e"]) as Hvacant.
  { split.
    - intros [|n rel]; [vm_compute; reflexivity|].
      change (["e"] ++ n :: rel) with (["e"] ++ (n :: rel)).
      apply nothing_below_ok; [vm_compute; reflexivity|discriminate].
    - exists [], "e". split; [reflexivity|]. split; [vm_compute; reflexivity|].
      apply name_okb_ok. vm_compute. reflexivity. }
  assert (apart ["r"] ["e"]) as Hapart
    by (split; intros [k Hk]; discriminate Hk).
  split; [exact Hok|]. split; [vm_compute; reflexivity|].
  split; [vm_compute; reflexivity|]. split; [vm_compute; reflexivity|].
  split; [exact Hvacant|]. split; [exact Hapart|].
  apply (copy_mirrors_directory (boot sample []) "/r" "/e" ["r"] ["e"]).
  - exact Hok.
  - vm_compute. reflexivity.
  - vm_compute. reflexivity.
  - vm_compute. reflexivity.
  - left. exact Hvacant.
  - exact Hapart.
Defined.

(** What the copy of [sample] holds, with the fuel of four levels. *)
Lemma copy_of_sample :
  let out := copy 4 "/r" "/e" (boot sample []) in
  out.1 = Ret None
  ∧ files (st_local out.2) !! ["e"] = Some Dir
  ∧ files (st_local out.2) !! ["e"; "a"] = Some (Reg "hi")
  ∧ files (st_local out.2) !! ["e"; "sub"] = Some Dir
  ∧ files (st_local out.2) !! ["e"; "sub"; "b"] = Some (Reg "yo").
Proof. vm_compute. repeat split. Qed.

End FsFacts.

(** ** Runs on given machines *)
Module Examples.
Import Path Unix JSON Canonical PathFacts FsFacts.

(** A text between double quotes. *)
Definition quoted (s : string) : string :=
  String dquote (s +:+ String dquote "").

(** A member of a JSON object. *)
Definition member (key value : string) : string :=
  quoted key +:+ ":" +:+ value.

(** The text of a configuration file in which [current] is the current
    repository and [name] the one repository there is, of type [ty] and
    at [/r]. *)
Definition config_text (current name ty : string) : string :=
  "{" +:+ member "current" (quoted current) +:+ ","
  +:+ member "repositories"
        ("{" +:+ member name
                   ("{" +:+ member "type" (quoted ty) +:+ ","
                    +:+ member "path" (quoted "/r") +:+ "}")
         +:+ "}")
  +:+ "}".

(** A machine whose working directory [/w] holds the configuration file
    with the text [cfg], and with a directory [/r] of one file and one
    directory. *)
Definition machine (cfg : string) : fs :=
  mkFs (list_to_map
          [ ([], Dir); (["r"], Dir); (["r"; "a"], Reg "hi");
            (["r"; "sub"], Dir); (["w"], Dir);
            (["w"; "config"], Dir);
            (["w"; "config"; "config.json"], Reg cfg) ])
       ["w"].

(** An SSH server on which the home directory of the user [u] holds the
    files [ab] and [c] and a directory [docs] of one file. *)
Definition server : Unix.server :=
  mkServer "h" 22 "u" "pw" ""
    (mkFs (list_to_map
             [ ([], Dir); (["home"], Dir); (["home"; "u"], Dir);
               (["home"; "u"; "ab"], Reg "hi");
               (["home"; "u"; "c"], Reg "sea");
               (["home"; "u"; "docs"], Dir);
               (["home"; "u"; "docs"; "x"], Reg "ex") ])
          ["home"; "u"]).

(** A machine with an empty working directory [/w]. *)
Definition desk : fs := mkFs (list_to_map [ ([], Dir); (["w"], Dir) ]) ["w"].

(** What is at [p] on the local machine when the run is over. *)
Definition at_end {A} (out : Res A * State) (p : list string) : option node :=
  files (st_local out.2) !! p.

(** The configuration the file holds when the run is over. *)
Definition config_at_end {A} (out : Res A * State) : option Config :=
  match at_end out ["w"; "config"; "config.json"] with
  | Some (Reg data) => Some (Unmarshal data zeroConfig).1
  | _ => None
  end.

(** *** Downloading a directory *)

(** From an absolute remote path every entry arrives where its relative
    path says. *)
Lemma download_of_absolute_path :
  let out := downloadDirectory 20 (0%nat : SftpClient) "/home/u" "/w/out"
               (boot desk [server]) in
  out.1 = Ret None
  ∧ at_end out ["w"; "out"] = Some Dir
  ∧ at_end out ["w"; "out"; "ab"] = Some (Reg "hi")
  ∧ at_end out ["w"; "out"; "c"] = Some (Reg "sea")
  ∧ at_end out ["w"; "out"; "docs"] = Some Dir
  ∧ at_end out ["w"; "out"; "docs"; "x"] = Some (Reg "ex").
Proof. vm_compute. repeat split. Qed.

(** C1: the claim fails on the code when the remote path is the dot,
    which is what [get .] asks for in an ssh repository without a path.
    The walker then yields [ab], [c], [docs] and [docs/x], from each of
    which [downloadDirectory] cuts as many bytes as the remote path has,
    one: [ab] is written to [b], [c] is taken for the root and skipped,
    and [docs] becomes [ocs]. *)
Theorem download_of_dot_misplaces_entries :
  let out := downloadDirectory 20 (0%nat : SftpClient) "." "/w/out"
               (boot desk [server]) in
  out.1 = Ret None
  ∧ at_end out ["w"; "out"] = Some Dir
  ∧ at_end out ["w"; "out"; "ab"] = None
  ∧ at_end out ["w"; "out"; "b"] = Some (Reg "hi")
  ∧ at_end out ["w"; "out"; "c"] = None
  ∧ at_end out ["w"; "out"; "docs"] = None
  ∧ at_end out ["w"; "out"; "ocs"] = Some Dir
  ∧ at_end out ["w"; "out"; "ocs"; "x"] = Some (Reg "ex").
Proof. vm_compute. repeat split. Qed.

(** The same through [main]: the command [get .] in an ssh repository
    without a path. *)
Definition ssh_text : string :=
  "{" +:+ member "current" (quoted "s") +:+ ","
  +:+ member "repositories"
        ("{" +:+ member "s"
                   ("{" +:+ member "type" (quoted "ssh") +:+ ","
                    +:+ member "host" (quoted "h") +:+ ","
                    +:+ member "port" "22" +:+ ","
                    +:+ member "user" (quoted "u") +:+ ","
                    +:+ member "password" (quoted "pw") +:+ "}")
         +:+ "}")
  +:+ "}".

Lemma get_of_dot_misplaces_entries :
  let out := main 20 ["get"; "."] (boot (machine ssh_text) [server]) in
  out.1 = Ret tt
  ∧ at_end out ["w"; "ab"] = None
  ∧ at_end out ["w"; "b"] = Some (Reg "hi")
  ∧ at_end out ["w"; "c"] = None
  ∧ at_end out ["w"; "ocs"; "x"] = Some (Reg "ex").
Proof. vm_compute. repeat split. Qed.

(** *** Loading a file that is not JSON *)

(** C7: the claim fails on the code for a configuration file that holds
    an opening brace and nothing else.  It is not JSON, and
    [json.Unmarshal] says so; [loadConfig] drops that error and returns
    the zero [Config] with a nil error, after which [show] runs and the
    process ends with status 0. *)
Theorem malformed_config_is_loaded :
  let s := boot (machine "{") [] in
  parse "{" = None
  ∧ is_Some (Unmarshal "{" zeroConfig).2
  ∧ (loadConfig s).1 = Ret (Ok zeroConfig)
  ∧ exit_status (main 5 ["show"] s).1 = Some 0%Z.
Proof. vm_compute. repeat split. by eexists. Qed.

(** *** cd in a local repository *)

(** [cd sub] in the repository at [/r]: the path [/r/sub] is asked
    about, is a directory, and is what the saved file then says. *)
Lemma cd_into_directory_is_saved :
  let s := boot (machine (config_text "f" "f" "local")) [] in
  let out := main 5 ["cd"; "sub"] s in
  exit_status out.1 = Some 0%Z
  ∧ (λ c, (map_index (c_Repositories c) "f").1) <$> config_at_end out
    = Some (mkRepository "local" "/r/sub" "" 0 "" "" "").
Proof. vm_compute. split; reflexivity. Qed.

(** [cd a], where [/r/a] is a file: status 1 and the file as it was. *)
Lemma cd_into_file_is_refused :
  let s := boot (machine (config_text "f" "f" "local")) [] in
  let out := main 5 ["cd"; "a"] s in
  exit_status out.1 = Some 1%Z
  ∧ st_local out.2 = st_local s.
Proof. vm_compute. split; reflexivity. Qed.

(** *** cd in a repository of another type *)


(** *** No command *)


(** *** The current repository *)

(** A configuration whose current repository, [x], is not among its
    repositories. *)
Definition stray : Config := (Unmarshal (config_text "x" "home" "local") zeroConfig).1.

(** A configuration whose one repository is named by the empty string,
    and is current. *)
Definition blank : Config := (Unmarshal (config_text "" "" "local") zeroConfig).1.

Lemma unknown_current_is_not_implemented_witness :
  let s := boot (machine (config_text "x" "home" "local")) [] in
  (map_index (c_Repositories stray) (c_Current stray)).2 = false
  ∧ showRepository stray s
    = (Ret tt, printed s ("Repository type '' not implemented yet."
                          +:+ JSON.newline))
  ∧ getRepository 5 stray "a" s
    = (Ret tt, printed s ("Repository type '' not implemented yet for 'get'."
                          +:+ JSON.newline))
  ∧ putRepository 5 stray "a" s
    = (Ret tt, printed s ("Repository type '' not implemented yet for 'put'."
                          +:+ JSON.newline))
  ∧ changeDirectory stray "a" s
    = (Ret stray, printed s ("Repository type '' not implemented yet for 'cd'."
                             +:+ JSON.newline)).
Proof.
  split; [vm_compute; reflexivity|].
  apply (unknown_current_is_not_implemented stray 5 "a").
  vm_compute. reflexivity.
Defined.

(** C9, as stated, fails: the current repository may be named by the
    empty string.  In [blank] the current name is empty and is a key;
    [show] then lists the directory of that repository. *)
Lemma empty_current_may_be_a_key :
  let s := boot (machine (config_text "" "" "local")) [] in
  c_Current blank = ""
  ∧ (map_index (c_Repositories blank) "").2 = true
  ∧ (showRepository blank s).1 = Ret tt
  ∧ st_out (showRepository blank s).2
    = ["a" +:+ newline; "sub/" +:+ newline].
Proof. vm_compute. repeat split. Qed.

(** *** Two files that differ in the order of their keys *)

Definition repository_text (members : list string) : string :=
  "{" +:+ join_with "," members +:+ "}".

Definition first_text : string :=
  "{" +:+ member "current" (quoted "a") +:+ ","
  +:+ member "repositories"
        ("{" +:+ member "b" (repository_text [member "type" (quoted "local");
                                              member "path" (quoted "/x")])
         +:+ "," +:+ member "a" (repository_text [member "path" (quoted "/y");
                                                  member "type" (quoted "ssh")])
         +:+ "}")
  +:+ "}".










(** The bytes saved for either of the two files. *)
Lemma saved_text_of_first :
  load_then_save first_text =
  join_with newline
    [ "{";
      "  " +:+ member "current" (" " +:+ quoted "a") +:+ ",";
      "  " +:+ member "repositories" " {";
      "    " +:+ member "a" " {";
      "      " +:+ member "type" (" " +:+ quoted "ssh") +:+ ",";
      "      " +:+ member "path" (" " +:+ quoted "/y");
      "    },";
      "    " +:+ member "b" " {";
      "      " +:+ member "type" (" " +:+ quoted "local") +:+ ",";
      "      " +:+ member "path" (" " +:+ quoted "/x");
      "    }";
      "  }";
      "}" ].
Proof. vm_compute. reflexivity. Qed.

End Examples.
(** * Further properties

    ** The commands over any operating system *)
Section Further.
Context `{Sys}.

(** *** list *)

(** The line [listRepositories] prints for an entry of the map. *)
Definition entry_line (current : string) (e : string * Repository) : string :=
  (if decide (e.1 = current) then " * " else "   ")
  +:+ e.1 +:+ " (" +:+ r_Type e.2 +:+ ", " +:+ r_Path e.2 +:+ ")"
  +:+ JSON.newline.

(** A line that marks the current repository. *)
Definition starred (line : string) : bool := JSON.has_prefix " * " line.

(** [s] with [lines] written to standard output. *)
Definition printed_lines (s : State) (lines : list string) : State :=
  mkState (st_local s) (st_net s) (st_trace s) (st_out s ++ lines).

Lemma for_each_prints {A} (l : list A) (text : A → string) (body : A → M unit) s :
  (∀ x s1, body x s1 = (Ret tt, printed s1 (text x))) →
  for_each l body s = (Ret tt, printed_lines s (text <$> l)).
Proof.
  intros Hbody. revert s. induction l as [|x l IH]; intros s.
  - destruct s. unfold printed_lines. cbn. by rewrite app_nil_r.
  - cbn [for_each]. unfold bind. rewrite Hbody, IH.
    unfold printed_lines, printed. cbn. by rewrite <- app_assoc.
Qed.

Lemma starred_entry_line current e :
  starred (entry_line current e) = bool_decide (e.1 = current).
Proof.
  unfold entry_line, starred. destruct (decide (e.1 = current)).
  - by rewrite bool_decide_eq_true_2.
  - by rewrite bool_decide_eq_false_2.
Qed.

Lemma starred_lines current (l : list (string * Repository)) :
  NoDup l.*1 →
  length (filter (λ line, starred line = true) (entry_line current <$> l))
  = if decide (current ∈ l.*1) then 1%nat else 0%nat.
Proof.
  induction l as [|e l IH]; intros Hnd.
  - cbn. destruct (decide _) as [Hin|]; [by apply elem_of_nil in Hin|done].
  - cbn [fmap list_fmap] in *. apply NoDup_cons in Hnd as [Hout Hnd].
    rewrite filter_cons, starred_entry_line.
    destruct (decide (e.1 = current)) as [Heq|Hne].
    + rewrite bool_decide_eq_true_2 by done.
      rewrite decide_True by done. cbn [length]. rewrite IH by done.
      rewrite decide_False by (by rewrite <- Heq).
      rewrite decide_True by (rewrite Heq; left). done.
    + rewrite bool_decide_eq_false_2 by done.
      rewrite decide_False by done. rewrite IH by done.
      destruct (decide (current ∈ l.*1)) as [Hin|Hnin].
      * rewrite decide_True by (by right). done.
      * rewrite decide_False; [done|]. intros [?|?]%elem_of_cons; congruence.
Qed.

(** X1: [listRepositories] prints the heading and then one line for
    each repository of the map, in some order, that of the current
    repository starting with an asterisk and the others with blanks:
    one line is so marked when [config.Current] is a key and none
    otherwise.  It makes no call, changes nothing and returns; for a
    nil map the heading is all it prints. *)
Theorem listRepositories_lists (config : Config) (s : State) :
  let g := default ∅ (c_Repositories config) in
  ∃ lines,
    listRepositories config s
    = (Ret tt,
       printed_lines s (("Available repositories:" +:+ JSON.newline) :: lines))
    ∧ lines ≡ₚ entry_line (c_Current config) <$> map_to_list g
    ∧ length lines = size g
    ∧ length (filter (λ line, starred line = true) lines)
      = (if decide (is_Some (g !! c_Current config)) then 1 else 0)%nat
    ∧ (c_Repositories config = None → lines = []).
Proof.
  intros g. exists (entry_line (c_Current config) <$> map_to_list g).
  split; [|split; [done|split; [|split]]].
  - unfold listRepositories, Println, Print, bind. fold g.
    rewrite (for_each_prints _ (entry_line (c_Current config))).
    + unfold printed_lines. cbn. by rewrite <- app_assoc.
    + intros [name repo] s1. unfold entry_line. cbn.
      destruct (decide (name = c_Current config)); reflexivity.
  - rewrite length_fmap. apply length_map_to_list.
  - rewrite starred_lines by apply NoDup_fst_map_to_list.
    destruct (decide (is_Some (g !! c_Current config))) as [[r Hr]|Hno].
    + rewrite decide_True; [done|].
      apply list_elem_of_fmap. exists (c_Current config, r). split; [done|].
      by apply elem_of_map_to_list.
    + rewrite decide_False; [done|]. intros Hin. apply Hno.
      apply list_elem_of_fmap in Hin as ([k r] & -> & Hin).
      apply elem_of_map_to_list in Hin. by exists r.
  - intros Hnil. unfold g. rewrite Hnil. cbn. by rewrite map_to_list_empty.
Qed.

(** *** main *)

(** X2: when the configuration file cannot be opened, every invocation,
    whatever its arguments (none, or a command that is not one), prints
    the error and exits with status 1, having done nothing else. *)
Theorem main_needs_configuration
  (fuel : nat) (args : list string) (s : State) (e : error) :
  sys_Open configPath (st_local s) = Err e →
  main fuel args s
  = (Exit 1,
     printed (log (CallOpen configPath) (Some e) s)
       ("Error loading configuration: " +:+ e +:+ JSON.newline)).
Proof.
  intros Hopen. unfold main, bind at 1, loadConfig, bind at 1, os_Open,
    local_query. rewrite Hopen. reflexivity.
Qed.

(** X3: [main] looks at the command and at the one argument after it:
    what follows them is ignored, and [list], [show] and a command that
    is none of the six ignore all that follows the command. *)
Theorem main_ignores_further_arguments
  (fuel : nat) (command a : string) (rest : list string) (s : State) :
  main fuel (command :: a :: rest) s = main fuel [command; a] s
  ∧ (command = "list" ∨ command = "show" ∨ command ∉ commands →
     main fuel (command :: a :: rest) s = main fuel [command] s).
Proof.
  split; [reflexivity|]. intros Hc. unfold main, bind.
  destruct (loadConfig s) as [[[config|e]| | |] s1]; try reflexivity.
  destruct Hc as [->|[->|Hc]]; [reflexivity|reflexivity|].
  unfold commands in Hc.
  repeat (destruct (decide _) as [->|?];
          [exfalso; apply Hc; set_solver|]).
  reflexivity.
Qed.

(** *** The calls a run makes *)

(** Every call of a run of [m] is one of [P]. *)
Definition calls (P : Call → Prop) {A} (m : M A) : Prop :=
  ∀ s, ∃ new, st_trace (m s).2 = st_trace s ++ new
              ∧ Forall (λ ev, P (ev_call ev)) new.

Lemma calls_weaken (P Q : Call → Prop) {A} (m : M A) :
  (∀ c, P c → Q c) → calls P m → calls Q m.
Proof.
  intros HPQ Hm s. destruct (Hm s) as (new & Htr & Hall). exists new.
  split; [done|]. eapply Forall_impl; [exact Hall|]. intros ev. apply HPQ.
Qed.

Lemma calls_none (P : Call → Prop) {A} (m : M A) :
  (∀ s, st_trace (m s).2 = st_trace s) → calls P m.
Proof. intros Hm s. exists []. rewrite app_nil_r. split; [apply Hm|done]. Qed.

Lemma calls_one (P : Call → Prop) {A} (m : M A) (c : Call) :
  P c → (∀ s, ∃ e, st_trace (m s).2 = st_trace s ++ [mkEvent c e]) →
  calls P m.
Proof.
  intros Hc Hm s. destruct (Hm s) as [e He]. exists [mkEvent c e].
  split; [done|]. by repeat constructor.
Qed.

Lemma calls_bind (P : Call → Prop) {A B} (m : M A) (k : A → M B) :
  calls P m → (∀ a, calls P (k a)) → calls P (bind m k).
Proof.
  intros Hm Hk s. unfold bind. destruct (Hm s) as (new & Htr & Hall).
  destruct (m s) as [[a|c|msg|] s1]; cbn in *; try by exists new.
  destruct (Hk a s1) as (new' & Htr' & Hall'). exists (new ++ new').
  split; [by rewrite Htr', Htr, app_assoc|]. by apply Forall_app.
Qed.

Lemma calls_ret P {A} (a : A) : calls P (ret a).
Proof. by apply calls_none. Qed.

Lemma calls_exit P {A} code : calls P (os_Exit (A := A) code).
Proof. by apply calls_none. Qed.

Lemma calls_panic P {A} msg : calls P (panic (A := A) msg).
Proof. by apply calls_none. Qed.

Lemma calls_diverge P {A} : calls P (diverge (A := A)).
Proof. by apply calls_none. Qed.

Lemma calls_Print P text : calls P (Print text).
Proof. by apply calls_none. Qed.

Lemma calls_Close (P : Call → Prop) : P CallClose → calls P Close.
Proof. intros Hc. apply (calls_one P _ CallClose Hc). intros s. by exists None. Qed.

Lemma calls_local_query (P : Call → Prop) {A} c (f : Local → result A) :
  P c → calls P (local_query c f).
Proof. intros Hc. apply (calls_one P _ c Hc). intros s. by eexists. Qed.

Lemma calls_local_call (P : Call → Prop) {A} c (f : Local → result A * Local) :
  P c → calls P (local_call c f).
Proof.
  intros Hc. apply (calls_one P _ c Hc). intros s. unfold local_call.
  destruct (f (st_local s)). by eexists.
Qed.

Lemma calls_local_effect (P : Call → Prop) c (f : Local → option error * Local) :
  P c → calls P (local_effect c f).
Proof.
  intros Hc. apply (calls_one P _ c Hc). intros s. unfold local_effect.
  destruct (f (st_local s)). by eexists.
Qed.

Lemma calls_net_call (P : Call → Prop) {A} c (f : Net → result A * Net) :
  P c → calls P (net_call c f).
Proof.
  intros Hc. apply (calls_one P _ c Hc). intros s. unfold net_call.
  destruct (f (st_net s)). by eexists.
Qed.

Lemma calls_io_Copy_remote (P : Call → Prop) dst src :
  P CallDownload → calls P (io_Copy_remote dst src).
Proof.
  intros Hc. apply (calls_one P _ CallDownload Hc). intros s.
  unfold io_Copy_remote. destruct (sys_Download _ _ _ _) as [[e l] n].
  by eexists.
Qed.

Lemma calls_client_Upload (P : Call → Prop) client localPath remotePath :
  P (CallUpload localPath remotePath) →
  calls P (client_Upload client localPath remotePath).
Proof.
  intros Hc. apply (calls_one P _ _ Hc). intros s.
  unfold client_Upload. destruct (sys_Upload _ _ _ _ _) as [e n].
  by eexists.
Qed.

Lemma calls_for_each P {A} (l : list A) (body : A → M unit) :
  (∀ x, calls P (body x)) → calls P (for_each l body).
Proof.
  intros Hbody. induction l as [|x l IH]; cbn [for_each].
  - apply calls_ret.
  - apply calls_bind; [apply Hbody|]. intros _. apply IH.
Qed.

(** The structure of a run is followed down to the calls. *)
Ltac calls_step :=
  match goal with
  | |- calls _ (bind _ _) => apply calls_bind; [|intros ?]
  | |- calls _ (ret _) => apply calls_ret
  | |- calls _ (os_Exit _) => apply calls_exit
  | |- calls _ (panic _) => apply calls_panic
  | |- calls _ diverge => apply calls_diverge
  | |- calls _ (Print _) => apply calls_Print
  | |- calls _ (Println _) => apply calls_Print
  | |- calls _ (Println2 _ _) => apply calls_Print
  | |- calls _ Close => apply calls_Close
  | |- calls _ (local_query _ _) => apply calls_local_query
  | |- calls _ (local_call _ _) => apply calls_local_call
  | |- calls _ (local_effect _ _) => apply calls_local_effect
  | |- calls _ (net_call _ _) => apply calls_net_call
  | |- calls _ (io_Copy_remote _ _) => apply calls_io_Copy_remote
  | |- calls _ (client_Upload _ _ _) => apply calls_client_Upload
  | |- calls _ (for_each _ _) => apply calls_for_each; intros ?
  | |- calls _ (match ?x with _ => _ end) => destruct x
  | |- calls _ (if ?b then _ else _) => destruct b
  | |- calls _ (let _ := _ in _) => cbv zeta
  end.

Ltac calls_go :=
  unfold os_Stat, ioutil_ReadDir, os_Getwd, os_Open, ioutil_ReadAll, goph_Key,
    os_MkdirAll, os_Create, io_Copy, ioutil_WriteFile, goph_NewConn,
    client_NewSftp, sftp_ReadDir, sftp_Stat, sftp_Lstat, sftp_Open;
  repeat calls_step.

(** The calls of the functions. *)
Definition loading_call (c : Call) : Prop :=
  match c with
  | CallOpen f => f = configPath
  | CallReadAll | CallClose => True
  | _ => False
  end.

Definition connecting_call (c : Call) : Prop :=
  match c with
  | CallKey _ | CallNewConn => True
  | _ => False
  end.

Definition download_call (c : Call) : Prop :=
  match c with
  | CallMkdirAll _ | CallCreate _ | CallSftpLstat _ | CallSftpReadDir _
  | CallSftpOpen _ | CallDownload | CallClose => True
  | _ => False
  end.

Lemma loadConfig_calls : calls loading_call loadConfig.
Proof. unfold loadConfig. calls_go; done. Qed.

Lemma saveConfig_calls config :
  calls (λ c, c = CallWriteFile configPath) (saveConfig config).
Proof. unfold saveConfig. calls_go; done. Qed.

Lemma getSSHClient_calls repo : calls connecting_call (getSSHClient repo).
Proof. unfold getSSHClient. calls_go; done. Qed.

Lemma copy_calls_only fuel src dest : calls copy_call (copy fuel src dest).
Proof. intros s. apply copy_calls. Qed.

Lemma downloadFile_calls sftp remotePath localPath :
  calls download_call (downloadFile sftp remotePath localPath).
Proof. unfold downloadFile. calls_go; done. Qed.

Lemma walker_Step_calls sftp w : calls download_call (walker_Step sftp w).
Proof. unfold walker_Step. calls_go; done. Qed.

Lemma download_walk_calls fuel sftp remotePath localPath :
  ∀ w, calls download_call (download_walk fuel sftp remotePath localPath w).
Proof.
  induction fuel as [|fuel IH]; intros w; cbn [download_walk].
  - apply calls_diverge.
  - apply calls_bind; [apply walker_Step_calls|]. intros step.
    calls_go; try done; try apply IH. apply downloadFile_calls.
Qed.

Lemma downloadDirectory_calls fuel sftp remotePath localPath :
  calls download_call (downloadDirectory fuel sftp remotePath localPath).
Proof.
  unfold downloadDirectory, sftp_Walk. calls_go; try done.
  apply download_walk_calls.
Qed.

(** What an invocation with the command [command] may call.  Every
    invocation reads the configuration file. *)
Definition allowed (command : string) (c : Call) : Prop :=
  match c with
  | CallOpen f => f = configPath ∨ In command ["get"; "put"]
  | CallReadAll | CallClose => True
  | CallWriteFile f => f = configPath ∧ In command ["set"; "cd"]
  | CallStat _ => In command ["get"; "put"; "cd"]
  | CallReadDir _ => In command ["show"; "get"; "put"]
  | CallGetwd | CallMkdirAll _ | CallCreate _ | CallCopy =>
      In command ["get"; "put"]
  | CallKey _ | CallNewConn => In command ["show"; "get"; "put"; "cd"]
  | CallNewSftp => In command ["show"; "get"; "cd"]
  | CallSftpReadDir _ => In command ["show"; "get"]
  | CallSftpStat _ => In command ["get"; "cd"]
  | CallSftpLstat _ | CallSftpOpen _ | CallDownload => command = "get"
  | CallUpload _ _ => command = "put"
  end.

Ltac allowed_tac :=
  let c := fresh "c" in
  let Hc := fresh "Hc" in
  intros c Hc; destruct c; cbn in Hc |- *;
  try (exfalso; exact Hc); try discriminate Hc;
  try (injection Hc as ->); subst; tauto.

Ltac policy :=
  match goal with
  | |- calls _ _ => idtac
  | _ => cbn; tauto
  end.

Ltac calls_from L :=
  eapply calls_weaken; [|apply L]; allowed_tac.

Lemma showRepository_calls config :
  calls (allowed "show") (showRepository config).
Proof.
  unfold showRepository, print_entry. calls_go; policy.
  calls_from getSSHClient_calls.
Qed.

Lemma getRepository_calls fuel config name :
  calls (allowed "get") (getRepository fuel config name).
Proof.
  unfold getRepository. calls_go; policy.
  - calls_from copy_calls_only.
  - calls_from getSSHClient_calls.
  - calls_from downloadDirectory_calls.
  - calls_from downloadFile_calls.
Qed.

Lemma filepath_Abs_calls (P : Call → Prop) p :
  P CallGetwd → calls P (filepath_Abs p).
Proof. intros Hc. unfold filepath_Abs. calls_go; done. Qed.

Lemma putRepository_calls fuel config name :
  calls (allowed "put") (putRepository fuel config name).
Proof.
  unfold putRepository. calls_go; policy.
  - apply filepath_Abs_calls. cbn. tauto.
  - calls_from copy_calls_only.
  - calls_from getSSHClient_calls.
  - apply filepath_Abs_calls. cbn. tauto.
Qed.

Lemma setRepository_calls config name :
  calls (allowed "set") (setRepository config name).
Proof.
  unfold setRepository. calls_go; policy.
  calls_from saveConfig_calls.
Qed.

Lemma changeDirectory_calls config newDir :
  calls (allowed "cd") (changeDirectory config newDir).
Proof.
  unfold changeDirectory, resolve_directory. calls_go; policy.
  - calls_from getSSHClient_calls.
  - calls_from saveConfig_calls.
Qed.

(** X4: what an invocation calls is bounded by its command.  Besides
    the reading of the configuration file, which every invocation
    starts with, [list] and the usage make no call at all; only [set]
    and [cd] write a file through [ioutil.WriteFile], and the file is
    the configuration file; only [get] and [put] create files and
    directories; only [get] downloads and only [put] uploads; [show]
    reads a directory, here or there, and changes nothing. *)
Theorem main_calls_by_command (fuel : nat) (args : list string) (s : State) :
  ∃ new,
    st_trace (main fuel args s).2 = st_trace s ++ new
    ∧ Forall (λ ev, allowed (hd "" args) (ev_call ev)) new.
Proof.
  revert s. change (calls (allowed (hd "" args)) (main fuel args)).
  unfold main, printUsage, listRepositories.
  apply calls_bind; [calls_from loadConfig_calls|]. intros r.
  destruct r as [config|e]; [|calls_go].
  destruct args as [|command rest]; [calls_go|]. cbn [hd].
  repeat (destruct (decide _) as [->|?]); try (calls_go; fail).
  - destruct rest; [calls_go|]. apply calls_bind; [|intros; apply calls_ret].
    apply setRepository_calls.
  - apply showRepository_calls.
  - destruct rest; [calls_go|]. apply getRepository_calls.
  - destruct rest; [calls_go|]. apply putRepository_calls.
  - destruct rest; [calls_go|]. apply calls_bind; [|intros; apply calls_ret].
    apply changeDirectory_calls.
Qed.

(** *** Symbolic runs *)

(** One step of a symbolic run: a case distinction on the answer of the
    next call, or on the next test. *)
Ltac go_step :=
  match goal with
  | |- context [decide ?P] => destruct (decide P)
  | |- context [fi_IsDir ?i] => destruct (fi_IsDir i) eqn:?
  | |- context [sys_Stat ?a ?b] => destruct (sys_Stat a b) eqn:?
  | |- context [sys_ReadDir ?a ?b] => destruct (sys_ReadDir a b) eqn:?
  | |- context [sys_Getwd ?a] => destruct (sys_Getwd a) eqn:?
  | |- context [sys_Open ?a ?b] => destruct (sys_Open a b) eqn:?
  | |- context [sys_ReadAll ?a ?b] => destruct (sys_ReadAll a b) eqn:?
  | |- context [sys_Key ?a ?b ?c] => destruct (sys_Key a b c) eqn:?
  | |- context [sys_MkdirAll ?a ?b ?c] => destruct (sys_MkdirAll a b c) eqn:?
  | |- context [sys_Create ?a ?b] => destruct (sys_Create a b) eqn:?
  | |- context [sys_Copy ?a ?b ?c] => destruct (sys_Copy a b c) eqn:?
  | |- context [sys_WriteFile ?a ?b ?c ?d] =>
      destruct (sys_WriteFile a b c d) eqn:?
  | |- context [sys_NewConn ?a ?b ?c ?d ?e] =>
      destruct (sys_NewConn a b c d e) eqn:?
  | |- context [sys_NewSftp ?a ?b] => destruct (sys_NewSftp a b) eqn:?
  | |- context [sys_SftpReadDir ?a ?b ?c] =>
      destruct (sys_SftpReadDir a b c) eqn:?
  | |- context [sys_SftpStat ?a ?b ?c] => destruct (sys_SftpStat a b c) eqn:?
  | |- context [sys_SftpLstat ?a ?b ?c] => destruct (sys_SftpLstat a b c) eqn:?
  | |- context [sys_SftpOpen ?a ?b ?c] => destruct (sys_SftpOpen a b c) eqn:?
  | |- context [sys_Download ?a ?b ?c ?d] =>
      destruct (sys_Download a b c d) eqn:?
  | |- context [sys_Upload ?a ?b ?c ?d ?e] =>
      destruct (sys_Upload a b c d e) eqn:?
  | |- context [match ?x with _ => _ end] => is_var x; destruct x
  | |- context [if ?b then _ else _] =>
      match type of b with bool => destruct b eqn:? end
  end.

Ltac go_all := cbn; repeat (go_step; cbn).

(** The new events of a run that has been followed to its end. *)
Ltac new_events :=
  cbn; rewrite <- ?app_assoc; cbn;
  first [reflexivity | symmetry; apply app_nil_r].

(** *** Files are closed *)

(** A call that opens a file, and the call that closes one. *)
Definition opens (ev : Event) : bool :=
  match ev_call ev, ev_err ev with
  | CallOpen _, None | CallCreate _, None | CallSftpOpen _, None => true
  | _, _ => false
  end.

Definition closes (ev : Event) : bool :=
  match ev_call ev with CallClose => true | _ => false end.

(** As many files were closed as were opened. *)
Definition balanced (new : list Event) : Prop :=
  length (filter (λ ev, opens ev = true) new)
  = length (filter (λ ev, closes ev = true) new).

Definition tidy {A} (m : M A) : Prop :=
  ∀ s, ∃ new, st_trace (m s).2 = st_trace s ++ new ∧ balanced new.

Lemma balanced_app a b : balanced a → balanced b → balanced (a ++ b).
Proof. unfold balanced. rewrite !filter_app, !length_app. lia. Qed.

Lemma tidy_bind {A B} (m : M A) (k : A → M B) :
  tidy m → (∀ a, tidy (k a)) → tidy (bind m k).
Proof.
  intros Hm Hk s. unfold bind. destruct (Hm s) as (new & Htr & Hall).
  destruct (m s) as [[a|c|msg|] s1]; cbn in *; try by exists new.
  destruct (Hk a s1) as (new' & Htr' & Hall'). exists (new ++ new').
  split; [by rewrite Htr', Htr, app_assoc|]. by apply balanced_app.
Qed.

Lemma tidy_none {A} (m : M A) :
  (∀ s, st_trace (m s).2 = st_trace s) → tidy m.
Proof. intros Hm s. exists []. rewrite app_nil_r. split; [apply Hm|done]. Qed.

(** A run followed to its end is tidy when its events say so. *)
Ltac tidy_leaf := eexists; split; [new_events|reflexivity].

Lemma loadConfig_tidy : tidy loadConfig.
Proof.
  intros s. unfold loadConfig, bind, os_Open, ioutil_ReadAll, local_query,
    Close, ret.
  go_all; tidy_leaf.
Qed.

Lemma downloadFile_tidy sftp remotePath localPath :
  tidy (downloadFile sftp remotePath localPath).
Proof.
  intros s. unfold downloadFile, bind, sftp_Open, os_Create, io_Copy_remote,
    net_call, local_call, Close, Print, ret.
  go_all; tidy_leaf.
Qed.

Lemma copy_entries_tidy rec files :
  (∀ src dest, tidy (rec src dest)) →
  ∀ src dest, tidy (copy_entries rec src dest files).
Proof.
  intros Hrec. induction files as [|file rest IH]; intros src dest;
    cbn [copy_entries].
  - by apply tidy_none.
  - apply tidy_bind; [apply Hrec|]. intros [e|]; [by apply tidy_none|apply IH].
Qed.

Lemma tidy_call {A} (m : M A) (c : Call) :
  (∀ e, opens (mkEvent c e) = false) → closes (mkEvent c None) = false →
  (∀ s, ∃ e, st_trace (m s).2 = st_trace s ++ [mkEvent c e]) → tidy m.
Proof.
  intros Ho Hc Hm s. destruct (Hm s) as [e He]. exists [mkEvent c e].
  split; [done|]. unfold balanced. rewrite !filter_cons, !filter_nil.
  rewrite decide_False by (rewrite Ho; discriminate).
  rewrite decide_False; [done|]. destruct c; cbn in *; congruence.
Qed.

Lemma copy_tidy fuel : ∀ src dest, tidy (copy fuel src dest).
Proof.
  induction fuel as [|fuel IH]; intros src dest; cbn [copy].
  - by apply tidy_none.
  - apply tidy_bind.
    { apply (tidy_call _ (CallStat src)); [done|done|]. intros s. by eexists. }
    intros [srcInfo|e]; [|by apply tidy_none].
    destruct (fi_IsDir srcInfo).
    + apply tidy_bind.
      { apply (tidy_call _ (CallMkdirAll dest)); [done|done|]. intros s.
        unfold os_MkdirAll, local_effect. destruct (sys_MkdirAll _ _ _).
        by eexists. }
      intros [e|]; [by apply tidy_none|]. apply tidy_bind.
      { apply (tidy_call _ (CallReadDir src)); [done|done|]. intros s.
        by eexists. }
      intros [files|e]; [|by apply tidy_none].
      by apply copy_entries_tidy.
    + intros s. unfold bind, os_Open, os_Create, io_Copy, local_query,
        local_call, local_effect, Close, ret.
      go_all; tidy_leaf.
Qed.

Lemma walker_Step_tidy sftp w : tidy (walker_Step sftp w).
Proof.
  intros s. unfold walker_Step, bind, sftp_ReadDir, net_call, panic, ret.
  destruct (w_descend w && bool_decide (it_err (w_cur w) = None)); cbn.
  - destruct (it_info (w_cur w)) as [info|]; cbn; [|tidy_leaf].
    destruct (fi_IsDir info); cbn.
    + destruct (sys_SftpReadDir _ _ _) as [[list|e] n1]; cbn.
      * destruct (_ ++ w_stack w); tidy_leaf.
      * tidy_leaf.
    + destruct (w_stack w); tidy_leaf.
  - destruct (w_stack w); tidy_leaf.
Qed.

Lemma download_walk_tidy fuel sftp remotePath localPath :
  ∀ w, tidy (download_walk fuel sftp remotePath localPath w).
Proof.
  induction fuel as [|fuel IH]; intros w; cbn [download_walk].
  - by apply tidy_none.
  - apply tidy_bind; [apply walker_Step_tidy|]. intros step.
    destruct (negb step.1); [by apply tidy_none|].
    destruct (it_err _); [by apply tidy_none|].
    destruct (slice_from _ _); [|by apply tidy_none].
    destruct (decide _); [apply IH|].
    destruct (it_info _) as [info|]; [|by apply tidy_none].
    destruct (fi_IsDir info).
    + apply tidy_bind.
      { apply (tidy_call _ (CallMkdirAll (Path.Join localPath s)));
          [done|done|]. intros s0.
        unfold os_MkdirAll, local_effect. destruct (sys_MkdirAll _ _ _).
        by eexists. }
      intros [e|]; [by apply tidy_none|].
      apply tidy_bind; [by apply tidy_none|]. intros _. apply IH.
    + apply tidy_bind; [apply downloadFile_tidy|].
      intros [e|]; [by apply tidy_none|apply IH].
Qed.

Lemma downloadDirectory_tidy fuel sftp remotePath localPath :
  tidy (downloadDirectory fuel sftp remotePath localPath).
Proof.
  unfold downloadDirectory. apply tidy_bind.
  { apply (tidy_call _ (CallMkdirAll localPath)); [done|done|]. intros s.
    unfold os_MkdirAll, local_effect. destruct (sys_MkdirAll _ _ _).
    by eexists. }
  intros [e|]; [by apply tidy_none|].
  apply tidy_bind; [by apply tidy_none|]. intros _.
  apply tidy_bind; [|intros; apply download_walk_tidy].
  unfold sftp_Walk. apply tidy_bind; [|intros; by apply tidy_none].
  apply (tidy_call _ (CallSftpLstat remotePath)); [done|done|]. intros s.
  unfold sftp_Lstat, net_call. destruct (sys_SftpLstat _ _ _). by eexists.
Qed.

(** X5: [loadConfig], [copy], [downloadFile] and [downloadDirectory]
    close every file they open, whether they succeed or return an
    error: in the calls of a run there are as many [Close] calls as
    there are successful calls of [os.Open], [os.Create] and
    [sftp.Open]. *)
Theorem files_are_closed (fuel : nat) (s : State) :
  (∃ new, st_trace (loadConfig s).2 = st_trace s ++ new ∧ balanced new)
  ∧ (∀ src dest, ∃ new,
       st_trace (copy fuel src dest s).2 = st_trace s ++ new ∧ balanced new)
  ∧ (∀ sftp remotePath localPath, ∃ new,
       st_trace (downloadFile sftp remotePath localPath s).2
       = st_trace s ++ new ∧ balanced new)
  ∧ (∀ sftp remotePath localPath, ∃ new,
       st_trace (downloadDirectory fuel sftp remotePath localPath s).2
       = st_trace s ++ new ∧ balanced new).
Proof.
  split; [apply loadConfig_tidy|]. split; [intros; apply copy_tidy|].
  split; intros; [apply downloadFile_tidy|apply downloadDirectory_tidy].
Qed.

(** *** How the errors of a download travel *)
















(** *** What a run leaves alone *)

(** A run of [m] leaves the part [part] of the state as it was. *)
Definition keeps {X A} (part : State → X) (m : M A) : Prop :=
  ∀ s, part (m s).2 = part s.

Lemma keeps_bind {X A B} (part : State → X) (m : M A) (k : A → M B) :
  keeps part m → (∀ a, keeps part (k a)) → keeps part (bind m k).
Proof.
  intros Hm Hk s. unfold bind. specialize (Hm s).
  destruct (m s) as [[a|c|msg|] s1]; cbn in *; try done.
  by rewrite Hk.
Qed.

Lemma keeps_for_each {X A} (part : State → X) (l : list A) (body : A → M unit) :
  (∀ x, keeps part (body x)) → keeps part (for_each l body).
Proof.
  intros Hbody. induction l as [|x l IH]; cbn [for_each]; [done|].
  apply keeps_bind; [apply Hbody|]. intros _. apply IH.
Qed.

Lemma keeps_local_net_call {A} c (f : Net → result A * Net) :
  keeps st_local (net_call c f).
Proof. intros s. unfold net_call. by destruct (f (st_net s)). Qed.

Lemma keeps_local_Upload client localPath remotePath :
  keeps st_local (client_Upload client localPath remotePath).
Proof.
  intros s. unfold client_Upload. by destruct (sys_Upload _ _ _ _ _).
Qed.

Lemma keeps_net_local_call {A} c (f : Local → result A * Local) :
  keeps st_net (local_call c f).
Proof. intros s. unfold local_call. by destruct (f (st_local s)). Qed.

Lemma keeps_net_local_effect c (f : Local → option error * Local) :
  keeps st_net (local_effect c f).
Proof. intros s. unfold local_effect. by destruct (f (st_local s)). Qed.

Lemma keeps_out_local_call {A} c (f : Local → result A * Local) :
  keeps st_out (local_call c f).
Proof. intros s. unfold local_call. by destruct (f (st_local s)). Qed.

Lemma keeps_out_local_effect c (f : Local → option error * Local) :
  keeps st_out (local_effect c f).
Proof. intros s. unfold local_effect. by destruct (f (st_local s)). Qed.

Ltac keeps_step :=
  match goal with
  | |- keeps st_out (local_call _ _) => apply keeps_out_local_call
  | |- keeps st_out (local_effect _ _) => apply keeps_out_local_effect
  | |- keeps _ (bind _ _) => apply keeps_bind; [|intros ?]
  | |- keeps _ (for_each _ _) => apply keeps_for_each; intros ?
  | |- keeps st_local (net_call _ _) => apply keeps_local_net_call
  | |- keeps st_local (client_Upload _ _ _) => apply keeps_local_Upload
  | |- keeps st_net (local_call _ _) => apply keeps_net_local_call
  | |- keeps st_net (local_effect _ _) => apply keeps_net_local_effect
  | |- keeps _ (match ?x with _ => _ end) => destruct x
  | |- keeps _ (if ?b then _ else _) => destruct b
  | |- keeps _ (ret _) => done
  | |- keeps _ (os_Exit _) => done
  | |- keeps _ (panic _) => done
  | |- keeps _ diverge => done
  | |- keeps _ (Print _) => done
  | |- keeps _ (Println _) => done
  | |- keeps _ (Println2 _ _) => done
  | |- keeps _ Close => done
  | |- keeps _ (local_query _ _) => done
  end.

Ltac keeps_go :=
  unfold os_Stat, ioutil_ReadDir, os_Getwd, os_Open, ioutil_ReadAll, goph_Key,
    os_MkdirAll, os_Create, io_Copy, ioutil_WriteFile, goph_NewConn,
    client_NewSftp, sftp_ReadDir, sftp_Stat, sftp_Lstat, sftp_Open;
  repeat keeps_step.

Lemma getSSHClient_keeps_local repo : keeps st_local (getSSHClient repo).
Proof. unfold getSSHClient. keeps_go. Qed.

Lemma loadConfig_keeps {X} (part : State → X) :
  (∀ s c e, part (log c e s) = part s) → keeps part loadConfig.
Proof.
  intros Hlog s. unfold loadConfig, bind, os_Open, ioutil_ReadAll,
    local_query, Close, ret.
  go_all; by rewrite ?Hlog.
Qed.

Lemma filepath_Abs_keeps {X} (part : State → X) p :
  (∀ s c e, part (log c e s) = part s) → keeps part (filepath_Abs p).
Proof.
  intros Hlog s. unfold filepath_Abs, bind, os_Getwd, local_query, ret.
  go_all; by rewrite ?Hlog.
Qed.

Lemma copy_keeps_net fuel : ∀ src dest, keeps st_net (copy fuel src dest).
Proof.
  induction fuel as [|fuel IH]; intros src dest; cbn [copy]; [done|].
  keeps_go.
  match goal with |- keeps _ (copy_entries _ _ _ ?l) => induction l end;
    cbn [copy_entries]; [done|].
  apply keeps_bind; [apply IH|]. intros [e|]; [done|assumption].
Qed.


(** X7: [list], [show] and the usage leave the local machine as it
    was, and so does [put] in a repository of type [ssh]: these
    invocations only read it. *)
Theorem local_machine_is_only_read
  (fuel : nat) (config : Config) (name : string) (s : State) :
  st_local (listRepositories config s).2 = st_local s
  ∧ st_local (showRepository config s).2 = st_local s
  ∧ st_local (printUsage s).2 = st_local s
  ∧ (r_Type (map_index (c_Repositories config) (c_Current config)).1 = "ssh" →
     st_local (putRepository fuel config name s).2 = st_local s)
  ∧ ∀ args, (args = [] ∨ hd "" args = "list" ∨ hd "" args = "show"
             ∨ hd "" args ∉ commands) →
            st_local (main fuel args s).2 = st_local s.
Proof.
  assert (keeps st_local (listRepositories config)) as Hlist.
  { unfold listRepositories. keeps_go. }
  assert (∀ config, keeps st_local (showRepository config)) as Hshow.
  { intros c. unfold showRepository, print_entry. keeps_go.
    apply getSSHClient_keeps_local. }
  assert (keeps st_local printUsage) as Husage by (unfold printUsage; keeps_go).
  split; [apply Hlist|]. split; [apply Hshow|]. split; [apply Husage|].
  split.
  - intros Hty. revert s. change (keeps st_local (putRepository fuel config name)).
    unfold putRepository. cbv zeta. rewrite Hty.
    change (is_local "ssh") with false. cbv iota.
    keeps_go; try apply getSSHClient_keeps_local.
    by apply filepath_Abs_keeps.
  - intros args Hargs. revert s. change (keeps st_local (main fuel args)).
    unfold main. apply keeps_bind; [by apply loadConfig_keeps|].
    intros [c|e]; [|keeps_go].
    destruct args as [|command rest]; [keeps_go; apply Husage|].
    cbn [hd] in Hargs. destruct Hargs as [?|[->|[->|Hc]]]; [done|..].
    + destruct (decide _); [|done]. unfold listRepositories. keeps_go.
    + do 2 (destruct (decide _); [discriminate|]).
      destruct (decide _); [|done]. apply Hshow.
    + unfold commands in Hc.
      repeat (destruct (decide _) as [->|?];
              [exfalso; apply Hc; set_solver|]).
      apply Husage.
Qed.

(** X8: [getSSHClient] authenticates with the password when the
    repository has one, and then reads no key file; otherwise with the
    key read from [repo.PrivateKey] under an empty passphrase, and when
    that key cannot be read the error is returned and no connection is
    attempted.  It prints nothing, never exits and leaves the local
    machine as it was. *)
Theorem getSSHClient_authenticates (repo : Repository) (s : State) :
  let out := getSSHClient repo s in
  let connect (auth : Auth) (s0 : State) : Res (result Client) * State :=
    let c := sys_NewConn (r_User repo) (r_Host repo) (r_Port repo) auth
               (st_net s0) in
    (Ret c.1, log CallNewConn (result_err c.1) (with_net s0 c.2)) in
  (r_Password repo ≠ "" → out = connect (sys_Password (r_Password repo)) s)
  ∧ (r_Password repo = "" →
     match sys_Key (r_PrivateKey repo) "" (st_local s) with
     | Ok auth => out = connect auth (log (CallKey (r_PrivateKey repo)) None s)
     | Err e =>
         out = (Ret (Err e), log (CallKey (r_PrivateKey repo)) (Some e) s)
     end)
  ∧ st_local out.2 = st_local s
  ∧ st_out out.2 = st_out s.
Proof.
  intros out connect. unfold out, connect, getSSHClient, bind, goph_Key,
    goph_NewConn, local_query, net_call, ret.
  destruct (decide (r_Password repo ≠ "")) as [Hp|Hp].
  - destruct (sys_NewConn _ _ _ _ _) as [[c|e] n]; cbn;
      (split; [done|split; [done|done]]).
  - apply dec_stable in Hp.
    destruct (sys_Key _ _ _) as [a|e]; cbn.
    + destruct (sys_NewConn _ _ _ _ _) as [[c|e] n]; cbn;
        (split; [done|split; [done|done]]).
    + split; [done|split; [done|done]].
Qed.

Lemma saveConfig_keeps_net config : keeps st_net (saveConfig config).
Proof. unfold saveConfig. keeps_go. Qed.

(** X9: when the current repository is not of type [ssh], no
    invocation touches the network: whatever the command, the state of
    the network and of the hosts behind it is as it was. *)
Theorem network_is_left_alone
  (fuel : nat) (args : list string) (s s0 : State) (config : Config) :
  loadConfig s = (Ret (Ok config), s0) →
  r_Type (map_index (c_Repositories config) (c_Current config)).1 ≠ "ssh" →
  st_net (main fuel args s).2 = st_net s.
Proof.
  intros Hload Hty.
  assert (st_net s0 = st_net s) as <-.
  { pose proof (loadConfig_keeps st_net (λ _ _ _, eq_refl) s) as Hk.
    by rewrite Hload in Hk. }
  unfold main, bind at 1. rewrite Hload. revert s0 Hload.
  match goal with |- ∀ s0, _ → st_net (?m s0).2 = _ =>
    intros s0 _; revert s0; change (keeps st_net m) end.
  assert (keeps st_net printUsage) as Husage by (unfold printUsage; keeps_go).
  destruct args as [|command rest]; [keeps_go; apply Husage|].
  repeat (destruct (decide (command = _)) as [->|?]); try apply Husage.
  - unfold listRepositories. keeps_go.
  - destruct rest; [keeps_go|]. apply keeps_bind; [|done].
    unfold setRepository. keeps_go. apply saveConfig_keeps_net.
  - unfold showRepository, print_entry. cbv zeta.
    destruct (is_local _); [keeps_go|].
    destruct (decide _); [done|keeps_go].
  - destruct rest; [keeps_go|]. unfold getRepository. cbv zeta.
    destruct (is_local _); [keeps_go; apply copy_keeps_net|].
    destruct (decide _); [done|keeps_go].
  - destruct rest; [keeps_go|]. unfold putRepository. cbv zeta.
    destruct (is_local _).
    + keeps_go; [by apply filepath_Abs_keeps|apply copy_keeps_net].
    + destruct (decide _); [done|keeps_go].
  - destruct rest; [keeps_go|]. apply keeps_bind; [|done].
    unfold changeDirectory, resolve_directory. cbv zeta.
    destruct (is_local _).
    + keeps_go. apply saveConfig_keeps_net.
    + destruct (decide _); [done|keeps_go]. apply saveConfig_keeps_net.
Qed.

(** *** How the local machine changes *)

(** A relation between states of the local machine that holds across
    each of the five calls that change it holds across every run. *)
Section Evolution.
Variable R : Local → Local → Prop.
Hypothesis R_refl : ∀ l, R l l.
Hypothesis R_trans : ∀ a b c, R a b → R b c → R a c.
Hypothesis R_MkdirAll : ∀ p perm l, R l (sys_MkdirAll p perm l).2.
Hypothesis R_Create : ∀ p l, R l (sys_Create p l).2.
Hypothesis R_Copy : ∀ dst src l, R l (sys_Copy dst src l).2.
Hypothesis R_WriteFile : ∀ p data perm l, R l (sys_WriteFile p data perm l).2.
Hypothesis R_Download : ∀ dst src l n, R l (sys_Download dst src l n).1.2.

Definition evolves {A} (m : M A) : Prop :=
  ∀ s, R (st_local s) (st_local (m s).2).

Lemma evolves_keeps {A} (m : M A) : keeps st_local m → evolves m.
Proof using R_refl. intros Hm s. rewrite Hm. apply R_refl. Qed.

Lemma evolves_bind {A B} (m : M A) (k : A → M B) :
  evolves m → (∀ a, evolves (k a)) → evolves (bind m k).
Proof using R_trans.
  intros Hm Hk s. unfold bind. specialize (Hm s).
  destruct (m s) as [[a|c|msg|] s1]; cbn in *; try done.
  eapply R_trans; [exact Hm|apply Hk].
Qed.

Lemma evolves_local_call {A} c (f : Local → result A * Local) :
  (∀ l, R l (f l).2) → evolves (local_call c f).
Proof.
  intros Hf s. unfold local_call. specialize (Hf (st_local s)).
  by destruct (f (st_local s)).
Qed.

Lemma evolves_local_effect c (f : Local → option error * Local) :
  (∀ l, R l (f l).2) → evolves (local_effect c f).
Proof.
  intros Hf s. unfold local_effect. specialize (Hf (st_local s)).
  by destruct (f (st_local s)).
Qed.

Lemma evolves_io_Copy_remote dst src : evolves (io_Copy_remote dst src).
Proof using R_Download.
  intros s. unfold io_Copy_remote.
  pose proof (R_Download dst src (st_local s) (st_net s)) as Hd.
  by destruct (sys_Download _ _ _ _) as [[e l] n].
Qed.

Ltac evolves_step :=
  match goal with
  | |- evolves (bind _ _) => apply evolves_bind; [|intros ?]
  | |- evolves (local_call _ _) => apply evolves_local_call; intros ?
  | |- evolves (local_effect _ _) => apply evolves_local_effect; intros ?
  | |- evolves (io_Copy_remote _ _) => apply evolves_io_Copy_remote
  | |- evolves (match ?x with _ => _ end) => destruct x
  | |- evolves (if ?b then _ else _) => destruct b
  | |- evolves (ret _) => apply evolves_keeps; done
  | |- evolves (os_Exit _) => apply evolves_keeps; done
  | |- evolves (panic _) => apply evolves_keeps; done
  | |- evolves diverge => apply evolves_keeps; done
  | |- evolves (Print _) => apply evolves_keeps; done
  | |- evolves (Println _) => apply evolves_keeps; done
  | |- evolves (Println2 _ _) => apply evolves_keeps; done
  | |- evolves Close => apply evolves_keeps; done
  | |- evolves (local_query _ _) => apply evolves_keeps; done
  | |- evolves (net_call _ _) =>
      apply evolves_keeps, keeps_local_net_call
  | |- evolves (client_Upload _ _ _) =>
      apply evolves_keeps, keeps_local_Upload
  | |- evolves (getSSHClient _) =>
      apply evolves_keeps, getSSHClient_keeps_local
  | |- evolves (filepath_Abs _) =>
      apply evolves_keeps, filepath_Abs_keeps; done
  | |- R _ _ => solve [ apply R_MkdirAll | apply R_Create | apply R_Copy
                      | apply R_WriteFile ]
  end.

Ltac evolves_go :=
  unfold os_Stat, ioutil_ReadDir, os_Getwd, os_Open, ioutil_ReadAll, goph_Key,
    os_MkdirAll, os_Create, io_Copy, ioutil_WriteFile, goph_NewConn,
    client_NewSftp, sftp_ReadDir, sftp_Stat, sftp_Lstat, sftp_Open;
  repeat evolves_step.

Lemma copy_evolves fuel : ∀ src dest, evolves (copy fuel src dest).
Proof using All.
  induction fuel as [|fuel IH]; intros src dest; cbn [copy];
    [by apply evolves_keeps|].
  evolves_go.
  match goal with |- evolves (copy_entries _ _ _ ?l) => induction l end;
    cbn [copy_entries]; [by apply evolves_keeps|].
  apply evolves_bind; [apply IH|].
  intros [e|]; [by apply evolves_keeps|assumption].
Qed.

Lemma downloadFile_evolves sftp remotePath localPath :
  evolves (downloadFile sftp remotePath localPath).
Proof using All. unfold downloadFile. evolves_go. Qed.

Lemma download_walk_evolves fuel sftp remotePath localPath :
  ∀ w, evolves (download_walk fuel sftp remotePath localPath w).
Proof using All.
  induction fuel as [|fuel IH]; intros w; cbn [download_walk];
    [by apply evolves_keeps|].
  apply evolves_bind.
  { unfold walker_Step. evolves_go. }
  intros step. evolves_go; try apply IH. apply downloadFile_evolves.
Qed.

Lemma downloadDirectory_evolves fuel sftp remotePath localPath :
  evolves (downloadDirectory fuel sftp remotePath localPath).
Proof using All.
  unfold downloadDirectory, sftp_Walk. evolves_go. apply download_walk_evolves.
Qed.

Lemma saveConfig_evolves config : evolves (saveConfig config).
Proof using All. unfold saveConfig. evolves_go. Qed.

Lemma main_evolves fuel args : evolves (main fuel args).
Proof using All.
  unfold main. apply evolves_bind.
  { apply evolves_keeps. by apply loadConfig_keeps. }
  intros [config|e]; [|evolves_go].
  assert (evolves printUsage) as Husage.
  { apply evolves_keeps. unfold printUsage. keeps_go. }
  destruct args as [|command rest]; [evolves_go; apply Husage|].
  repeat (destruct (decide (command = _)) as [->|?]); try apply Husage.
  - apply evolves_keeps. unfold listRepositories. keeps_go.
  - destruct rest; [evolves_go|]. unfold setRepository. evolves_go.
    apply saveConfig_evolves.
  - unfold showRepository, print_entry. evolves_go;
      apply evolves_keeps, keeps_for_each; intros f;
      by destruct (fi_IsDir f).
  - destruct rest; [evolves_go|]. unfold getRepository. evolves_go.
    + apply copy_evolves.
    + apply downloadDirectory_evolves.
    + apply downloadFile_evolves.
  - destruct rest; [evolves_go|]. unfold putRepository. evolves_go.
    apply copy_evolves.
  - destruct rest; [evolves_go|].
    unfold changeDirectory, resolve_directory. evolves_go;
      apply saveConfig_evolves.
Qed.

End Evolution.

End Further.
(** ** The commands on the Unix machine *)
Module Machine.
Import Path Unix PathFacts FsFacts.

(** *** Nothing is removed *)

(** Both are directories or both are regular files. *)
Definition same_kind (a b : node) : Prop :=
  match a, b with
  | Dir, Dir | Reg _, Reg _ => True
  | _, _ => False
  end.

(** Every entry of [t] is in [t'], as a directory if it was one and as
    a regular file if it was one. *)
Definition grows (t t' : tree) : Prop :=
  ∀ p nd, t !! p = Some nd → ∃ nd', t' !! p = Some nd' ∧ same_kind nd nd'.

(** The same for a file system, whose working directory stays. *)
Definition extends (f f' : fs) : Prop :=
  cwd f' = cwd f ∧ grows (files f) (files f').

Lemma same_kind_refl nd : same_kind nd nd.
Proof. by destruct nd. Qed.

Lemma same_kind_trans a b c : same_kind a b → same_kind b c → same_kind a c.
Proof. by destruct a, b, c. Qed.

Lemma grows_refl t : grows t t.
Proof. intros p nd Hp. exists nd. split; [done|apply same_kind_refl]. Qed.

Lemma grows_trans t1 t2 t3 : grows t1 t2 → grows t2 t3 → grows t1 t3.
Proof.
  intros H12 H23 p nd Hp. destruct (H12 p nd Hp) as (nd2 & Hp2 & Hk2).
  destruct (H23 p nd2 Hp2) as (nd3 & Hp3 & Hk3). exists nd3.
  split; [done|]. by eapply same_kind_trans.
Qed.

Lemma grows_insert (t : tree) q nd :
  (∀ old, t !! q = Some old → same_kind old nd) → grows t (<[q := nd]> t).
Proof.
  intros Hold p x Hp. destruct (decide (p = q)) as [->|Hne].
  - exists nd. rewrite lookup_insert_eq. split; [done|]. by apply Hold.
  - exists x. rewrite lookup_insert_ne by done. split; [done|].
    apply same_kind_refl.
Qed.

Lemma extends_refl f : extends f f.
Proof. split; [done|apply grows_refl]. Qed.

Lemma extends_trans a b c : extends a b → extends b c → extends a c.
Proof.
  intros [Hc1 Hg1] [Hc2 Hg2]. split; [congruence|by eapply grows_trans].
Qed.

Lemma mkdir_walk_grows elems : ∀ t cur, grows t (mkdir_walk t cur elems).2.
Proof.
  induction elems as [|e rest IH]; intros t cur; cbn [mkdir_walk];
    [apply grows_refl|].
  destruct (negb (is_dir t cur)); [apply grows_refl|].
  destruct (decide _); [apply IH|].
  destruct (t !! (cur ++ [e])) as [[|data]|] eqn:He;
    [apply IH|apply grows_refl|].
  eapply grows_trans; [|apply IH]. apply grows_insert. congruence.
Qed.

Lemma MkdirAll_extends p perm f : extends f (MkdirAll p perm f).2.
Proof.
  unfold MkdirAll. destruct (decide (p = "")); [apply extends_refl|].
  pose proof (mkdir_walk_grows (split p) (files f) (start f p)) as Hg.
  destruct (mkdir_walk _ _ _) as [e t]. by split.
Qed.

Lemma Create_extends p f : extends f (Create p f).2.
Proof.
  unfold Create. destruct (resolve f p) as [q|]; [|apply extends_refl].
  destruct (files f !! q) as [[|data]|] eqn:Hq; [apply extends_refl|..];
    (split; [done|]; apply grows_insert; intros old Hold; rewrite Hq in Hold;
     by simplify_eq).
Qed.

Lemma write_at_grows q data t : grows t (write_at q data t).2.
Proof.
  unfold write_at. destruct (t !! q) as [[|old]|] eqn:Hq;
    [apply grows_refl| |apply grows_refl].
  apply grows_insert. intros x Hx. rewrite Hq in Hx. by simplify_eq.
Qed.

Lemma Copy_extends dst src f : extends f (Copy dst src f).2.
Proof.
  unfold Copy. destruct (ReadAll src f) as [data|e]; [|apply extends_refl].
  pose proof (write_at_grows dst data (files f)) as Hg.
  destruct (write_at _ _ _) as [e t]. by split.
Qed.

Lemma WriteFile_extends p data perm f : extends f (WriteFile p data perm f).2.
Proof.
  unfold WriteFile. pose proof (Create_extends p f) as Hc.
  destruct (Create p f) as [[q|e] f']; [|done]. cbn in Hc.
  pose proof (write_at_grows q data (files f')) as Hg.
  destruct (write_at _ _ _) as [e t]. cbn.
  eapply extends_trans; [exact Hc|]. by split.
Qed.

Lemma Download_extends dst src f n : extends f (Download dst src f n).1.2.
Proof.
  unfold Download. destruct (n !! src.1) as [sv|]; [|apply extends_refl].
  destruct (ReadAll _ _) as [data|e]; [|apply extends_refl].
  pose proof (write_at_grows dst data (files f)) as Hg.
  destruct (write_at _ _ _) as [e t]. by split.
Qed.

(** X10: no invocation removes anything from the local file system:
    whatever the command and however the run ends, every entry that was
    there is there afterwards, a directory if it was one and a regular
    file if it was one, and the working directory is the same. *)
Theorem nothing_is_removed (fuel : nat) (args : list string) (s : State) :
  extends (st_local s) (st_local (main fuel args s).2).
Proof.
  apply (@main_evolves unix extends).
  - apply extends_refl.
  - apply extends_trans.
  - apply MkdirAll_extends.
  - apply Create_extends.
  - apply Copy_extends.
  - apply WriteFile_extends.
  - apply Download_extends.
Qed.

(** *** Copying a regular file *)

(** X11: [copy] of a regular file, on the Unix machine.  Into a place
    where there is nothing, or a regular file, the destination holds
    the bytes of the source and nothing else afterwards, whatever it
    held before; when source and destination are the same file, that
    file is empty afterwards, [os.Create] having truncated it before it
    was read, and [copy] returns nil all the same.  Into a place where
    there is a directory, [copy] returns the error of [os.Create] and
    nothing has changed. *)
Theorem copy_of_a_regular_file
  (k : nat) (src dest : string) (s : State) (d e : list string) (data : string) :
  let f := st_local s in
  resolve f src = Some d → files f !! d = Some (Reg data) →
  resolve f dest = Some e →
  match files f !! e with
  | Some Dir =>
      ∃ s', copy (S k) src dest s = (Ret (Some EISDIR), s') ∧ st_local s' = f
  | _ =>
      ∃ s', copy (S k) src dest s = (Ret None, s')
        ∧ st_local s'
          = mkFs (<[e := Reg (if decide (d = e) then "" else data)]> (files f))
                 (cwd f)
  end.
Proof.
  intros f Hsrc Hd Hdest.
  pose proof (Stat_at f src d _ Hsrc Hd) as Hstat.
  assert (Open src f = Ok d) as Hopen by (apply Open_at; [done|by eexists]).
  assert (∀ old, files f !! e = Some (Reg old) ∨ files f !! e = None →
    ∃ s', copy (S k) src dest s = (Ret None, s')
      ∧ st_local s'
        = mkFs (<[e := Reg (if decide (d = e) then "" else data)]> (files f))
               (cwd f)) as Hfile.
  { intros old He.
    cbn [copy]. unfold bind at 1, os_Stat, local_query.
    change (sys_Stat src (st_local s)) with (Stat src f).
    rewrite Hstat. cbn [result_err fi_IsDir info_of].
    unfold bind at 1, os_Open, local_query.
    change (sys_Open src _) with (Open src f). rewrite Hopen.
    unfold bind at 1, os_Create, local_call.
    change (sys_Create dest _) with (Create dest f).
    assert (Create dest f = (Ok e, mkFs (<[e := Reg ""]> (files f)) (cwd f)))
      as -> by (unfold Create; rewrite Hdest; by destruct He as [->| ->]).
    unfold bind at 1, io_Copy, local_effect. cbn [st_local log with_local].
    change (sys_Copy ?a ?b ?g) with (Copy a b g).
    destruct (decide (d = e)) as [->|Hne].
    - rewrite (Copy_at _ _ _ "" "") by (cbn; by rewrite lookup_insert_eq).
      cbn. eexists. split; [reflexivity|]. cbn.
      by rewrite overwrite_empty, insert_insert_eq.
    - rewrite (Copy_at _ _ _ "" data);
        [|cbn; by rewrite lookup_insert_ne|cbn; by rewrite lookup_insert_eq].
      cbn. eexists. split; [reflexivity|]. cbn.
      by rewrite overwrite_empty, insert_insert_eq. }
  destruct (files f !! e) as [[|old]|] eqn:He; [|by apply (Hfile old); left
                                                |by apply (Hfile ""); right].
  cbn [copy]. unfold bind at 1, os_Stat, local_query.
  change (sys_Stat src (st_local s)) with (Stat src f).
  rewrite Hstat. cbn [result_err fi_IsDir info_of].
  unfold bind at 1, os_Open, local_query.
  change (sys_Open src _) with (Open src f). rewrite Hopen.
  unfold bind at 1, os_Create, local_call.
  change (sys_Create dest _) with (Create dest f).
  unfold Create. rewrite Hdest, He.
  cbn. eexists. split; reflexivity.
Qed.

(** *** show *)

(** The line [show] prints for an entry. *)
Definition listing_line (e : string * node) : string :=
  e.1 +:+ (match e.2 with Dir => "/" | Reg _ => "" end) +:+ JSON.newline.

#[export] Instance name_le_total : Total name_le.
Proof. intros a b. apply String.leb_total. Qed.

(** X12: [show] in a local repository whose path leads to a directory
    prints the entries of that directory, each of them once, in the
    order of their names, a directory with a slash after its name; it
    reads the directory and does nothing else. *)
Theorem show_lists_the_directory (config : Config) (s : State) (q : list string) :
  let f := st_local s in
  let repo := (map_index (c_Repositories config) (c_Current config)).1 in
  let listing := entries (files f) q in
  is_local (r_Type repo) = true →
  resolve f (r_Path repo) = Some q → files f !! q = Some Dir →
  showRepository config s
  = (Ret tt,
     printed_lines (log (CallReadDir (r_Path repo)) None s)
       (listing_line <$> listing))
  ∧ Sorted name_le listing
  ∧ NoDup listing.*1
  ∧ ∀ n nd, (n, nd) ∈ listing ↔ files f !! (q ++ [n]) = Some nd.
Proof.
  intros f repo listing Hloc Hres Hq. split; [|split; [|split]].
  - unfold showRepository. fold repo. rewrite Hloc.
    unfold bind at 1, ioutil_ReadDir, local_query.
    change (sys_ReadDir ?p ?g) with (ReadDir p g).
    unfold ReadDir. fold f. rewrite Hres, Hq. cbn [result_err].
    rewrite (for_each_prints _
               (λ fi, if fi_IsDir fi then fi_Name fi +:+ "/" +:+ JSON.newline
                      else fi_Name fi +:+ JSON.newline)).
    + f_equal. unfold printed_lines. f_equal. f_equal.
      rewrite <- list_fmap_compose. apply list_fmap_ext.
      intros i [n [|data]] _; reflexivity.
    + intros fi s1. unfold print_entry. by destruct (fi_IsDir fi).
  - apply Sorted_merge_sort, _.
  - apply entries_NoDup.
  - intros n nd. apply entries_spec.
Qed.

(** *** get and put in a local repository *)

Lemma tree_ok_names t p : tree_ok t → is_Some (t !! p) → Forall name_ok p.
Proof.
  intros Hok. induction p as [|n p IH] using rev_ind; intros Hp; [done|].
  destruct Hok as [Hroot Hent]. pose proof (conj Hroot Hent) as Hok.
  destruct (Hent p n Hp) as [Hdir Hn].
  apply Forall_app. split; [apply IH; by eexists|]. by constructor.
Qed.

(** A walk down existing entries ends where they are. *)
Lemma walk_down t cur c :
  tree_ok t → is_Some (t !! (cur ++ c)) → walk t cur c = Some (cur ++ c).
Proof.
  intros Hok. revert cur. induction c as [|x rest IH]; intros cur Hs.
  - by rewrite app_nil_r.
  - assert (is_Some (t !! (cur ++ [x]))) as Hx.
    { apply (tree_ok_ancestor _ _ rest Hok). by rewrite <- app_assoc. }
    destruct Hok as [Hroot Hent]. pose proof (conj Hroot Hent) as Hok.
    destruct (Hent cur x Hx) as [Hdir (Hslash & Hne & Hdot & Hdd)].
    cbn [walk]. rewrite (proj2 (is_dir_true t cur) Hdir).
    rewrite step_name by done.
    replace (cur ++ x :: rest) with ((cur ++ [x]) ++ rest)
      by (by rewrite <- app_assoc).
    apply IH. by rewrite <- app_assoc.
Qed.

(** The working directory is where [os.Getwd] says. *)
Lemma resolve_Getwd f :
  tree_ok (files f) → is_Some (files f !! cwd f) →
  resolve f ("/" +:+ join (cwd f)) = Some (cwd f).
Proof.
  intros Hok Hc. unfold resolve, start.
  destruct (decide _) as [Heq|_]; [discriminate Heq|].
  change (IsAbs ("/" +:+ join (cwd f))) with true. cbv iota.
  rewrite split_slash. cbn [walk].
  destruct Hok as [Hroot Hent]. pose proof (conj Hroot Hent) as Hok.
  rewrite (proj2 (is_dir_true _ []) Hroot).
  change (step [] "") with (@nil string).
  destruct (cwd f) as [|x c] eqn:Hcwd.
  - cbn. by rewrite (proj2 (is_dir_true _ []) Hroot).
  - rewrite split_join; [|done|].
    + by apply (walk_down _ [] (x :: c)).
    + eapply Forall_impl; [by apply (tree_ok_names (files f))|].
      by intros n [? _].
Qed.




End Machine.
(** ** Runs on given machines, continued *)
Module Runs.
Import Path Unix JSON PathFacts FsFacts Machine Examples.

(** The configuration of [machine (config_text "f" "f" "local")]. *)
Definition local_config : Config :=
  (Unmarshal (config_text "f" "f" "local") zeroConfig).1.

Definition local_machine : State :=
  boot (machine (config_text "f" "f" "local")) [].



Lemma main_needs_configuration_witness :
  sys_Open configPath (st_local (boot desk [])) = Err ENOENT
  ∧ main 5 ["list"] (boot desk [])
    = (Exit 1,
       printed (log (CallOpen configPath) (Some ENOENT) (boot desk []))
         ("Error loading configuration: " +:+ ENOENT +:+ newline)).
Proof.
  split; [vm_compute; reflexivity|].
  apply (main_needs_configuration 5 ["list"] (boot desk [])).
  vm_compute. reflexivity.
Defined.

Lemma local_machine_loads :
  loadConfig local_machine
  = (Ret (Ok local_config), (loadConfig local_machine).2).
Proof.
  destruct (loadConfig_outcomes local_machine) as (_ & _ & Hok & _).
  rewrite (surjective_pairing (loadConfig local_machine)) at 1.
  rewrite (Hok ["w"; "config"; "config.json"] (config_text "f" "f" "local"))
    by (vm_compute; reflexivity).
  reflexivity.
Qed.

Lemma network_is_left_alone_witness :
  loadConfig local_machine
  = (Ret (Ok local_config), (loadConfig local_machine).2)
  ∧ r_Type (map_index (c_Repositories local_config)
              (c_Current local_config)).1 ≠ "ssh"
  ∧ st_net (main 5 ["get"; "a"] local_machine).2 = st_net local_machine.
Proof.
  assert (r_Type (map_index (c_Repositories local_config)
                    (c_Current local_config)).1 = "local") as Hty
    by (vm_compute; reflexivity).
  split; [exact local_machine_loads|].
  split; [rewrite Hty; discriminate|].
  apply (network_is_left_alone 5 ["get"; "a"] local_machine
           (loadConfig local_machine).2 local_config).
  - exact local_machine_loads.
  - rewrite Hty. discriminate.
Defined.

Lemma copy_of_a_regular_file_witness :
  resolve sample "/r/a" = Some ["r"; "a"]
  ∧ files sample !! ["r"; "a"] = Some (Reg "hi")
  ∧ ∃ s', copy 1 "/r/a" "/r/a" (boot sample []) = (Ret None, s')
      ∧ st_local s' = mkFs (<[ ["r"; "a"] := Reg "" ]> (files sample)) [].
Proof.
  split; [vm_compute; reflexivity|]. split; [vm_compute; reflexivity|].
  generalize (copy_of_a_regular_file 0 "/r/a" "/r/a" (boot sample [])
                ["r"; "a"] ["r"; "a"] "hi"
                ltac:(vm_compute; reflexivity) ltac:(vm_compute; reflexivity)
                ltac:(vm_compute; reflexivity)).
  set (x := files (st_local (boot sample [])) !! ["r"; "a"]).
  vm_compute in x. subst x. cbv iota beta.
  intros (s' & Hrun & Hst). exists s'. split; [exact Hrun|]. exact Hst.
Defined.

Lemma show_lists_the_directory_witness :
  is_local (r_Type (map_index (c_Repositories local_config)
                      (c_Current local_config)).1) = true
  ∧ resolve (st_local local_machine) "/r" = Some ["r"]
  ∧ files (st_local local_machine) !! ["r"] = Some Dir
  ∧ showRepository local_config local_machine
    = (Ret tt,
       printed_lines (log (CallReadDir "/r") None local_machine)
         ["a" +:+ newline; "sub/" +:+ newline]).
Proof.
  split; [vm_compute; reflexivity|]. split; [vm_compute; reflexivity|].
  split; [vm_compute; reflexivity|].
  destruct (show_lists_the_directory local_config local_machine ["r"]
              ltac:(vm_compute; reflexivity) ltac:(vm_compute; reflexivity)
              ltac:(vm_compute; reflexivity)) as [Hrun _].
  rewrite Hrun.
  assert (listing_line <$> entries (files (st_local local_machine)) ["r"]
          = ["a" +:+ newline; "sub/" +:+ newline]) as ->
    by (vm_compute; reflexivity).
  reflexivity.
Defined.



End Runs.
(** ** The text of a configuration, written and read back *)
Module Roundtrip.
Import JSON.

#[local] Arguments String.append !s1 s2 /.

(** *** Strings *)

Lemma append_assoc (a b c : string) : (a +:+ b) +:+ c = a +:+ b +:+ c.
Proof. induction a as [|x a IH]; simpl; [done|]. by rewrite IH. Qed.

Lemma append_nil_r (a : string) : a +:+ "" = a.
Proof. induction a as [|x a IH]; simpl; [done|]. by rewrite IH. Qed.

Lemma length_append (a b : string) :
  String.length (a +:+ b) = (String.length a + String.length b)%nat.
Proof. induction a as [|x a IH]; simpl; [done|]. by rewrite IH. Qed.

(** A text that does not start with white space. *)
Definition starts_black (s : string) : Prop :=
  match s with String c _ => is_ws c = false | EmptyString => True end.

Lemma skip_ws_black s : starts_black s → skip_ws s = s.
Proof. destruct s as [|c s]; simpl; [done|]. by intros ->. Qed.

Lemma skip_ws_indent level s : skip_ws (indent level +:+ s) = skip_ws s.
Proof. induction level as [|l IH]; simpl; [done|]. exact IH. Qed.

Lemma skip_ws_newline level s :
  skip_ws (newline +:+ indent level +:+ s) = skip_ws s.
Proof. simpl. apply skip_ws_indent. Qed.

(** *** String literals *)

(** Well-formed UTF-8, as [utf8.ValidString] has it; [k] counts the
    bytes still to come of a sequence that has been checked. *)
Fixpoint valid_aux (k : nat) (s : string) : bool :=
  match s with
  | EmptyString => true
  | String b s' =>
      match k with
      | S k' => valid_aux k' s'
      | O =>
          if (Utf8.byte b <? 128)%N then valid_aux 0 s'
          else match Utf8.rune_len s with
               | S n => valid_aux n s'
               | O => false
               end
      end
  end.

Definition valid (s : string) : bool := valid_aux 0 s.

Lemma fix_aux_valid s : ∀ k, valid_aux k s = true → Utf8.fix_aux k s = s.
Proof.
  induction s as [|b s IH]; intros k Hv; [done|]. cbn [Utf8.fix_aux valid_aux] in *.
  destruct k as [|k]; [|by rewrite IH].
  destruct (Utf8.byte b <? 128)%N; [by rewrite IH|].
  destruct (Utf8.rune_len (String b s)) as [|n]; [done|]. by rewrite IH.
Qed.

Lemma sanitize_valid s : valid s = true → Utf8.sanitize s = s.
Proof. apply fix_aux_valid. Qed.

(** The first [k] bytes are there and none of them is ASCII. *)
Fixpoint conts (k : nat) (s : string) : Prop :=
  match k with
  | O => True
  | S k' =>
      match s with
      | String b s' => (128 <=? Utf8.byte b)%N = true ∧ conts k' s'
      | EmptyString => False
      end
  end.

Lemma cont_high b : Utf8.cont b = true → (128 <=? Utf8.byte b)%N = true.
Proof. unfold Utf8.cont, Utf8.between. by intros [? _]%andb_true_iff. Qed.

Lemma rune_len_conts b s n :
  Utf8.rune_len (String b s) = S n → conts n s.
Proof.
  unfold Utf8.rune_len.
  destruct s as [|b1 [|b2 [|b3 t]]]; try done;
    repeat (match goal with
            | |- context [if ?c then _ else _] => destruct c eqn:?
            end; try done);
    intros [= <-]; cbn; unfold Utf8.cont, Utf8.between in *;
    repeat match goal with
           | H : context [if ?c then _ else _] |- _ => destruct c eqn:?
           end;
    repeat match goal with
           | H : _ && _ = true |- _ => apply andb_true_iff in H as [? ?]
           end;
    repeat split; try done;
    apply N.leb_le;
    repeat match goal with
           | H : (_ <=? _)%N = true |- _ => apply N.leb_le in H
           end; lia.
Qed.

(** A byte that is not ASCII is copied by the scanner. *)
Lemma scan_high b X :
  (128 <=? Utf8.byte b)%N = true →
  scan_string (String b X)
  = '(body, rest) ← scan_string X; Some (String b body, rest).
Proof.
  intros Hb.
  destruct b as [[] [] [] [] [] [] [] []];
    first [discriminate Hb | reflexivity].
Qed.

Definition hex4 (a b c d : ascii) : option N :=
  match hex_val a, hex_val b, hex_val c, hex_val d with
  | Some x, Some y, Some z, Some w => Some (x * 4096 + y * 256 + z * 16 + w)%N
  | _, _, _, _ => None
  end.

(** A [\u] escape of a rune below the surrogates is read for itself. *)
Lemma scan_unicode_escape a b c d tail r :
  hex4 a b c d = Some r → (r <? 55296)%N = true →
  scan_string
    (String "\" (String "u" (String a (String b (String c (String d tail))))))
  = '(body, rest) ← scan_string tail; Some (Utf8.encode r +:+ body, rest).
Proof.
  intros Hhex Hr. unfold hex4 in Hhex.
  assert (is_surrogate r = false) as Hs.
  { unfold is_surrogate. apply andb_false_iff. left. apply N.leb_gt.
    apply N.ltb_lt in Hr. lia. }
  assert (∀ r2, decode_pair r r2 = None) as Hp.
  { intros r2. unfold decode_pair.
    assert ((55296 <=? r)%N = false) as ->
      by (apply N.leb_gt; apply N.ltb_lt in Hr; lia).
    reflexivity. }
  cbn [scan_string]. 
  change (Ascii.eqb "\" dquote) with false.
  change (Ascii.eqb "\" "\") with true.
  change (simple_escape "u") with (@None ascii).
  change (Ascii.eqb "u" "u") with true. cbv iota.
  unfold getu4 at 1.
  destruct (hex_val a) as [x|]; [|done].
  destruct (hex_val b) as [y|]; [|done].
  destruct (hex_val c) as [z|]; [|done].
  destruct (hex_val d) as [w|]; [|done].
  injection Hhex as Hhex. rewrite Hhex, Hs.
  destruct tail as [|t1 [|t2 [|t3 [|t4 [|t5 [|t6 tail]]]]]]; try reflexivity.
  destruct (getu4 _) as [[r2 ?]|]; cbn [mbind option_bind]; [|reflexivity].
  by rewrite Hp.
Qed.

(** An ASCII byte, written as it is or as an escape, is read back. *)
Lemma scan_ascii b X :
  (Utf8.byte b <? 128)%N = true →
  scan_string ((if html_safe b then String b "" else escape_byte b) +:+ X)
  = '(body, rest) ← scan_string X; Some (String b body, rest).
Proof.
  intros Hb.
  destruct b as [[] [] [] [] [] [] [] []]; try discriminate Hb; clear Hb;
    match goal with
    | |- context [if html_safe ?b then ?x else ?y] =>
        let t := eval vm_compute in (if html_safe b then x else y) in
        change (if html_safe b then x else y) with t
    end;
    simpl String.append;
    first
      [ reflexivity
      | match goal with
        | |- scan_string
               (String "\" (String "u" (String ?a (String ?b (String ?c
                  (String ?d ?X)))))) = _ =>
            let r := eval vm_compute in (hex4 a b c d) in
            match r with
            | Some ?v =>
                rewrite (scan_unicode_escape a b c d X v eq_refl eq_refl);
                reflexivity
            end
        end ].
Qed.

Lemma has_prefix_app p s : has_prefix p s = true → ∃ t, s = p +:+ t.
Proof.
  unfold has_prefix. revert s. induction p as [|a p IH]; intros s; simpl.
  - intros _. by exists s.
  - destruct s as [|b s]; [done|].
    destruct (Ascii.eqb a b) eqn:Hab; [|done]. apply Ascii.eqb_eq in Hab as ->.
    intros Hp. destruct (IH s Hp) as [t ->]. by exists t.
Qed.

(** What is left of [s] after its first [k] bytes. *)
Fixpoint sdrop (k : nat) (s : string) : string :=
  match k, s with
  | S k', String _ s' => sdrop k' s'
  | _, _ => s
  end.

Definition mode_ok (m : quote_mode) (s : string) : Prop :=
  match m with
  | Plain => valid_aux 0 s = true
  | Copy k => valid_aux k s = true ∧ conts k s
  | Skip k => valid_aux k s = true
  end.

Definition mode_out (m : quote_mode) (s : string) : string :=
  match m with Skip k => sdrop k s | _ => s end.

Lemma scan_quote_plain b s :
  (∀ m rest, mode_ok m s →
     scan_string (quote_aux m s +:+ String dquote rest)
     = Some (mode_out m s, rest)) →
  valid_aux 0 (String b s) = true →
  ∀ rest,
    scan_string (quote_aux Plain (String b s) +:+ String dquote rest)
    = Some (String b s, rest).
Proof.
  intros IH Hv rest. cbn [quote_aux valid_aux] in *.
  destruct (Utf8.byte b <? 128)%N eqn:Hb.
  { rewrite append_assoc, scan_ascii by done.
    by rewrite (IH Plain rest Hv). }
  assert ((128 <=? Utf8.byte b)%N = true) as Hhigh.
  { apply N.leb_le. apply N.ltb_ge in Hb. lia. }
  destruct (has_prefix (String "226" (String "128" (String "168" "")))
              (String b s)) eqn:Hls.
  { apply has_prefix_app in Hls as [t Ht]. injection Ht as -> ->.
    cbn in Hv. cbn [String.append].
    rewrite (scan_unicode_escape "2" "0" "2" "8" _ 8232 eq_refl eq_refl).
    rewrite (IH (Skip 2) rest) by exact Hv. reflexivity. }
  destruct (has_prefix (String "226" (String "128" (String "169" "")))
              (String b s)) eqn:Hps.
  { apply has_prefix_app in Hps as [t Ht]. injection Ht as -> ->.
    cbn in Hv. cbn [String.append].
    rewrite (scan_unicode_escape "2" "0" "2" "9" _ 8233 eq_refl eq_refl).
    rewrite (IH (Skip 2) rest) by exact Hv. reflexivity. }
  destruct (Utf8.rune_len (String b s)) as [|n] eqn:Hlen; [done|].
  cbn [String.append]. rewrite scan_high by done.
  rewrite (IH (Copy n) rest); [done|].
  split; [done|]. by apply (rune_len_conts b).
Qed.

Lemma scan_quote s :
  ∀ m rest, mode_ok m s →
    scan_string (quote_aux m s +:+ String dquote rest)
    = Some (mode_out m s, rest).
Proof.
  induction s as [|b s IH]; intros m rest Hm.
  { destruct m as [|[|k]|[|k]]; reflexivity. }
  destruct m as [|[|k]|[|k]]; cbn [mode_ok mode_out sdrop] in *.
  - by apply scan_quote_plain.
  - destruct Hm as [Hv _].
    change (quote_aux (Copy 0) (String b s)) with (quote_aux Plain (String b s)).
    by apply scan_quote_plain.
  - destruct Hm as [Hv [Hb Hc]]. cbn [quote_aux String.append].
    rewrite scan_high by done. by rewrite (IH (Copy k) rest).
  - change (quote_aux (Skip 0) (String b s)) with (quote_aux Plain (String b s)).
    by apply scan_quote_plain.
  - cbn [quote_aux]. by rewrite (IH (Skip k) rest).
Qed.

(** A string that is well-formed UTF-8 is read back from its quoted
    form as it was. *)
Lemma scan_quoted s rest :
  valid s = true →
  scan_string (quote_aux Plain s +:+ String dquote rest) = Some (s, rest).
Proof. intros Hv. by apply (scan_quote s Plain). Qed.

(** *** Numbers *)

Lemma byte_chr n : (n < 256)%N → Utf8.byte (Utf8.chr n) = n.
Proof. apply N_ascii_embedding. Qed.

Lemma digit_char d :
  (d < 10)%N →
  is_digit (Utf8.chr (48 + d)) = true
  ∧ (Utf8.byte (Utf8.chr (48 + d)) - 48 = d)%N.
Proof.
  intros Hd. unfold is_digit, Utf8.between. rewrite byte_chr by lia. split.
  - apply andb_true_iff. split; apply N.leb_le; lia.
  - lia.
Qed.

Lemma digits_value_of fuel :
  ∀ n acc, (n < 10 ^ N.of_nat fuel)%N →
    digits_value 0 (digits_of fuel n acc) = digits_value n acc.
Proof.
  induction fuel as [|fuel IH]; intros n acc Hn.
  - cbn in *. by replace n with 0%N by lia.
  - cbn [digits_of].
    assert (n mod 10 < 10)%N as Hd by (apply N.mod_lt; lia).
    destruct (digit_char (n mod 10) Hd) as [Hdig Hval].
    destruct (n <? 10)%N eqn:Hlt.
    + apply N.ltb_lt in Hlt. cbn [digits_value]. rewrite Hdig, Hval.
      rewrite N.mod_small by done. done.
    + apply N.ltb_ge in Hlt. rewrite IH.
      * cbn [digits_value]. rewrite Hdig, Hval. f_equal.
        rewrite (N.div_mod n 10) at 3 by lia. lia.
      * rewrite Nat2N.inj_succ, N.pow_succ_r' in Hn.
        apply N.Div0.div_lt_upper_bound. lia.
Qed.

Lemma decimal_bound n : (n < 10 ^ N.of_nat (N.to_nat (N.size n) + 1))%N.
Proof.
  rewrite Nat2N.inj_add, N2Nat.id. cbn.
  eapply N.lt_le_trans; [apply N.size_gt|].
  etrans; [apply (N.pow_le_mono_l 2 10); lia|].
  apply N.pow_le_mono_r; lia.
Qed.

Lemma parse_uint_decimal n :
  (n < 2 ^ 64)%N → parse_uint (decimal n) = Some n.
Proof.
  intros Hn. unfold parse_uint, decimal.
  rewrite digits_value_of by apply decimal_bound. cbn [digits_value].
  by rewrite (proj2 (N.ltb_lt _ _) Hn).
Qed.

Fixpoint all_digits (s : string) : bool :=
  match s with
  | EmptyString => true
  | String c s' => is_digit c && all_digits s'
  end.

Lemma digits_of_all fuel :
  ∀ n acc, all_digits acc = true → all_digits (digits_of fuel n acc) = true.
Proof.
  induction fuel as [|fuel IH]; intros n acc Hacc; [done|].
  cbn [digits_of].
  assert (n mod 10 < 10)%N as Hd by (apply N.mod_lt; lia).
  destruct (digit_char (n mod 10) Hd) as [Hdig _].
  assert (all_digits (String (Utf8.chr (48 + n mod 10)) acc) = true) as Hacc'
    by (cbn; by rewrite Hdig).
  destruct (n <? 10)%N; [done|]. by apply IH.
Qed.

(** The first digit of a positive number is not a zero. *)
Lemma digits_of_head fuel :
  ∀ n acc, (0 < n)%N → (n < 10 ^ N.of_nat fuel)%N →
    ∃ d t, (1 ≤ d ≤ 9)%N ∧ digits_of fuel n acc = String (Utf8.chr (48 + d)) t.
Proof.
  induction fuel as [|fuel IH]; intros n acc Hpos Hn.
  - cbn in Hn. lia.
  - cbn [digits_of]. destruct (n <? 10)%N eqn:Hlt.
    + apply N.ltb_lt in Hlt. exists n, acc. rewrite N.mod_small by done.
      split; [lia|done].
    + apply N.ltb_ge in Hlt. apply IH.
      * apply N.div_str_pos. lia.
      * rewrite Nat2N.inj_succ, N.pow_succ_r' in Hn.
        apply N.Div0.div_lt_upper_bound. lia.
Qed.

(** What may come after a value in an object that is laid out as
    [MarshalIndent] does: a comma or a new line. *)
Definition follows (rest : string) : Prop :=
  ∃ r, rest = "," +:+ r ∨ rest = newline +:+ r.

Lemma scan_digits_all s rest :
  all_digits s = true → follows rest → scan_digits (s +:+ rest) = (s, rest).
Proof.
  intros Hs Hrest. induction s as [|c s IH].
  - destruct Hrest as [r [-> | ->]]; reflexivity.
  - cbn in Hs. apply andb_true_iff in Hs as [Hc Hs].
    cbn [String.append scan_digits]. rewrite Hc, IH by done. done.
Qed.

Lemma scan_number_decimal n rest :
  (0 < n)%N → follows rest →
  scan_number (decimal n +:+ rest) = Some (decimal n, rest).
Proof.
  intros Hpos Hrest.
  destruct (digits_of_head _ n "" Hpos (decimal_bound n)) as (d & t & Hd & Heq).
  pose proof (digits_of_all (N.to_nat (N.size n) + 1) n "" eq_refl) as Hall.
  fold (decimal n) in Heq, Hall. rewrite Heq in *.
  pose proof (scan_digits_all _ rest Hall Hrest) as Hscan.
  assert (d = 1 ∨ d = 2 ∨ d = 3 ∨ d = 4 ∨ d = 5 ∨ d = 6 ∨ d = 7 ∨ d = 8
          ∨ d = 9)%N as Hcases by lia.
  unfold scan_number.
  destruct Hrest as [r Hr].
  repeat (destruct Hcases as [->|Hcases]); try subst d;
    match goal with
    | |- context [Utf8.chr ?x] =>
        let c := eval vm_compute in (Utf8.chr x) in
        change (Utf8.chr x) with c in *
    end;
    cbn [String.append] in *; rewrite Hscan; cbn [mbind option_bind];
    (destruct (decide _) as [Heq'|_]; [discriminate Heq'|]);
    destruct Hr as [-> | ->]; cbn; by rewrite append_nil_r.
Qed.

(** *** Values and objects *)

Lemma parse_value_skip fuel depth s s' :
  skip_ws s = skip_ws s' → parse_value fuel depth s = parse_value fuel depth s'.
Proof. intros Heq. destruct fuel; [done|]. cbn [parse_value]. by rewrite Heq. Qed.

Lemma parse_members_skip fuel depth s s' acc :
  skip_ws s = skip_ws s' →
  parse_members fuel depth s acc = parse_members fuel depth s' acc.
Proof. intros Heq. destruct fuel; [done|]. cbn [parse_members]. by rewrite Heq. Qed.

(** The text [text] is read as [j] by whoever has fuel [F], whatever
    follows it. *)
Definition parses (F depth : nat) (text : string) (j : json) : Prop :=
  ∀ fuel rest, (F ≤ fuel)%nat → follows rest →
    parse_value fuel depth (text +:+ rest) = Some (j, rest).

Lemma parses_more F F' depth text j :
  (F ≤ F')%nat → parses F depth text j → parses F' depth text j.
Proof. intros Hle Hp fuel rest Hf. apply Hp. lia. Qed.

Lemma quote_append x rest :
  quote x +:+ rest = String dquote (quote_aux Plain x +:+ String dquote rest).
Proof. unfold quote. cbn [String.append]. by rewrite !append_assoc. Qed.

Lemma parses_string depth x :
  valid x = true → parses 1 depth (quote x) (JStr x).
Proof.
  intros Hx fuel rest Hf _. destruct fuel as [|fuel]; [lia|].
  rewrite quote_append. cbn [parse_value skip_ws].
  change (is_ws dquote) with false. cbv iota.
  change (Ascii.eqb dquote "{") with false.
  change (Ascii.eqb dquote "[") with false.
  change (Ascii.eqb dquote dquote) with true. cbv iota.
  rewrite scan_quoted by done. cbn. by rewrite sanitize_valid.
Qed.

Lemma parses_number depth n :
  (0 < n)%N → parses 1 depth (decimal n) (JNum (decimal n)).
Proof.
  intros Hpos fuel rest Hf Hrest. destruct fuel as [|fuel]; [lia|].
  pose proof (scan_number_decimal n rest Hpos Hrest) as Hscan.
  destruct (digits_of_head _ n "" Hpos (decimal_bound n)) as (d & t & Hd & Heq).
  fold (decimal n) in Heq. rewrite Heq in *.
  assert (d = 1 ∨ d = 2 ∨ d = 3 ∨ d = 4 ∨ d = 5 ∨ d = 6 ∨ d = 7 ∨ d = 8
          ∨ d = 9)%N as Hcases by lia.
  repeat (destruct Hcases as [->|Hcases]); try subst d;
    match goal with
    | |- context [Utf8.chr ?x] =>
        let c := eval vm_compute in (Utf8.chr x) in
        change (Utf8.chr x) with c in *
    end;
    cbn [String.append] in *; cbn [parse_value skip_ws];
    match goal with
    | |- context [is_ws ?c] => change (is_ws c) with false
    end; cbv iota;
    repeat match goal with
           | |- context [Ascii.eqb ?a ?b] =>
               let v := eval vm_compute in (Ascii.eqb a b) in
               change (Ascii.eqb a b) with v
           end;
    match goal with
    | |- context [is_digit ?c] => change (is_digit c) with true
    end; cbv iota; cbn [orb]; by rewrite Hscan.
Qed.

Lemma parses_null depth : parses 1 depth "null" JNull.
Proof.
  intros fuel rest Hf _. destruct fuel as [|fuel]; [lia|]. reflexivity.
Qed.

(** A member of an object: its key, the text of its value and what the
    value is read as. *)
Definition emitted := (string * (string * json))%type.

Definition member_text (m : emitted) : string :=
  quote m.1 +:+ ": " +:+ m.2.1.

Definition member_pair (m : emitted) : string * string := (quote m.1, m.2.1).

Definition member_json (m : emitted) : string * json := (m.1, m.2.2).

Definition member_ok (F depth : nat) (m : emitted) : Prop :=
  valid m.1 = true ∧ parses F depth m.2.1 m.2.2.

Definition separator (level : nat) : string :=
  "," +:+ newline +:+ indent (S level).

Lemma parse_member F depth fuel (m : emitted) rest acc :
  member_ok F depth m → (F ≤ fuel)%nat → follows rest →
  parse_members (S fuel) depth (member_text m +:+ rest) acc
  = match skip_ws rest with
    | String "," r4 => parse_members fuel depth r4 (member_json m :: acc)
    | String "}" r4 => Some (JObj (rev (member_json m :: acc)), r4)
    | _ => None
    end.
Proof.
  intros [Hk Hv] Hf Hrest. unfold member_text.
  rewrite !append_assoc, quote_append. cbn [parse_members skip_ws].
  change (is_ws dquote) with false. cbv iota.
  rewrite scan_quoted by done. cbn [mbind option_bind].
  cbn [String.append skip_ws]. change (is_ws ":") with false. cbv iota.
  rewrite (parse_value_skip fuel depth _ (m.2.1 +:+ rest)) by reflexivity.
  rewrite (Hv fuel rest Hf Hrest). cbn [mbind option_bind].
  rewrite sanitize_valid by done. reflexivity.
Qed.

Lemma join_with_cons sep x (l : list string) :
  l ≠ [] → join_with sep (x :: l) = x +:+ sep +:+ join_with sep l.
Proof. by destruct l. Qed.

Lemma skip_ws_comma X : skip_ws ("," +:+ X) = String "," X.
Proof. reflexivity. Qed.

Lemma skip_ws_brace X : skip_ws ("}" +:+ X) = String "}" X.
Proof. reflexivity. Qed.

Lemma parse_members_ok F depth level (ms : list emitted) :
  ms ≠ [] → Forall (member_ok F depth) ms →
  ∀ acc fuel rest, (F + length ms ≤ fuel)%nat →
    parse_members fuel depth
      (join_with (separator level) (member_text <$> ms)
       +:+ newline +:+ indent level +:+ "}" +:+ rest) acc
    = Some (JObj (rev acc ++ (member_json <$> ms)), rest).
Proof.
  induction ms as [|m ms IH]; [done|]. intros _ Hall acc fuel rest Hf.
  apply Forall_cons in Hall as [Hm Hall].
  destruct fuel as [|fuel]; [cbn in Hf; lia|]. cbn [length] in Hf.
  destruct (decide (ms = [])) as [->|Hms].
  - change (join_with (separator level) (member_text <$> [m]))
      with (member_text m).
    rewrite (parse_member F depth fuel m _ acc Hm)
      by (try lia; by eexists; right).
    rewrite skip_ws_newline, skip_ws_brace. cbv iota. reflexivity.
  - change (member_text <$> m :: ms)
      with (member_text m :: (member_text <$> ms)).
    rewrite join_with_cons by (by destruct ms).
    unfold separator at 1. rewrite !append_assoc.
    rewrite (parse_member F depth fuel m _ acc Hm)
      by (try lia; by eexists; left).
    rewrite skip_ws_comma. cbv iota.
    erewrite parse_members_skip; [|apply skip_ws_newline].
    rewrite IH; [|done|done|lia].
    cbn [rev fmap list_fmap]. by rewrite <- app_assoc.
Qed.

Lemma object_text level (ms : list emitted) :
  ms ≠ [] →
  object level (member_pair <$> ms)
  = "{" +:+ newline +:+ indent (S level)
    +:+ join_with (separator level) (member_text <$> ms)
    +:+ newline +:+ indent level +:+ "}".
Proof.
  intros Hms. unfold object. destruct ms as [|m ms]; [done|].
  cbn [fmap list_fmap]. rewrite <- list_fmap_compose. reflexivity.
Qed.

Lemma join_with_head sep (m : emitted) (l : list string) :
  ∃ t, join_with sep (member_text m :: l) = String dquote t.
Proof.
  unfold member_text, quote. destruct l; cbn [join_with String.append]; eauto.
Qed.

(** An object laid out by [object] is read as the object of its
    members, by whoever has fuel for them. *)
Lemma parse_object F depth level (ms : list emitted) fuel rest :
  Forall (member_ok F depth) ms → (S (F + length ms) ≤ fuel)%nat →
  parse_value fuel (S depth) (object level (member_pair <$> ms) +:+ rest)
  = Some (JObj (member_json <$> ms), rest).
Proof.
  intros Hall Hf. destruct fuel as [|fuel]; [lia|].
  destruct ms as [|m ms]; [reflexivity|].
  rewrite object_text by done. rewrite !append_assoc.
  pose proof (parse_members_ok F depth level (m :: ms) ltac:(done) Hall []
                fuel rest ltac:(cbn [length] in *; lia)) as Hmem.
  change (member_text <$> m :: ms)
    with (member_text m :: (member_text <$> ms)) in *.
  destruct (join_with_head (separator level) m (member_text <$> ms)) as [t Ht].
  rewrite Ht in *.
  cbn [String.append parse_value skip_ws] in *. change (is_ws "{") with false.
  cbv iota. change (Ascii.eqb "{" "{") with true. cbv iota.
  rewrite skip_ws_newline. cbn [skip_ws]. change (is_ws dquote) with false.
  cbv iota. exact Hmem.
Qed.

(** *** The text of a configuration *)

Definition string_member (key value : string) : emitted :=
  (key, (quote value, JStr value)).

Definition optional (key value : string) : list emitted :=
  if decide (value = "") then [] else [string_member key value].

Definition port_member (port : N) : list emitted :=
  if decide (port = 0%N) then []
  else [("port", (decimal port, JNum (decimal port)))].

(** The members [MarshalIndent] writes for a repository. *)
Definition repository_doc (r : Repository) : list emitted :=
  [string_member "type" (r_Type r)]
  ++ optional "path" (r_Path r)
  ++ optional "host" (r_Host r)
  ++ port_member (r_Port r)
  ++ optional "user" (r_User r)
  ++ optional "private_key" (r_PrivateKey r)
  ++ optional "password" (r_Password r).

Definition repository_json (r : Repository) : json :=
  JObj (member_json <$> repository_doc r).

Definition entry_member (level : nat) (kr : string * Repository) : emitted :=
  (kr.1, (object (S level) (repository_members kr.2), repository_json kr.2)).

Definition repositories_json (m : option (gmap string Repository)) : json :=
  match m with
  | None => JNull
  | Some g => JObj (member_json <$> (entry_member 1 <$> sorted_entries g))
  end.

Definition config_doc (c : Config) : list emitted :=
  [ string_member "current" (c_Current c);
    ("repositories",
     (marshal_repositories 1 (c_Repositories c),
      repositories_json (c_Repositories c))) ].

Definition config_json (c : Config) : json :=
  JObj (member_json <$> config_doc c).

(** The strings of a repository are well-formed UTF-8 and its port is a
    [uint]. *)
Definition repository_ok (r : Repository) : Prop :=
  valid (r_Type r) = true ∧ valid (r_Path r) = true
  ∧ valid (r_Host r) = true ∧ valid (r_User r) = true
  ∧ valid (r_PrivateKey r) = true ∧ valid (r_Password r) = true
  ∧ (r_Port r < 2 ^ 64)%N.

(** A configuration as Go has it in memory when its strings were read
    from text: every string is well-formed UTF-8, every port a
    [uint]. *)
Definition config_ok (c : Config) : Prop :=
  valid (c_Current c) = true
  ∧ ∀ g k r, c_Repositories c = Some g → g !! k = Some r →
             valid k = true ∧ repository_ok r.

Lemma repository_members_doc r :
  repository_members r = member_pair <$> repository_doc r.
Proof.
  unfold repository_members, repository_doc, omitempty, optional, port_member.
  repeat destruct (decide _); reflexivity.
Qed.

Lemma optional_ok depth key value :
  valid key = true → valid value = true →
  Forall (member_ok 1 depth) (optional key value).
Proof.
  intros Hk Hv. unfold optional. destruct (decide _); [done|].
  apply Forall_singleton. split; [done|]. by apply parses_string.
Qed.

Lemma repository_doc_ok depth r :
  repository_ok r → Forall (member_ok 1 depth) (repository_doc r).
Proof.
  intros (Hty & Hpath & Hhost & Huser & Hkey & Hpw & Hport).
  unfold repository_doc. repeat apply Forall_app_2;
    try (by apply optional_ok).
  - apply Forall_singleton. split; [done|]. by apply parses_string.
  - unfold port_member. destruct (decide _) as [|Hne]; [done|].
    apply Forall_singleton. split; [done|]. apply parses_number. lia.
Qed.

Lemma repository_doc_length r : (length (repository_doc r) ≤ 7)%nat.
Proof.
  unfold repository_doc, optional, port_member. rewrite !length_app.
  repeat destruct (decide _); cbn; lia.
Qed.

Lemma parse_repository depth level r fuel rest :
  repository_ok r → (9 ≤ fuel)%nat →
  parse_value fuel (S depth) (object level (repository_members r) +:+ rest)
  = Some (repository_json r, rest).
Proof.
  intros Hr Hf. rewrite repository_members_doc.
  apply (parse_object 1); [by apply repository_doc_ok|].
  pose proof (repository_doc_length r). lia.
Qed.

Lemma marshal_repositories_doc level g :
  marshal_repositories level (Some g)
  = object level (member_pair <$> (entry_member level <$> sorted_entries g)).
Proof.
  unfold marshal_repositories. by rewrite <- list_fmap_compose.
Qed.

Lemma entries_ok depth (l : list (string * Repository)) :
  Forall (λ kr, valid kr.1 = true ∧ repository_ok kr.2) l →
  Forall (member_ok 9 (S depth)) (entry_member 1 <$> l).
Proof.
  intros Hl. apply Forall_fmap. eapply Forall_impl; [exact Hl|].
  intros [k r] [Hk Hr]. split; [done|]. intros fuel rest Hf _.
  by apply parse_repository.
Qed.

Lemma config_entries_ok c g :
  config_ok c → c_Repositories c = Some g →
  Forall (λ kr, valid kr.1 = true ∧ repository_ok kr.2) (sorted_entries g).
Proof.
  intros [_ Hc] Hg. apply Forall_forall. intros [k r] Hin.
  unfold sorted_entries in Hin. rewrite merge_sort_Permutation in Hin.
  apply elem_of_map_to_list in Hin. by apply (Hc g).
Qed.

(** The number of repositories. *)
Definition count (c : Config) : nat :=
  match c_Repositories c with
  | None => 0
  | Some g => length (sorted_entries g)
  end.

Lemma parses_repositories depth c :
  config_ok c →
  parses (10 + count c) (S (S depth))
    (marshal_repositories 1 (c_Repositories c))
    (repositories_json (c_Repositories c)).
Proof.
  intros Hc. unfold count. destruct (c_Repositories c) as [g|] eqn:Hg.
  - intros fuel rest Hf _. rewrite marshal_repositories_doc.
    apply (parse_object 9).
    + apply entries_ok. by apply (config_entries_ok c).
    + rewrite length_fmap. lia.
  - eapply parses_more; [|apply parses_null]. lia.
Qed.

Lemma config_doc_ok depth c :
  config_ok c →
  Forall (member_ok (10 + count c) (S (S depth))) (config_doc c).
Proof.
  intros Hc. apply Forall_cons. split; [|apply Forall_singleton]. 
  - split; [done|]. eapply parses_more; [|apply parses_string, Hc]. lia.
  - split; [done|]. by apply parses_repositories.
Qed.

Lemma marshal_config_doc c :
  marshal_config c = object 0 (member_pair <$> config_doc c).
Proof. reflexivity. Qed.

(** *** Lengths *)

Lemma join_with_length sep (l : list string) :
  Forall (λ x, x ≠ "") l → (length l ≤ String.length (join_with sep l))%nat.
Proof.
  induction l as [|x l IH]; intros Hl; [cbn; lia|].
  apply Forall_cons in Hl as [Hx Hl]. destruct (decide (l = [])) as [->|Hne].
  - destruct x; [done|]. cbn. lia.
  - rewrite join_with_cons, !length_append by done. specialize (IH Hl).
    cbn [length]. destruct x; [done|]. cbn [String.length]. lia.
Qed.

Lemma object_length level (ms : list emitted) :
  (length ms ≤ String.length (object level (member_pair <$> ms)))%nat.
Proof.
  destruct (decide (ms = [])) as [->|Hne]; [cbn; lia|].
  rewrite object_text, !length_append by done.
  pose proof (join_with_length (separator level) (member_text <$> ms)) as Hl.
  rewrite length_fmap in Hl. etrans; [apply Hl|lia].
  apply Forall_fmap, Forall_true. intros m. by unfold member_text, quote.
Qed.

Lemma marshal_config_length c :
  (12 + count c ≤ String.length (marshal_config c))%nat.
Proof.
  rewrite marshal_config_doc, object_text by done.
  cbn [config_doc fmap list_fmap]. rewrite join_with_cons by done.
  change (join_with (separator 0) [?x]) with x.
  unfold member_text at 2. cbn [fst snd].
  rewrite !length_append.
  assert (count c ≤ String.length (marshal_repositories 1 (c_Repositories c)))%nat.
  { unfold count. destruct (c_Repositories c) as [g|]; [|lia].
    rewrite marshal_repositories_doc.
    etrans; [|apply object_length]. by rewrite length_fmap. }
  change (String.length (quote "repositories")) with 14%nat.
  change (String.length "{") with 1%nat. lia.
Qed.

Lemma parse_marshal c :
  config_ok c → parse (marshal_config c) = Some (config_json c).
Proof.
  intros Hc. unfold parse.
  assert (maxNestingDepth = S (S (S 9997))) as -> by (vm_compute; reflexivity).
  rewrite <- (append_nil_r (marshal_config c)) at 2.
  rewrite marshal_config_doc at 2.
  rewrite (parse_object (10 + count c) (S (S 9997)) 0 (config_doc c)).
  - cbn [mbind option_bind]. reflexivity.
  - by apply config_doc_ok.
  - pose proof (marshal_config_length c). cbn [length config_doc]. lia.
Qed.

(** *** Reading the configuration back *)

Lemma decode_repository_json r :
  (r_Port r < 2 ^ 64)%N →
  decode_repository (repository_json r) zeroRepository = (r, None).
Proof.
  intros Hport. destruct r as [ty path host port user key pw].
  cbn [r_Port] in Hport.
  unfold repository_json, repository_doc, optional, port_member.
  cbn [r_Type r_Path r_Host r_Port r_User r_PrivateKey r_Password].
  pose proof (parse_uint_decimal port Hport) as Huint.
  repeat (destruct (decide _) as [->|?]);
    cbv -[parse_uint decimal];
    rewrite ?Huint; reflexivity.
Qed.

Lemma decode_entry g k r :
  (r_Port r < 2 ^ 64)%N →
  decode_map_member (g, None) (k, repository_json r) = (<[k := r]> g, None).
Proof.
  intros Hr. unfold decode_map_member. cbn [fst snd].
  by rewrite decode_repository_json.
Qed.

Lemma decode_entries (l : list (string * Repository))
  (g : gmap string Repository) :
  Forall (λ kr, valid kr.1 = true ∧ repository_ok kr.2) l →
  fold_left decode_map_member (member_json <$> (entry_member 1 <$> l))
    (g, None)
  = (fold_left (λ g kr, <[kr.1 := kr.2]> g) l g, None).
Proof.
  revert g. induction l as [|[k r] l IH]; intros g Hl; [done|].
  apply Forall_cons in Hl as [[_ Hr] Hl]. cbn [fmap list_fmap fold_left].
  change (member_json (entry_member 1 (k, r))) with (k, repository_json r).
  rewrite decode_entry by apply Hr. by apply IH.
Qed.

Lemma fold_insert_list (l : list (string * Repository))
  (g : gmap string Repository) :
  fold_left (λ g kr, <[kr.1 := kr.2]> g) l g = list_to_map (reverse l) ∪ g.
Proof.
  revert g. induction l as [|[k r] l IH]; intros g.
  - cbn. by rewrite (left_id_L ∅ (∪)).
  - cbn [fold_left fst snd]. rewrite IH, reverse_cons, list_to_map_app.
    cbn [list_to_map foldr]. rewrite <- (assoc_L (∪)). f_equal.
    by rewrite insert_union_singleton_l, insert_empty.
Qed.

Lemma fold_sorted_entries (g : gmap string Repository) :
  fold_left (λ g kr, <[kr.1 := kr.2]> g) (sorted_entries g) ∅ = g.
Proof.
  rewrite fold_insert_list, (right_id_L ∅ (∪)).
  rewrite <- (list_to_map_to_list g) at 2.
  apply list_to_map_proper.
  - rewrite fmap_reverse, reverse_Permutation. unfold sorted_entries.
    rewrite merge_sort_Permutation. apply NoDup_fst_map_to_list.
  - rewrite reverse_Permutation. apply merge_sort_Permutation.
Qed.

Lemma decode_config_json c :
  config_ok c → decode_config (config_json c) zeroConfig = (c, None).
Proof.
  intros Hc. destruct c as [cur reps].
  change (config_json (mkConfig cur reps))
    with (JObj [("current", JStr cur);
                ("repositories", repositories_json reps)]).
  cbn [decode_config fold_left].
  change (decode_config_member (zeroConfig, None) ("current", JStr cur))
    with (mkConfig cur None, None : option error).
  change (decode_config_member (mkConfig cur None, None)
            ("repositories", repositories_json reps))
    with (let '(m, e') := decode_repositories (repositories_json reps) None in
          (mkConfig cur m, first_error (None : option error) e')).
  destruct reps as [g|]; [|reflexivity].
  cbn [repositories_json decode_repositories].
  change (default ∅ None) with (∅ : gmap string Repository).
  rewrite decode_entries by (by apply (config_entries_ok _ g Hc)).
  by rewrite fold_sorted_entries.
Qed.

(** X15: the text [json.MarshalIndent] produces for a configuration
    whose strings are well-formed UTF-8 and whose ports are 64-bit is
    accepted by [json.Unmarshal], which decodes it into a zero [Config]
    without error and yields the configuration that was written: no
    key, field or repository is lost or changed, and a nil map stays
    nil. *)
Theorem Unmarshal_marshal c :
  config_ok c → Unmarshal (marshal_config c) zeroConfig = (c, None).
Proof.
  intros Hc. unfold Unmarshal. rewrite parse_marshal by done.
  by apply decode_config_json.
Qed.

(** *** What is read is well-formed *)

(** Every string of the document, keys included, is well-formed
    UTF-8. *)
Fixpoint json_ok (j : json) : Prop :=
  match j with
  | JStr s => valid s = true
  | JObj m =>
      (fix all (m : list (string * json)) : Prop :=
         match m with
         | [] => True
         | kv :: m' => (valid kv.1 = true ∧ json_ok kv.2) ∧ all m'
         end) m
  | _ => True
  end.

Definition members_ok (m : list (string * json)) : Prop :=
  Forall (λ kv, valid kv.1 = true ∧ json_ok kv.2) m.

Lemma json_ok_obj m : json_ok (JObj m) ↔ members_ok m.
Proof.
  unfold members_ok. induction m as [|kv m IH]; [by split|].
  rewrite Forall_cons, <- IH. reflexivity.
Qed.

Lemma valid_replacement X :
  valid_aux 0 (Utf8.replacement +:+ X) = valid_aux 0 X.
Proof. reflexivity. Qed.

Lemma rune_len_fix b s n :
  Utf8.rune_len (String b s) = S n →
  Utf8.rune_len (String b (Utf8.fix_aux n s)) = S n.
Proof.
  unfold Utf8.rune_len.
  destruct s as [|b1 [|b2 [|b3 t]]]; try done;
    repeat (match goal with
            | |- context [if ?c then _ else _] => destruct c eqn:?
            end; try done);
    intros [= <-]; cbn [Utf8.fix_aux];
    repeat match goal with
           | H : ?c = _ |- context [?c] => rewrite H
           end; reflexivity.
Qed.

Lemma valid_fix_aux s : ∀ k, valid_aux k (Utf8.fix_aux k s) = true.
Proof.
  induction s as [|b s IH]; intros k; [done|]. cbn [Utf8.fix_aux].
  destruct k as [|k]; [|apply IH].
  destruct (Utf8.byte b <? 128)%N eqn:Hb.
  { cbn [valid_aux]. rewrite Hb. apply IH. }
  destruct (Utf8.rune_len (String b s)) as [|n] eqn:Hn.
  { rewrite valid_replacement. apply IH. }
  cbn [valid_aux]. rewrite Hb, (rune_len_fix _ _ _ Hn). apply IH.
Qed.

Lemma valid_sanitize s : valid (Utf8.sanitize s) = true.
Proof. apply valid_fix_aux. Qed.

Ltac head_cases t H :=
  destruct t as [|[[] [] [] [] [] [] [] []] ?];
  cbv beta iota in H; try discriminate H.

Lemma parse_value_ok fuel :
  (∀ depth s j r, parse_value fuel depth s = Some (j, r) → json_ok j)
  ∧ (∀ depth s acc j r,
       members_ok acc → parse_members fuel depth s acc = Some (j, r) →
       json_ok j)
  ∧ (∀ depth s acc j r,
       parse_elements fuel depth s acc = Some (j, r) → json_ok j).
Proof.
  induction fuel as [|fuel (IHv & IHm & IHe)]; [done|]. split; [|split].
  - intros depth s j r. cbn [parse_value].
    destruct (skip_ws s) as [|c rest]; [done|].
    destruct (Ascii.eqb c "{").
    { destruct depth as [|d]; [done|]. intros Hp.
      head_cases (skip_ws rest) Hp;
        first [ by (injection Hp as <- _)
              | by (eapply (IHm _ _ []); [constructor|exact Hp]) ]. }
    destruct (Ascii.eqb c "[").
    { destruct depth as [|d]; [done|]. intros Hp.
      head_cases (skip_ws rest) Hp;
        first [ by (injection Hp as <- _) | by (eapply IHe; exact Hp) ]. }
    destruct (Ascii.eqb c dquote).
    { destruct (scan_string rest) as [[str r']|]; [|done].
      intros [= <- _]. apply valid_sanitize. }
    destruct (Ascii.eqb c "-" || is_digit c).
    { destruct (scan_number _) as [[lit r']|]; [|done]. by intros [= <- _]. }
    destruct (strip_prefix "true" _); [by intros [= <- _]|].
    destruct (strip_prefix "false" _); [by intros [= <- _]|].
    destruct (strip_prefix "null" _); [by intros [= <- _]|done].
  - intros depth s acc j r Hacc. cbn [parse_members]. intros Hp.
    head_cases (skip_ws s) Hp.
    destruct (scan_string _) as [[k r1]|]; [|done].
    cbn [mbind option_bind] in Hp.
    head_cases (skip_ws r1) Hp.
    destruct (parse_value fuel depth _) as [[v r3]|] eqn:Hv; [|done].
    cbn [mbind option_bind] in Hp.
    assert (members_ok ((Utf8.sanitize k, v) :: acc)) as Hacc'.
    { constructor; [|done]. split; [apply valid_sanitize|by eapply IHv]. }
    head_cases (skip_ws r3) Hp.
    + injection Hp as <- _. apply json_ok_obj. exact (Forall_rev Hacc').
    + by eapply IHm.
  - intros depth s acc j r. cbn [parse_elements]. intros Hp.
    destruct (parse_value fuel depth s) as [[v r1]|]; [|done].
    cbn [mbind option_bind] in Hp.
    head_cases (skip_ws r1) Hp.
    + by injection Hp as <- _.
    + by eapply IHe.
Qed.

Lemma parse_ok data j : parse data = Some j → json_ok j.
Proof.
  unfold parse. destruct (parse_value _ _ _) as [[j' rest]|] eqn:Hp; [|done].
  cbn [mbind option_bind]. destruct (decide (skip_ws rest = "")); [|done].
  intros [= <-]. exact (proj1 (parse_value_ok _) _ _ _ _ Hp).
Qed.

Lemma decode_string_valid j old :
  json_ok j → valid old = true → valid (decode_string j old).1 = true.
Proof. by destruct j. Qed.

Lemma decode_uint_bound j old :
  (old < 2 ^ 64)%N → ((decode_uint j old).1 < 2 ^ 64)%N.
Proof.
  intros Hold. destruct j as [| |lit| | |]; try done. cbn [decode_uint].
  unfold parse_uint. destruct (digits_value 0 lit) as [n|]; [|done].
  destruct (n <? 2 ^ 64)%N eqn:Hn; [|done]. by apply N.ltb_lt.
Qed.

Lemma decode_repository_member_ok st kv :
  repository_ok st.1 → json_ok kv.2 →
  repository_ok (decode_repository_member st kv).1.
Proof.
  destruct st as [r e], kv as [k v]. cbn [fst snd].
  intros (Hty & Hpath & Hhost & Huser & Hkey & Hpw & Hport) Hv.
  unfold decode_repository_member.
  pose proof (decode_uint_bound v (r_Port r) Hport) as Hn.
  pose proof (λ old, decode_string_valid v old Hv) as Hs.
  destruct (field_of repository_fields k) as [[]|]; [..|done];
    cbv beta zeta;
    first [ match goal with
            | |- context [decode_string v ?old] =>
                specialize (Hs old); destruct (decode_string v old) as [x e']
            end
          | destruct (decode_uint v (r_Port r)) as [x e'] ];
    repeat split; cbn in *; auto.
Qed.

Lemma decode_repository_ok j old :
  json_ok j → repository_ok old → repository_ok (decode_repository j old).1.
Proof.
  destruct j as [| | | | |m]; try done. rewrite json_ok_obj.
  cbn [decode_repository]. generalize (None : option error).
  revert old. induction m as [|kv m IH]; intros old e Hm Hold; [done|].
  apply Forall_cons in Hm as [[_ Hkv] Hm]. cbn [fold_left].
  pose proof (decode_repository_member_ok (old, e) kv Hold Hkv) as Hstep.
  destruct (decode_repository_member (old, e) kv) as [r' e']. by apply IH.
Qed.

(** The keys and the repositories of a map are well-formed. *)
Definition map_ok (g : gmap string Repository) : Prop :=
  ∀ k r, g !! k = Some r → valid k = true ∧ repository_ok r.

Lemma zeroRepository_ok : repository_ok zeroRepository.
Proof. by repeat split. Qed.

Lemma decode_map_ok m :
  members_ok m → ∀ g e, map_ok g → map_ok (fold_left decode_map_member m (g, e)).1.
Proof.
  induction m as [|kv m IH]; intros Hm g e Hg; [done|].
  apply Forall_cons in Hm as [[Hk Hv] Hm]. cbn [fold_left].
  unfold decode_map_member at 2.
  pose proof (decode_repository_ok kv.2 zeroRepository Hv zeroRepository_ok)
    as Hr.
  destruct (decode_repository kv.2 zeroRepository) as [r e']. apply IH; [done|].
  intros k' r' [[<- <-]|[_ Hin]]%lookup_insert_Some; [done|by apply Hg].
Qed.

Definition repositories_ok (m : option (gmap string Repository)) : Prop :=
  ∀ g, m = Some g → map_ok g.

Lemma decode_repositories_ok j old :
  json_ok j → repositories_ok old →
  repositories_ok (decode_repositories j old).1.
Proof.
  intros Hj Hold. destruct j as [| | | | |m]; try done.
  apply json_ok_obj in Hj. cbn [decode_repositories].
  assert (map_ok (default ∅ old)) as Hg.
  { destruct old as [g|]; [by apply Hold|]. intros k r Hk.
    change (default ∅ None) with (∅ : gmap string Repository) in Hk.
    by apply lookup_empty_Some in Hk. }
  pose proof (decode_map_ok m Hj _ None Hg) as Hfold.
  destruct (fold_left _ _ _) as [g e]. by intros ? [= <-].
Qed.

Lemma decode_config_member_ok st kv :
  config_ok st.1 → json_ok kv.2 → config_ok (decode_config_member st kv).1.
Proof.
  destruct st as [c e]. cbn [fst]. intros [Hcur Hreps] Hv.
  unfold decode_config_member.
  destruct (field_of config_fields kv.1) as [[]|]; [| |done].
  - pose proof (decode_string_valid kv.2 (c_Current c) Hv Hcur) as Hs.
    destruct (decode_string _ _) as [x e']. by split.
  - pose proof (decode_repositories_ok kv.2 (c_Repositories c) Hv) as Hm.
    destruct (decode_repositories _ _) as [m e']. split; [done|].
    intros g k r Hg. apply Hm; [|done].
    intros g' Hg' k' r'. by apply Hreps.
Qed.

Lemma decode_config_ok j old :
  json_ok j → config_ok old → config_ok (decode_config j old).1.
Proof.
  destruct j as [| | | | |m]; try done. rewrite json_ok_obj.
  cbn [decode_config]. generalize (None : option error).
  revert old. induction m as [|kv m IH]; intros old e Hm Hold; [done|].
  apply Forall_cons in Hm as [[_ Hkv] Hm]. cbn [fold_left].
  pose proof (decode_config_member_ok (old, e) kv Hold Hkv) as Hstep.
  destruct (decode_config_member (old, e) kv) as [c' e']. by apply IH.
Qed.

Lemma Unmarshal_ok data : config_ok (Unmarshal data zeroConfig).1.
Proof.
  assert (config_ok zeroConfig) as Hz by (by split).
  unfold Unmarshal. destruct (parse data) as [j|] eqn:Hp; [|done].
  apply decode_config_ok; [by eapply parse_ok|done].
Qed.

End Roundtrip.

(** ** What is saved is what the next run loads *)
Module Persistence.
Import Path Unix JSON Canonical PathFacts FsFacts Machine Examples Roundtrip.

(** A file written by [ioutil.WriteFile] can be opened, and holds what
    was written. *)
Lemma WriteFile_read p data perm (f : fs) :
  (WriteFile p data perm f).1 = None →
  ∃ q, Open p (WriteFile p data perm f).2 = Ok q
       ∧ ReadAll q (WriteFile p data perm f).2 = Ok data.
Proof.
  unfold WriteFile, Create.
  destruct (resolve f p) as [q|] eqn:Hr; [|done].
  assert (∀ f1 : fs,
            f1 = mkFs (<[q := Reg ""]> (files f)) (cwd f) →
            files f !! q ≠ Some Dir →
            (let '(e, t) := write_at q data (files f1) in (e, mkFs t (cwd f1))).1
              = None →
            ∃ q0, Open p (let '(e, t) := write_at q data (files f1) in
                         (e, mkFs t (cwd f1))).2 = Ok q0
                  ∧ ReadAll q0 (let '(e, t) := write_at q data (files f1) in
                               (e, mkFs t (cwd f1))).2 = Ok data) as Hfile.
  { intros f1 -> Hq _. unfold write_at. cbn [files cwd].
    rewrite lookup_insert_eq, overwrite_empty, insert_insert_eq. cbn [snd].
    exists q. unfold Open, ReadAll. cbn [files].
    rewrite (dirs_kept_resolve f _ p q); [by rewrite lookup_insert_eq|done| |done].
    intros x Hx. cbn [files]. rewrite lookup_insert_ne; [done|].
    intros ->. by apply Hq. }
  destruct (files f !! q) as [[|old]|] eqn:Hq; [done|..];
    by apply Hfile.
Qed.

(** What [loadConfig] returns was decoded from some text. *)
Lemma loadConfig_decodes `{Sys} (s : State) config :
  (loadConfig s).1 = Ret (Ok config) →
  ∃ data, config = (Unmarshal data zeroConfig).1.
Proof.
  unfold loadConfig, bind, os_Open, ioutil_ReadAll, local_query, Close, ret.
  cbn. destruct (sys_Open _ _) as [h|e]; cbn; [|done].
  destruct (sys_ReadAll _ _) as [data|e]; cbn; [|done].
  intros [= <-]. by exists data.
Qed.

(** After [ioutil.WriteFile] has written the text of a well-formed
    configuration, [loadConfig] returns that configuration. *)
Lemma loadConfig_written config (s s1 : State) :
  config_ok config →
  (WriteFile configPath (saved_bytes config) 420%N (st_local s)).1 = None →
  st_local s1 = (WriteFile configPath (saved_bytes config) 420%N (st_local s)).2 →
  (loadConfig s1).1 = Ret (Ok config).
Proof.
  intros Hc Hw Hs1.
  destruct (WriteFile_read _ _ _ _ Hw) as (q & Hopen & Hread).
  destruct (loadConfig_outcomes s1) as (_ & _ & Hok & _).
  rewrite (Hok q (saved_bytes config)) by (by rewrite Hs1).
  unfold saved_bytes, Unmarshal.
  by rewrite parse_marshal, decode_config_json.
Qed.

(** X17: on a Unix machine, when [saveConfig] reports no error for a
    configuration whose strings are well-formed UTF-8 and whose ports
    are 64-bit, [loadConfig] run afterwards returns that very
    configuration. *)
Theorem saved_configuration_is_loaded (config : Config) (s : State) :
  config_ok config →
  (saveConfig config s).1 = Ret None →
  (loadConfig (saveConfig config s).2).1 = Ret (Ok config).
Proof.
  intros Hc. rewrite saveConfig_run. cbn [fst snd]. intros [= Hw].
  by apply (loadConfig_written config s).
Qed.

(** X18: on a Unix machine, when [set N] returns, the configuration the
    next run loads is the one this run loaded with [Current] set to
    [N]: nothing else of it has changed, whatever the text of the file
    was. *)
Theorem set_is_seen_by_the_next_run (fuel : nat) (name : string)
  (rest : list string) (s : State) :
  (main fuel ("set" :: name :: rest) s).1 = Ret tt →
  ∃ config,
    (loadConfig s).1 = Ret (Ok config)
    ∧ (loadConfig (main fuel ("set" :: name :: rest) s).2).1
      = Ret (Ok (set_Current config name)).
Proof.
  destruct (main fuel ("set" :: name :: rest) s) as [res s1] eqn:Hmain.
  cbn [fst snd]. intros ->. revert Hmain.
  unfold main. unfold bind at 1.
  pose proof (loadConfig_decodes s) as Hdec.
  destruct (loadConfig s) as [[[config|e]|c|msg|] s0]; cbn [fst snd] in *;
    try done.
  destruct (Hdec config eq_refl) as [data ->].
  destruct (decide ("set" = "list")); [done|].
  destruct (decide ("set" = "set")); [|done].
  set (config := (Unmarshal data zeroConfig).1).
  pose proof (Unmarshal_ok data) as Hc. fold config in Hc.
  unfold bind. rewrite setRepository_run.
  destruct (c_Repositories config ≫= _) as [r|] eqn:Hkey; [|done].
  cbv zeta.
  destruct (sys_WriteFile _ _ _ _).1 as [err|] eqn:Hw; [done|].
  unfold ret. intros [= <-]. exists config. split; [done|].
  apply (loadConfig_written _ s0); [|exact Hw|reflexivity].
  destruct Hc as [Hcur Hreps]. split.
  - destruct (c_Repositories config) as [g|] eqn:Hg; [|done].
    cbn in Hkey. by destruct (Hreps g name r).
  - intros g k r'. apply Hreps.
Qed.

Lemma map_index_ok (m : option (gmap string Repository)) k :
  repositories_ok m → repository_ok (map_index m k).1.
Proof.
  intros Hm. unfold map_index.
  destruct m as [g|]; cbn; [|apply zeroRepository_ok].
  destruct (g !! k) as [r|] eqn:Hk; cbn; [|apply zeroRepository_ok].
  by destruct (Hm g eq_refl k r).
Qed.

Lemma cd_config_ok config newDir :
  let repo := (map_index (c_Repositories config) (c_Current config)).1 in
  config_ok config → valid (cd_target repo newDir) = true →
  config_ok (cd_config config newDir).
Proof.
  intros repo [Hcur Hreps] Hv. split; [done|].
  assert (repository_ok repo) as Hrepo.
  { apply map_index_ok. intros g Hg k r. by apply Hreps. }
  unfold cd_config, map_assign. fold repo. cbn [c_Repositories set_Repositories].
  intros g' k r Hg'. destruct (c_Repositories config) as [g|] eqn:Hg; [|done].
  injection Hg' as <-.
  intros [[<- <-]|[_ Hin]]%lookup_insert_Some; [|by apply (Hreps g)].
  split; [done|]. destruct Hrepo as (? & ? & ? & ? & ? & ? & ?).
  by repeat split.
Qed.

(** X19: on a Unix machine, when [cd D] returns for a repository of
    type [local] or [ssh] and the path it stores is well-formed UTF-8,
    the next run loads the configuration this run loaded with the path
    of the current repository replaced by that path, and nothing else
    changed. *)
Theorem cd_is_seen_by_the_next_run (fuel : nat) (newDir : string)
  (rest : list string) (s s0 : State) (config : Config) :
  loadConfig s = (Ret (Ok config), s0) →
  (is_local (r_Type (map_index (c_Repositories config)
                       (c_Current config)).1) = true
   ∨ r_Type (map_index (c_Repositories config) (c_Current config)).1 = "ssh") →
  valid (cd_target (map_index (c_Repositories config) (c_Current config)).1
           newDir) = true →
  (main fuel ("cd" :: newDir :: rest) s).1 = Ret tt →
  (loadConfig (main fuel ("cd" :: newDir :: rest) s).2).1
  = Ret (Ok (cd_config config newDir)).
Proof.
  intros Hload Hty Hv.
  assert (config_ok config) as Hc.
  { destruct (loadConfig_decodes s config) as [data ->]; [by rewrite Hload|].
    apply Unmarshal_ok. }
  destruct (main fuel ("cd" :: newDir :: rest) s) as [res s2] eqn:Hmain.
  cbn [fst snd]. intros ->. revert Hmain.
  unfold main. unfold bind at 1. rewrite Hload.
  repeat (destruct (decide _); [discriminate|]).
  destruct (decide _); [|done]. unfold bind.
  destruct (changeDirectory config newDir s0) as [r s1] eqn:Hrun.
  destruct (changeDirectory_cases _ _ _ _ _ Hrun)
    as [(Hloc & Hssh & _)|[_ [(s' & [Hs' _] & Hfin)|[-> _]]]].
  - destruct Hty as [Hty|Hty]; [by rewrite Hty in Hloc|done].
  - revert Hfin. unfold cd_finish.
    destruct (sys_WriteFile _ _ _ _).1 as [err|] eqn:Hw; [by intros [= -> ->]|].
    cbv zeta. intros [= -> ->]. unfold ret. intros [= <-].
    apply (loadConfig_written _ s'); [by apply cd_config_ok|exact Hw|].
    by destruct (decide _).
  - done.
Qed.

(** X16: the text the program saves after loading any file at all is a
    fixed point: loaded again it gives, without error, the very
    configuration that was saved, and saving that reproduces the text
    byte for byte. *)
Theorem saved_text_is_stable (data : string) :
  Unmarshal (load_then_save data) zeroConfig
  = ((Unmarshal data zeroConfig).1, None)
  ∧ load_then_save (load_then_save data) = load_then_save data.
Proof.
  assert (Unmarshal (load_then_save data) zeroConfig
          = ((Unmarshal data zeroConfig).1, None)) as Hload.
  { unfold load_then_save, saved_bytes. unfold Unmarshal at 1.
    by rewrite parse_marshal, decode_config_json by apply Unmarshal_ok. }
  split; [exact Hload|]. unfold load_then_save at 1. by rewrite Hload.
Qed.

(** *** Runs *)

Definition home_config : Config :=
  mkConfig "home"
    (Some {[ "home" := mkRepository "local" "/srv" "" 0 "" "" "" ]}).

Lemma home_config_ok : config_ok home_config.
Proof.
  split; [reflexivity|]. intros g k r [= <-].
  intros [<- <-]%lookup_singleton_Some. by repeat split.
Qed.

Lemma Unmarshal_marshal_witness :
  config_ok home_config
  ∧ Unmarshal (marshal_config home_config) zeroConfig = (home_config, None).
Proof.
  split; [exact home_config_ok|].
  apply (Unmarshal_marshal home_config). exact home_config_ok.
Defined.

Lemma saved_configuration_is_loaded_witness :
  config_ok home_config
  ∧ (saveConfig home_config Runs.local_machine).1 = Ret None
  ∧ (loadConfig (saveConfig home_config Runs.local_machine).2).1
    = Ret (Ok home_config).
Proof.
  assert ((saveConfig home_config Runs.local_machine).1 = Ret None) as Hsave
    by (vm_compute; reflexivity).
  split; [exact home_config_ok|]. split; [exact Hsave|].
  apply (saved_configuration_is_loaded home_config Runs.local_machine).
  - exact home_config_ok.
  - exact Hsave.
Defined.

Lemma set_is_seen_by_the_next_run_witness :
  (main 5 ["set"; "f"] Runs.local_machine).1 = Ret tt
  ∧ ∃ config,
      (loadConfig Runs.local_machine).1 = Ret (Ok config)
      ∧ (loadConfig (main 5 ["set"; "f"] Runs.local_machine).2).1
        = Ret (Ok (set_Current config "f")).
Proof.
  assert ((main 5 ["set"; "f"] Runs.local_machine).1 = Ret tt) as Hrun
    by (vm_compute; reflexivity).
  split; [exact Hrun|].
  apply (set_is_seen_by_the_next_run 5 "f" [] Runs.local_machine). exact Hrun.
Defined.

Lemma cd_is_seen_by_the_next_run_witness :
  loadConfig Runs.local_machine
  = (Ret (Ok Runs.local_config), (loadConfig Runs.local_machine).2)
  ∧ valid (cd_target (map_index (c_Repositories Runs.local_config)
                        (c_Current Runs.local_config)).1 "sub") = true
  ∧ (main 5 ["cd"; "sub"] Runs.local_machine).1 = Ret tt
  ∧ (loadConfig (main 5 ["cd"; "sub"] Runs.local_machine).2).1
    = Ret (Ok (cd_config Runs.local_config "sub")).
Proof.
  assert (valid (cd_target (map_index (c_Repositories Runs.local_config)
                              (c_Current Runs.local_config)).1 "sub") = true)
    as Hv by (vm_compute; reflexivity).
  assert ((main 5 ["cd"; "sub"] Runs.local_machine).1 = Ret tt) as Hrun
    by (vm_compute; reflexivity).
  split; [exact Runs.local_machine_loads|]. split; [exact Hv|].
  split; [exact Hrun|].
  apply (cd_is_seen_by_the_next_run 5 "sub" [] Runs.local_machine
           (loadConfig Runs.local_machine).2 Runs.local_config).
  - exact Runs.local_machine_loads.
  - left. vm_compute. reflexivity.
  - exact Hv.
  - exact Hrun.
Defined.

End Persistence.

(** ** Transfers over SSH *)
Module Transfers.
Import Path Unix JSON PathFacts FsFacts Machine Examples.

(** A download that goes through. *)
Lemma downloadFile_run (i : nat) (remotePath localPath : string)
  (s : State) (sv : Unix.server) (q e : list string) (data : string) :
  (st_net s : net) !! i = Some sv →
  resolve (sv_fs sv) remotePath = Some q →
  files (sv_fs sv) !! q = Some (Reg data) →
  resolve (st_local s) localPath = Some e →
  files (st_local s) !! e ≠ Some Dir →
  ∃ s',
    downloadFile i remotePath localPath s = (Ret None, s')
    ∧ st_local s'
      = mkFs (<[e := Reg data]> (files (st_local s))) (cwd (st_local s))
    ∧ st_net s' = st_net s
    ∧ st_out s'
      = st_out s ++ ["Downloaded file '" +:+ remotePath +:+ "'" +:+ newline].
Proof.
  intros Hnet Hq Hnd He Hfree.
  unfold downloadFile, bind, sftp_Open, net_call.
  cbn [sys_SftpOpen unix]. unfold SftpOpen, on_server. rewrite Hnet.
  unfold Open. rewrite Hq, Hnd.
  unfold os_Create, local_call. cbn [sys_Create unix st_local log with_net].
  unfold Create. rewrite He.
  assert (∀ f1 : fs,
            f1 = mkFs (<[e := Reg ""]> (files (st_local s))) (cwd (st_local s)) →
            Download e (i, q) f1 (st_net s)
            = (None,
               mkFs (<[e := Reg data]> (files (st_local s)))
                    (cwd (st_local s)),
               st_net s)) as Hdown.
  { intros f1 ->. unfold Download. cbn [fst snd]. rewrite Hnet.
    unfold ReadAll. rewrite Hnd. unfold write_at. cbn [files cwd].
    by rewrite lookup_insert_eq, overwrite_empty, insert_insert_eq. }
  destruct (files (st_local s) !! e) as [[|old]|] eqn:Hl; [done|..];
    unfold io_Copy_remote;
    cbn [sys_Download unix st_local st_net log with_net with_local];
    rewrite (Hdown _ eq_refl);
    eexists; (split; [reflexivity|]); by repeat split.
Qed.

(** X20: [downloadFile] on a Unix machine, for a remote path that leads
    to a regular file of the server and a local path that leads
    somewhere.  When there is a directory at the local path, the file
    cannot be created: that error is returned, wrapped, and the local
    machine is as before.  Otherwise no error is returned and the local
    file, new or overwritten, holds exactly the bytes of the remote
    one.  The server is not changed in either case. *)
Theorem downloadFile_fetches (i : nat) (remotePath localPath : string)
  (s : State) (sv : Unix.server) (q e : list string) (data : string) :
  (st_net s : net) !! i = Some sv →
  resolve (sv_fs sv) remotePath = Some q →
  files (sv_fs sv) !! q = Some (Reg data) →
  resolve (st_local s) localPath = Some e →
  ∃ s',
    downloadFile i remotePath localPath s
    = (Ret (if decide (files (st_local s) !! e = Some Dir)
            then Some ("could not create local file: " +:+ EISDIR)
            else None), s')
    ∧ st_local s'
      = (if decide (files (st_local s) !! e = Some Dir) then st_local s
         else mkFs (<[e := Reg data]> (files (st_local s)))
                   (cwd (st_local s)))
    ∧ st_net s' = st_net s.
Proof.
  intros Hnet Hq Hnd He.
  destruct (decide (files (st_local s) !! e = Some Dir)) as [Hdir|Hfree].
  - unfold downloadFile, bind, sftp_Open, net_call.
    cbn [sys_SftpOpen unix]. unfold SftpOpen, on_server. rewrite Hnet.
    unfold Open. rewrite Hq, Hnd.
    unfold os_Create, local_call. cbn [sys_Create unix st_local log with_net].
    unfold Create. rewrite He, Hdir.
    eexists. split; [reflexivity|]. by split.
  - destruct (downloadFile_run i remotePath localPath s sv q e data)
      as (s' & Hrun & Hloc & Hn & _); try done.
    by exists s'.
Qed.

(** X21: [get name] in an ssh repository that has a password, on a
    Unix machine whose network holds the server of the repository, when
    the server admits the user with that password and the repository's
    path joined to [name] leads to a regular file there.  If [name] is
    a plain name and the working directory has no directory of that
    name, the command returns (status 0) after printing one line, and
    the working directory then holds under [name] a file with exactly
    the bytes of the remote one; nothing else has changed on the local
    machine, and nothing on the server. *)
Theorem get_fetches_a_remote_file (fuel : nat) (config : Config)
  (name : string) (s : State) (i : nat) (sv : Unix.server)
  (q : list string) (data : string) :
  let f := st_local s in
  let repo := (map_index (c_Repositories config) (c_Current config)).1 in
  let remotePath := ToSlash (Join (r_Path repo) name) in
  r_Type repo = "ssh" →
  r_Password repo ≠ "" →
  list_find (λ sv, sv_host sv = r_Host repo ∧ sv_port sv = r_Port repo)
    (st_net s : net) = Some (i, sv) →
  admits sv (r_User repo) (AuthPassword (r_Password repo)) = true →
  resolve (sv_fs sv) remotePath = Some q →
  files (sv_fs sv) !! q = Some (Reg data) →
  tree_ok (files f) → files f !! cwd f = Some Dir → name_ok name →
  files f !! (cwd f ++ [name]) ≠ Some Dir →
  ∃ s',
    getRepository fuel config name s = (Ret tt, s')
    ∧ st_local s' = mkFs (<[cwd f ++ [name] := Reg data]> (files f)) (cwd f)
    ∧ st_net s' = st_net s
    ∧ st_out s'
      = st_out s ++ ["Downloaded file '" +:+ remotePath +:+ "'" +:+ newline].
Proof.
  intros f repo remotePath Hty Hpw Hfind Hadm Hq Hnd Hok Hcwd Hname Hfree.
  assert ((st_net s : net) !! i = Some sv) as Hi
    by (by apply list_find_Some in Hfind as [? _]).
  unfold getRepository. fold repo. rewrite Hty.
  change (is_local "ssh") with false. cbv iota.
  destruct (decide ("ssh" = "ssh")); [|done].
  assert (getSSHClient repo s = (Ret (Ok i), log CallNewConn None s)) as Hconn.
  { unfold getSSHClient. destruct (decide (r_Password repo ≠ "")); [|done].
    unfold bind, ret, goph_NewConn, net_call. cbn [sys_NewConn sys_Password unix].
    unfold NewConn. by rewrite Hfind, Hadm. }
  unfold bind at 1. rewrite Hconn.
  unfold bind at 1, client_NewSftp, net_call. cbn [sys_NewSftp unix].
  unfold NewSftp, on_server. cbn [st_net log]. rewrite Hi.
  unfold bind at 1, os_Getwd, local_query. cbn [sys_Getwd unix].
  unfold Getwd. cbn [result_err st_local log with_net].
  unfold bind at 1, sftp_Stat, net_call. cbn [sys_SftpStat unix].
  unfold on_server. cbn [st_net log with_net]. rewrite Hi.
  unfold Stat. fold remotePath. rewrite Hq. cbn [mbind option_bind].
  rewrite Hnd. cbn [info_of fi_IsDir result_err].
  unfold bind at 1.
  match goal with
  | |- context [downloadFile i remotePath ?lp ?s1] =>
      destruct (downloadFile_run i remotePath lp s1 sv q (cwd f ++ [name]) data)
        as (s' & Hrun & Hloc & Hn & Hout)
  end; try done.
  - apply resolve_Join; try done; [by destruct Hok| |by apply is_dir_true].
    apply resolve_Getwd; [done|by eexists].
  - rewrite Hrun. unfold bind, Close.
    eexists. split; [reflexivity|]. cbn [st_local st_net st_out log].
    by rewrite Hloc, Hn, Hout.
Qed.

Lemma downloadFile_fetches_witness :
  ([server] : net) !! 0%nat = Some server
  ∧ resolve (sv_fs server) "ab" = Some ["home"; "u"; "ab"]
  ∧ files (sv_fs server) !! ["home"; "u"; "ab"] = Some (Reg "hi")
  ∧ resolve desk "ab" = Some ["w"; "ab"]
  ∧ ∃ s',
      downloadFile 0%nat "ab" "ab" (boot desk [server]) = (Ret None, s')
      ∧ st_local s' = mkFs (<[ ["w"; "ab"] := Reg "hi" ]> (files desk)) ["w"]
      ∧ st_net s' = [server].
Proof.
  split; [reflexivity|]. split; [vm_compute; reflexivity|].
  split; [vm_compute; reflexivity|]. split; [vm_compute; reflexivity|].
  generalize (downloadFile_fetches 0 "ab" "ab" (boot desk [server]) server
                ["home"; "u"; "ab"] ["w"; "ab"] "hi" eq_refl
                ltac:(vm_compute; reflexivity) ltac:(vm_compute; reflexivity)
                ltac:(vm_compute; reflexivity)).
  destruct (decide (files (st_local (boot desk [server])) !! ["w"; "ab"]
                    = Some Dir)) as [Hdir|_]; [vm_compute in Hdir; discriminate|].
  intros Hrun. exact Hrun.
Defined.

Definition ssh_config : Config := (Unmarshal ssh_text zeroConfig).1.

Definition ssh_machine : State := boot (machine ssh_text) [server].

Lemma get_fetches_a_remote_file_witness :
  r_Type (map_index (c_Repositories ssh_config) (c_Current ssh_config)).1
  = "ssh"
  ∧ resolve (sv_fs server) "ab" = Some ["home"; "u"; "ab"]
  ∧ files (sv_fs server) !! ["home"; "u"; "ab"] = Some (Reg "hi")
  ∧ ∃ s',
      getRepository 5 ssh_config "ab" ssh_machine = (Ret tt, s')
      ∧ st_local s'
        = mkFs (<[ ["w"; "ab"] := Reg "hi" ]> (files (machine ssh_text))) ["w"]
      ∧ st_net s' = [server]
      ∧ st_out s' = ["Downloaded file 'ab'" +:+ newline].
Proof.
  split; [vm_compute; reflexivity|]. split; [vm_compute; reflexivity|].
  split; [vm_compute; reflexivity|].
  assert (ToSlash (Join (r_Path (map_index (c_Repositories ssh_config)
                                   (c_Current ssh_config)).1) "ab") = "ab")
    as Hpath by (vm_compute; reflexivity).
  generalize (get_fetches_a_remote_file 5 ssh_config "ab" ssh_machine 0 server
                ["home"; "u"; "ab"] "hi").
  cbv zeta. rewrite Hpath. intros Hget. apply Hget.
  - vm_compute. reflexivity.
  - vm_compute. discriminate.
  - vm_compute. reflexivity.
  - vm_compute. reflexivity.
  - vm_compute. reflexivity.
  - vm_compute. reflexivity.
  - apply tree_okb_ok. vm_compute. reflexivity.
  - vm_compute. reflexivity.
  - apply name_okb_ok. vm_compute. reflexivity.
  - vm_compute. discriminate.
Defined.




(** X23: [show] in an ssh repository that has a password, on a Unix
    machine whose network holds the server of the repository, which
    admits the user with that password, when the repository's path
    leads to a directory of the server: one line is printed for every
    entry of that directory, as the server lists them (by name), a
    directory with a slash after its name; the command returns, and
    neither the local machine nor the server has changed. *)
Theorem show_lists_the_remote_directory (config : Config) (s : State)
  (i : nat) (sv : Unix.server) (q : list string) :
  let repo := (map_index (c_Repositories config) (c_Current config)).1 in
  let listing := entries (files (sv_fs sv)) q in
  r_Type repo = "ssh" →
  r_Password repo ≠ "" →
  list_find (λ sv, sv_host sv = r_Host repo ∧ sv_port sv = r_Port repo)
    (st_net s : net) = Some (i, sv) →
  admits sv (r_User repo) (AuthPassword (r_Password repo)) = true →
  resolve (sv_fs sv) (r_Path repo) = Some q →
  files (sv_fs sv) !! q = Some Dir →
  ∃ s',
    showRepository config s = (Ret tt, s')
    ∧ st_out s' = st_out s ++ (listing_line <$> listing)
    ∧ st_local s' = st_local s
    ∧ st_net s' = st_net s
    ∧ ∀ n nd, (n, nd) ∈ listing ↔ files (sv_fs sv) !! (q ++ [n]) = Some nd.
Proof.
  intros repo listing Hty Hpw Hfind Hadm Hq Hdir.
  assert ((st_net s : net) !! i = Some sv) as Hi
    by (by apply list_find_Some in Hfind as [? _]).
  unfold showRepository. fold repo. rewrite Hty.
  change (is_local "ssh") with false. cbv iota.
  destruct (decide ("ssh" = "ssh")); [|done].
  assert (getSSHClient repo s = (Ret (Ok i), log CallNewConn None s)) as Hconn.
  { unfold getSSHClient. destruct (decide (r_Password repo ≠ "")); [|done].
    unfold bind, ret, goph_NewConn, net_call. cbn [sys_NewConn sys_Password unix].
    unfold NewConn. by rewrite Hfind, Hadm. }
  unfold bind at 1. rewrite Hconn.
  unfold bind at 1, client_NewSftp, net_call. cbn [sys_NewSftp unix].
  unfold NewSftp, on_server. cbn [st_net log]. rewrite Hi.
  unfold bind at 1, sftp_ReadDir, net_call. cbn [sys_SftpReadDir unix].
  unfold on_server. cbn [st_net log with_net]. rewrite Hi.
  unfold ReadDir. rewrite Hq, Hdir. cbn [result_err].
  unfold bind at 1.
  rewrite (for_each_prints _
             (λ fi, if fi_IsDir fi then fi_Name fi +:+ "/" +:+ newline
                    else fi_Name fi +:+ newline)).
  - unfold bind, Close. eexists. split; [reflexivity|].
    cbn [st_out st_local st_net log with_net printed_lines].
    split; [|split; [done|split; [done|]]].
    + f_equal. rewrite <- list_fmap_compose. apply list_fmap_ext.
      intros k [n [|data]] _; reflexivity.
    + intros n nd. apply entries_spec.
  - intros fi s1. unfold print_entry. by destruct (fi_IsDir fi).
Qed.

Definition remote_text : string :=
  "{" +:+ member "current" (quoted "s") +:+ ","
  +:+ member "repositories"
        ("{" +:+ member "s"
                   ("{" +:+ member "type" (quoted "ssh") +:+ ","
                    +:+ member "path" (quoted "/home/u") +:+ ","
                    +:+ member "host" (quoted "h") +:+ ","
                    +:+ member "port" "22" +:+ ","
                    +:+ member "user" (quoted "u") +:+ ","
                    +:+ member "password" (quoted "pw") +:+ "}")
         +:+ "}")
  +:+ "}".

Definition remote_config : Config := (Unmarshal remote_text zeroConfig).1.

Lemma show_lists_the_remote_directory_witness :
  resolve (sv_fs server) "/home/u" = Some ["home"; "u"]
  ∧ ∃ s',
      showRepository remote_config (boot desk [server]) = (Ret tt, s')
      ∧ st_out s' = ["ab" +:+ newline; "c" +:+ newline; "docs/" +:+ newline].
Proof.
  split; [vm_compute; reflexivity|].
  destruct (show_lists_the_remote_directory remote_config (boot desk [server])
              0 server ["home"; "u"]
              ltac:(vm_compute; reflexivity) ltac:(vm_compute; discriminate)
              ltac:(vm_compute; reflexivity) ltac:(vm_compute; reflexivity)
              ltac:(vm_compute; reflexivity) ltac:(vm_compute; reflexivity))
    as (s' & Hrun & Hout & _).
  exists s'. split; [exact Hrun|]. rewrite Hout.
  vm_compute. reflexivity.
Defined.

End Transfers.
